(** * decodense/orbitals.py: localized orbitals and population weights

    A shallow embedding of [loc_orbs], [assign_rdm1s], [get_weights] and
    [_population], with the properties of the written specification that
    can be settled against them.

    Conventions of the embedding.
    - A float64 is an exact rational ([Q]); [==] is [Qeq].
    - A coefficient array [mo_coeff[i]] is held column by column, because
      the source addresses it only as [mo_coeff[i][:, idx]].  The overlap
      matrix and the one-orbital density are held row by row.
    - The tuple [mo_coeff] that [loc_orbs] mutates holds two array objects
      or one array object twice; [assign_rdm1s] only reads it.
    - A Python exception is a value of [exn]; a function that may raise
      returns a [result].
    - pyscf's routines ([lo.Boys], [lo.PM], [lo.ibo.ibo], [lo.iao.iao],
      [lo.vec_lowdin], [lo.iao.reference_mol], [lib.num_threads]) are
      parameters of the development. *)

From Stdlib Require Import ZArith QArith Qabs String Ascii Lia.
From stdpp Require Import base option list gmap strings sorting.

Local Open Scope string_scope.
Local Open Scope list_scope.
Local Open Scope nat_scope.

(** ** Exceptions and results *)

(** The builtin exceptions the statements of orbitals.py can raise, followed
    by the four classes of the specification's taxonomy.  No statement of
    the source constructs one of the latter four. *)
Inductive exn : Type :=
| IndexError
| ValueError
| KeyError (key : string)
| NameError (name : string)
| UnboundLocalError (name : string)
| LocalizationFailure
| MissingParameterError
| InvalidOptionError
| DimensionMismatchError.

Inductive result (A : Type) : Type :=
| Ok (a : A)
| Raise (e : exn).
Arguments Ok {A} a.
Arguments Raise {A} e.

Definition rbind {A B} (r : result A) (k : A → result B) : result B :=
  match r with
  | Ok a => k a
  | Raise e => Raise e
  end.

Definition of_option {A} (e : exn) (o : option A) : result A :=
  match o with
  | Some a => Ok a
  | None => Raise e
  end.

Declare Scope result_scope.
Delimit Scope result_scope with res.
Notation "x <- c1 ;; c2" := (rbind c1 (fun x => c2))
  (at level 100, c1 at next level, right associativity) : result_scope.

(** [mapM] for [result], left to right, stopping at the first exception. *)
Fixpoint rmap {A B} (f : A → result B) (xs : list A) : result (list B) :=
  match xs with
  | [] => Ok []
  | x :: xs' => (y <- f x ;; ys <- rmap f xs' ;; Ok (y :: ys))%res
  end.

(** ** State and exceptions

    [St S A] is a computation that may change a state [S] (an array store,
    a log of calls) and either returns or raises; what was changed before an
    exception stays changed, as with in-place mutation. *)
Definition St (S A : Type) : Type := S → S * result A.

Definition ret {S A} (a : A) : St S A := fun s => (s, Ok a).
Definition raise {S A} (e : exn) : St S A := fun s => (s, Raise e).
Definition lift {S A} (r : result A) : St S A := fun s => (s, r).
Definition bind {S A B} (m : St S A) (k : A → St S B) : St S B :=
  fun s => match m s with
           | (s', Ok a) => k a s'
           | (s', Raise e) => (s', Raise e)
           end.
Definition modify {S} (f : S → S) : St S unit := fun s => (f s, Ok tt).
Definition gets {S A} (f : S → A) : St S A := fun s => (s, Ok (f s)).

Declare Scope st_scope.
Delimit Scope st_scope with st.
Notation "x <- c1 ;; c2" := (bind c1 (fun x => c2))
  (at level 100, c1 at next level, right associativity) : st_scope.
Notation "c1 ;; c2" := (bind c1 (fun _ => c2))
  (at level 100, right associativity) : st_scope.

(** A [for] loop whose body answers whether it executed [break]. *)
Fixpoint for_each {S A} (body : A → St S bool) (xs : list A) : St S unit :=
  match xs with
  | [] => ret tt
  | x :: xs' =>
      (brk <- body x ;; if (brk : bool) then ret tt else for_each body xs')%st
  end.

(** [mapM] in [St]. *)
Fixpoint smap {S A B} (f : A → St S B) (xs : list A) : St S (list B) :=
  match xs with
  | [] => ret []
  | x :: xs' => (y <- f x ;; ys <- smap f xs' ;; ret (y :: ys))%st
  end.

(** ** Arrays *)

Abbreviation vector := (list Q).
(** columns of a 2-D coefficient array *)
Abbreviation coeffs := (list (list Q)).
(** rows of a 2-D array *)
Abbreviation matrix := (list (list Q)).

(** [t[i]] on a 2-tuple. *)
Definition sel2 {A} (t : A * A) (i : nat) : result A :=
  match i with
  | 0 => Ok t.1
  | 1 => Ok t.2
  | _ => Raise IndexError
  end.

(** [a[idx]] with an index array on a 1-D array, and [a[:, idx]] on the
    columns of a 2-D one: a fresh array; [IndexError] out of bounds. *)
Definition take {A} (a : list A) (idx : list nat) : result (list A) :=
  rmap (fun j => of_option IndexError (a !! j)) idx.

(** [a[:, idx] = new]: the indices are checked, then the shape of [new]
    against the selection, and only then are the columns stored, in the
    order of [idx] (of two columns stored under one index the later stays).
    The value is one column per index, each as long as the column it
    replaces; numpy's broadcasting of a value of another shape is left out
    (the values stored by [loc_orbs] are what a localizer returns for the
    selection, or a selection itself). *)
Fixpoint store_cols (a : coeffs) (idx : list nat) (new : coeffs) : coeffs :=
  match idx, new with
  | j :: idx', c :: new' => store_cols (<[j:=c]> a) idx' new'
  | _, _ => a
  end.

Definition same_shape (a : coeffs) (idx : list nat) (new : coeffs) : bool :=
  (length new =? length idx)
  && forallb (fun jc => match a !! jc.1 with
                        | Some old => length jc.2 =? length old
                        | None => false
                        end) (zip idx new).

Definition put (a : coeffs) (idx : list nat) (new : coeffs) : result coeffs :=
  if forallb (fun j => j <? length a) idx then
    if same_shape a idx new then Ok (store_cols a idx new)
    else Raise ValueError
  else Raise IndexError.

(** ** Strings

    A Python [str] is held as the bytes of its UTF-8 encoding (what a
    string literal of this file is).  Equality, and the search for an ASCII
    pattern, come out the same on the bytes as on the characters;
    [variant[-1]] is the last character, which takes up to four bytes. *)

(** [sub in s] *)
Fixpoint contains (sub s : string) : bool :=
  String.prefix sub s
  || match s with
     | EmptyString => false
     | String _ s' => contains sub s'
     end.

(** The bytes of a string, the last one first. *)
Definition bytes_rev (s : string) : list N :=
  reverse (map N_of_ascii (list_ascii_of_string s)).

(** A continuation byte of a UTF-8 sequence. *)
Definition continuation (b : N) : bool := ((128 <=? b) && (b <? 192))%N.

(** The code point of the UTF-8 sequence that ends the bytes [rb] (given
    last byte first), in its shortest encoding and outside the surrogates;
    [None] for bytes that do not end in such a sequence and so are no
    Python string. *)
Definition utf8_last (rb : list N) : option N :=
  match rb with
  | [] => None
  | b0 :: rb1 =>
      if (b0 <? 128)%N then Some b0
      else if negb (continuation b0) then None
      else
        match rb1 with
        | [] => None
        | b1 :: rb2 =>
            if ((194 <=? b1) && (b1 <? 224))%N then
              Some ((b1 - 192) * 64 + (b0 - 128))%N
            else if negb (continuation b1) then None
            else
              match rb2 with
              | [] => None
              | b2 :: rb3 =>
                  if ((224 <=? b2) && (b2 <? 240))%N then
                    let cp := ((b2 - 224) * 4096 + (b1 - 128) * 64 + (b0 - 128))%N in
                    if ((2048 <=? cp) && negb ((55296 <=? cp) && (cp <? 57344)))%N
                    then Some cp else None
                  else if negb (continuation b2) then None
                  else
                    match rb3 with
                    | [] => None
                    | b3 :: _ =>
                        if ((240 <=? b3) && (b3 <? 245))%N then
                          let cp := ((b3 - 240) * 262144 + (b2 - 128) * 4096
                                     + (b1 - 128) * 64 + (b0 - 128))%N in
                          if ((65536 <=? cp) && (cp <? 1114112))%N
                          then Some cp else None
                        else None
                    end
              end
        end
  end.

(** [s[-1]], as a code point, for a string that has a last character. *)
Definition last_char (s : string) : option N := utf8_last (bytes_rev s).

(** The code points of the digit zero of every script with decimal digits
    (Unicode 14.0, the character database of CPython 3.11); each is followed
    by the digits one to nine of its script. *)
Definition decimal_zeros : list N :=
  [48; 1632; 1776; 1984; 2406; 2534; 2662; 2790; 2918; 3046; 3174; 3302;
   3430; 3558; 3664; 3792; 3872; 4160; 4240; 6112; 6160; 6470; 6608;
   6784; 6800; 6992; 7088; 7232; 7248; 42528; 43216; 43264; 43472;
   43504; 43600; 44016; 65296; 66720; 68912; 69734; 69872; 69942; 70096;
   70384; 70736; 70864; 71248; 71360; 71472; 71904; 72016; 72784; 73040;
   73120; 92768; 92864; 93008; 120782; 120792; 120802; 120812; 120822;
   123200; 123632; 125264; 130032]%N.

(** [int(c)] for a single character [c]: its value as a decimal digit,
    in whatever script; no other single character is an integer literal. *)
Definition digit_of (cp : N) : option nat :=
  match List.find (fun z => ((z <=? cp) && (cp <? z + 10))%N) decimal_zeros with
  | Some z => Some (N.to_nat (cp - z))
  | None => None
  end.

(** [int(s[-1])]: [IndexError] on the empty string, [ValueError] when the
    last character is not a decimal digit. *)
Definition int_last (s : string) : result nat :=
  match s with
  | EmptyString => Raise IndexError
  | String _ _ => of_option ValueError (last_char s ≫= digit_of)
  end.

(** ** The molecule *)

(** The attributes of [gto.Mole] that orbitals.py reads: the number of
    atoms, the AO labels (of which only the atom index [k[0]] is used, the
    shell label is kept as text), the occupied orbital indices of the two
    spin channels and the spin [2S].  Indices are natural numbers: neither
    [np.where], which yields the occupied indices, nor [ao_labels] produces
    the negative indices that numpy would count from the end. *)
Record Mole : Type := {
  natm : nat;
  ao_labels : list (nat * string);
  alpha : list nat;
  beta : list nat;
  spin : Z
}.

Definition nao_nr (mol : Mole) : nat := length (ao_labels mol).

(** [ref == 'restricted' and mol.spin == 0] *)
Definition closed_shell (ref : string) (mol : Mole) : bool :=
  (ref =? "restricted")%string && (spin mol =? 0)%Z.

Definition LOC_CONV : Q := 1 # 10000000000.

(** ** loc_orbs *)

(** What an iterative localizer hands back: the rotated orbitals and
    whether its iterations met the tolerance (pyscf keeps the latter on the
    localizer object; [loc.kernel()] and [lo.ibo.ibo] return the orbitals
    either way). *)
Record loc_result : Type := {
  loc_mo : coeffs;
  loc_converged : bool
}.

(** One run of an iterative localizer, on spin channel [chan]. *)
Inductive loc_call : Type :=
| RanBoys (chan : nat)
| RanPM (chan : nat)
| RanIBO (chan : nat) (exponent : nat).

Definition chan_of (c : loc_call) : nat :=
  match c with
  | RanBoys i | RanPM i | RanIBO i _ => i
  end.

(** The tuple [mo_coeff] as [loc_orbs] receives it: two array objects, or
    one array object in both places. *)
Inductive coeff_pair : Type :=
| Separate (a b : coeffs)
| Shared (a : coeffs).

Definition shared (t : coeff_pair) : bool :=
  match t with
  | Separate _ _ => false
  | Shared _ => true
  end.

(** The array that [t[i]] is, for [i] in [0, 1]. *)
Definition arr (t : coeff_pair) (i : nat) : coeffs :=
  match t, i with
  | Separate a _, 0 => a
  | Separate _ b, _ => b
  | Shared a, _ => a
  end.

(** [t[i]] *)
Definition view (t : coeff_pair) (i : nat) : result coeffs :=
  if i <? 2 then Ok (arr t i) else Raise IndexError.

(** The tuple once the array [t[i]] holds [x]: an array that is in both
    places changes in both. *)
Definition overwrite (t : coeff_pair) (i : nat) (x : coeffs) : coeff_pair :=
  match t, i with
  | Separate _ b, 0 => Separate x b
  | Separate a _, _ => Separate a x
  | Shared _, _ => Shared x
  end.

(** The store [loc_orbs] works on: the coefficient arrays, mutated in
    place, and the log of the localizer runs so far. *)
Record lstate : Type := {
  mo_coeff : coeff_pair;
  ran : list loc_call
}.

Definition read_cols (i : nat) (idx : list nat) : St lstate coeffs :=
  fun st => (st, (a <- view (mo_coeff st) i ;; take a idx)%res).

Definition write_cols (i : nat) (idx : list nat) (new : coeffs) : St lstate unit :=
  fun st =>
    match (a <- view (mo_coeff st) i ;; put a idx new)%res with
    | Ok a' => ({| mo_coeff := overwrite (mo_coeff st) i a'; ran := ran st |}, Ok tt)
    | Raise e => (st, Raise e)
    end.

Definition run (c : loc_call) (out : loc_result) : St lstate loc_result :=
  fun st => ({| mo_coeff := mo_coeff st; ran := ran st ++ [c] |}, Ok out).

Section Localizer.

Variable lo_Boys : Mole → coeffs → Q → loc_result.
Variable lo_PM : Mole → coeffs → Q → loc_result.
Variable lo_iao : Mole → coeffs → coeffs.
Variable lo_vec_lowdin : coeffs → matrix → coeffs.
Variable lo_ibo : Mole → coeffs → coeffs → Q → nat → loc_result.

(** The choice of the procedure, lines 31-49, for spin channel [i]. *)
Definition localize (mol : Mole) (s : matrix) (variant : string)
    (i : nat) (spin_mo : list nat) : St lstate unit :=
  (if (variant =? "fb")%string then
     occ <- read_cols i spin_mo ;;
     out <- run (RanBoys i) (lo_Boys mol occ LOC_CONV) ;;
     write_cols i spin_mo (loc_mo out)
   else if (variant =? "pm")%string then
     occ <- read_cols i spin_mo ;;
     out <- run (RanPM i) (lo_PM mol occ LOC_CONV) ;;
     write_cols i spin_mo (loc_mo out)
   else if contains "ibo" variant then
     occ <- read_cols i spin_mo ;;
     let iao := lo_vec_lowdin (lo_iao mol occ) s in
     occ' <- read_cols i spin_mo ;;
     p <- lift (int_last variant) ;;
     out <- run (RanIBO i p) (lo_ibo mol occ' iao LOC_CONV p) ;;
     write_cols i spin_mo (loc_mo out)
   else ret tt)%st.

(** The body of the loop over spins, lines 29-53; [true] is [break]. *)
Definition loc_spin (mol : Mole) (s : matrix) (ref variant : string)
    (ix : nat * list nat) : St lstate bool :=
  let '(i, spin_mo) := ix in
  (localize mol s variant i spin_mo ;;
   if closed_shell ref mol then
     cols <- read_cols i spin_mo ;;
     write_cols (i + 1) spin_mo cols ;;
     ret true
   else ret false)%st.

Definition loc_orbs (mol : Mole) (s : matrix) (ref variant : string) :
    St lstate unit :=
  for_each (loc_spin mol s ref variant) [(0, alpha mol); (1, beta mol)].

End Localizer.

(** ** Population weights: _population and get_weights *)

Definition Qsum (v : vector) : Q := foldr Qplus 0%Q v.

Definition dot (u v : vector) : Q := Qsum (zip_with Qmult u v).

Definition zeros (n : nat) : vector := replicate n 0%Q.

(** [np.eye(n)] *)
Definition eye (n : nat) : matrix :=
  map (fun i => map (fun j => if i =? j then 1%Q else 0%Q) (seq 0 n)) (seq 0 n).

(** Modelled from the spec: [tools.make_rdm1], which orbitals.py imports
    and this repository snapshot does not hold; the one-orbital density
    is the outer product of the column with itself scaled by the
    occupation. *)
Definition make_rdm1 (orb : vector) (occ : Q) : matrix :=
  map (fun ci => map (fun cj => (occ * (ci * cj))%Q) orb) orb.

(** The [i]-th column of a row-held array. *)
Definition column (b : matrix) (i : nat) : vector :=
  map (fun row => default 0%Q (row !! i)) b.

(** Modelled from the spec: [tools.contract] (an einsum), likewise
    imported and absent, at the subscripts ['ij,ji->i'] that [_population]
    uses: [pop[k] = sum_l a[k,l] * b[l,k]].  Operands whose shapes disagree
    are a [ValueError]. *)
Definition contract_ij_ji_i (a b : matrix) : result vector :=
  if forallb (fun row => length row =? length b) a
     && forallb (fun row => length row =? length a) b
  then Ok (imap (fun i row => dot row (column b i)) a)
  else Raise ValueError.

Definition matvec (s : matrix) (v : vector) : vector :=
  map (fun row => dot row v) s.

(** Modelled from the spec: [tools.contract] at the subscripts
    ['ki,kl,lj->ij'] of the IAO projection, with the first and the last
    operand and the product held by columns:
    [mo[i,j] = sum_k sum_l iao[k,i] * s[k,l] * c[l,j]]. *)
Definition contract_ki_kl_lj_ij (iao : coeffs) (s : matrix) (c : coeffs) :
    result coeffs :=
  if forallb (fun a => length a =? length s) iao
     && forallb (fun row => forallb (fun cj => length cj =? length row) c) s
  then Ok (map (fun cj => map (fun ai => dot ai (matvec s cj)) iao) c)
  else Raise ValueError.

(** The loop over AOs of [_population], lines 181-182, from AO [i] on. *)
Fixpoint accumulate (pop : vector) (i : nat) (labels : list (nat * string))
    (populations : vector) : result vector :=
  match labels with
  | [] => Ok populations
  | k :: labels' =>
      (old <- of_option IndexError (populations !! k.1) ;;
       x <- of_option IndexError (pop !! i) ;;
       accumulate pop (S i) labels' (<[k.1 := (old + x)%Q]> populations))%res
  end.

Definition _population (natm : nat) (ao_labels : list (nat * string))
    (ovlp rdm1 : matrix) : result vector :=
  (pop <- contract_ij_ji_i rdm1 ovlp ;;
   accumulate pop 0 ao_labels (zeros natm))%res.

(** [get_weights], lines 88-97.  Its free variables [natm], [ao_labels],
    [ovlp], [mo] and [mocc] are those of the enclosing call at the time of
    the call; [mo] is unbound ([None]) as long as no branch of lines 106-111
    has assigned it. *)
Definition get_weights (natm : nat) (ao_labels : list (nat * string))
    (ovlp : matrix) (mo : option coeffs) (mocc : vector) (orb_idx : nat) :
    result vector :=
  (m <- of_option (NameError "mo") mo ;;
   orb <- of_option IndexError (m !! orb_idx) ;;
   occ <- of_option IndexError (mocc !! orb_idx) ;;
   _population natm ao_labels ovlp (make_rdm1 orb occ))%res.

(** ** Sorting and deduplication helpers of the bond-wise partitioning *)

Definition wt (w : vector) (j : nat) : Q := default 0%Q (w !! j).

Fixpoint insert_idx (w : vector) (j : nat) (sorted : list nat) : list nat :=
  match sorted with
  | [] => [j]
  | k :: sorted' =>
      if Qle_bool (wt w j) (wt w k) then j :: k :: sorted'
      else k :: insert_idx w j sorted'
  end.

(** [np.argsort(w)]: the indices of [w] by ascending weight.  Equal weights
    keep their order (numpy sorts short arrays by insertion). *)
Definition argsort (w : vector) : list nat :=
  foldr (insert_idx w) [] (seq 0 (length w)).

Definition pair_ltb (p q : nat * nat) : bool :=
  (p.1 <? q.1) || ((p.1 =? q.1) && (p.2 <? q.2)).

Fixpoint insert_row (p : nat * nat) (rows : list (nat * nat)) : list (nat * nat) :=
  match rows with
  | [] => [p]
  | q :: rows' =>
      if pair_ltb p q then p :: q :: rows'
      else if bool_decide (p = q) then q :: rows'
      else q :: insert_row p rows'
  end.

(** [np.unique(c, axis=0)]: the distinct rows, in lexicographic order. *)
Definition np_unique (c : list (nat * nat)) : list (nat * nat) :=
  foldr insert_row [] c.

(** [np.where((c == u).all(axis=1))[0]], counting rows from [k]. *)
Fixpoint where_from (k : nat) (c : list (nat * nat)) (u : nat * nat) : list nat :=
  match c with
  | [] => []
  | p :: c' =>
      if bool_decide (p = u) then k :: where_from (S k) c' u
      else where_from (S k) c' u
  end.

Definition where_rows (c : list (nat * nat)) (u : nat * nat) : list nat :=
  where_from 0 c u.

(** [np.sort] of a two-element array. *)
Definition sort2 (a b : nat) : nat * nat :=
  if a <=? b then (a, b) else (b, a).

(** ** The worker pool *)

(** [mp.Pool(processes).map(f, domain)].  Creating a pool of fewer than one
    process is a [ValueError].  The tasks are numbered by their position in
    [domain]; they finish in an order the caller does not control, given
    here by [oracle] (each entry picks one of the tasks still pending); a
    finished task puts its value into the slot of its number, and the
    filled slots are the value of [map].  The exception of the first task
    that fails to finish is the exception of [map].  [fuel] counts the
    pending tasks: [pool_map] starts with one unit per task, and each round
    finishes one task. *)
Fixpoint pool_run {S} (f : nat → St S vector) (oracle : list nat) (fuel : nat)
    (pending : list (nat * nat)) (slots : list vector) : St S (list vector) :=
  match fuel with
  | 0 => ret slots
  | S fuel' =>
      let k := hd 0 oracle mod length pending in
      match pending !! k with
      | None => ret slots
      | Some (slot, arg) =>
          (w <- f arg ;;
           pool_run f (tl oracle) fuel' (delete k pending) (<[slot := w]> slots))%st
      end
  end.

Definition pool_map {S} (processes : nat) (oracle : list nat)
    (f : nat → St S vector) (domain : list nat) : St S (list vector) :=
  if processes =? 0 then raise ValueError
  else pool_run f oracle (length domain) (imap pair domain)
         (replicate (length domain) []).

(** ** assign_rdm1s *)

(** What can be observed of a call besides its value: the runs of the
    per-orbital kernel and the rows of the verbose table. *)
Inductive event : Type :=
| Weighed (chan orb_idx : nat)
| Printed (chan mo_idx : nat) (w : vector).

(** The local variables of a call of [assign_rdm1s] that its loops assign,
    and the events so far.  [domain] and [mocc] are bound by the first pass
    of the loop of line 103, which always runs, before anything reads them. *)
Record frame : Type := {
  trace : list event;
  mo : option coeffs;
  mocc : vector;
  domain : list nat;
  weights : list (list vector);
  centres : list (list (nat * nat))
}.

Definition initial_frame : frame :=
  {| trace := []; mo := None; mocc := []; domain := [];
     weights := []; centres := [] |}.

Definition emit (e : event) : St frame unit :=
  modify (fun fr =>
    {| trace := trace fr ++ [e]; mo := mo fr; mocc := mocc fr;
       domain := domain fr; weights := weights fr; centres := centres fr |}).

Definition set_mo (m : coeffs) : St frame unit :=
  modify (fun fr =>
    {| trace := trace fr; mo := Some m; mocc := mocc fr;
       domain := domain fr; weights := weights fr; centres := centres fr |}).

Definition set_mocc (o : vector) : St frame unit :=
  modify (fun fr =>
    {| trace := trace fr; mo := mo fr; mocc := o;
       domain := domain fr; weights := weights fr; centres := centres fr |}).

Definition set_domain (d : list nat) : St frame unit :=
  modify (fun fr =>
    {| trace := trace fr; mo := mo fr; mocc := mocc fr;
       domain := d; weights := weights fr; centres := centres fr |}).

Definition set_weights (w : list (list vector)) : St frame unit :=
  modify (fun fr =>
    {| trace := trace fr; mo := mo fr; mocc := mocc fr;
       domain := domain fr; weights := w; centres := centres fr |}).

Definition set_centres (c : list (list (nat * nat))) : St frame unit :=
  modify (fun fr =>
    {| trace := trace fr; mo := mo fr; mocc := mocc fr;
       domain := domain fr; weights := weights fr; centres := c |}).

(** [l[i] = x] on a Python list or along the first axis of an array. *)
Definition assign_at {A} (l : list A) (i : nat) (x : A) : result (list A) :=
  if i <? length l then Ok (<[i := x]> l) else Raise IndexError.

(** [l[i]] *)
Definition item {A} (l : list A) (i : nat) : result A :=
  of_option IndexError (l !! i).

(** The value of a call: [(weights, None)] or [(rep_idx, centres_unique)]. *)
Inductive assigned : Type :=
| Weights (w : list (list vector))
| Bonds (rep_idx : list (list (list nat))) (centres_unique : list (list (nat * nat))).

Section Assigner.

Variable reference_mol : Mole → Mole.
Variable lo_iao : Mole → coeffs → coeffs.
Variable lo_vec_lowdin : coeffs → matrix → coeffs.
(** [lib.num_threads()] *)
Variable num_threads : nat.
(** the order in which the pool of a spin channel finishes its tasks *)
Variable schedule : nat → list nat.

Section Call.

Variable mol : Mole.
Variable s : matrix.
Variable mo_coeff : coeffs * coeffs.
Variable mo_occ : vector * vector.
Variable ref pop part : string.
Variable multiproc : bool.
Variable verbose : Z.
Variable kwargs : gmap string Q.

(** lines 71-86 *)
Definition pmol : Mole :=
  if (pop =? "iao")%string then reference_mol mol else mol.

Definition ovlp : matrix :=
  if (pop =? "mulliken")%string then s else eye (nao_nr pmol).

(** One run of [get_weights] in the current frame. *)
Definition kernel (i : nat) (orb_idx : nat) : St frame vector :=
  (emit (Weighed i orb_idx) ;;
   m <- gets mo ;; o <- gets mocc ;;
   lift (get_weights (natm pmol) (ao_labels pmol) ovlp m o orb_idx))%st.

(** The body of the loop over spins of lines 103-127. *)
Definition weights_spin (ix : nat * list nat) : St frame bool :=
  let '(i, spin_mo) := ix in
  ((if (pop =? "mulliken")%string then
      c <- lift (a <- sel2 mo_coeff i ;; take a spin_mo)%res ;;
      set_mo c
    else if (pop =? "iao")%string then
      c <- lift (a <- sel2 mo_coeff i ;; take a spin_mo)%res ;;
      let iao := lo_vec_lowdin (lo_iao mol c) s in
      c' <- lift (a <- sel2 mo_coeff i ;; take a spin_mo)%res ;;
      m <- lift (contract_ki_kl_lj_ij iao s c') ;;
      set_mo m
    else ret tt) ;;
   o <- lift (a <- sel2 mo_occ i ;; take a spin_mo)%res ;;
   set_mocc o ;;
   set_domain (seq 0 (length spin_mo)) ;;
   d <- gets domain ;;
   ws <- (if multiproc then
            pool_map (min (length d) num_threads) (schedule i) (kernel i) d
          else smap (kernel i) d) ;;
   w <- gets weights ;;
   w' <- lift (assign_at w i ws) ;;
   set_weights w' ;;
   if closed_shell ref mol then
     w <- gets weights ;;
     wi <- lift (item w i) ;;
     w' <- lift (assign_at w (i + 1) wi) ;;
     set_weights w' ;;
     ret true
   else ret false)%st.

(** One row of the verbose table, line 137. *)
Definition print_row (i : nat) (spin_mo : list nat) (j : nat) : St frame bool :=
  (m <- lift (item spin_mo j) ;;
   w <- gets weights ;;
   wi <- lift (item w i) ;;
   wij <- lift (item wi j) ;;
   emit (Printed i m wij) ;;
   ret false)%st.

Definition print_spin (ix : nat * list nat) : St frame bool :=
  let '(i, spin_mo) := ix in
  (d <- gets domain ;;
   for_each (print_row i spin_mo) d ;;
   ret false)%st.

(** The body of the loop over orbitals of lines 147-156. *)
Definition centre_orb (thres : Q) (i j : nat) : St frame bool :=
  (w <- gets weights ;;
   wi <- lift (item w i) ;;
   wij <- lift (item wi j) ;;
   let max_idx := reverse (argsort wij) in
   m0 <- lift (item max_idx 0) ;;
   wmax <- lift (item wij m0) ;;
   pair <- (if negb (Qle_bool (Qabs wmax) thres) then ret (m0, m0)
            else m1 <- lift (item max_idx 1) ;; ret (sort2 m0 m1)) ;;
   c <- gets centres ;;
   ci <- lift (item c i) ;;
   ci' <- lift (assign_at ci j pair) ;;
   c' <- lift (assign_at c i ci') ;;
   set_centres c' ;;
   ret false)%st.

(** The body of the loop over spins of lines 145-160. *)
Definition centres_spin (thres : Q) (ix : nat * list nat) : St frame bool :=
  let '(i, _) := ix in
  (d <- gets domain ;;
   for_each (centre_orb thres i) d ;;
   if closed_shell ref mol then
     c <- gets centres ;;
     ci <- lift (item c i) ;;
     c' <- lift (assign_at c (i + 1) ci) ;;
     set_centres c' ;;
     ret true
   else ret false)%st.

(** lines 140-163: [Some (rep_idx, centres_unique)] once both are bound. *)
Definition bonds :
    St frame (option (list (list (list nat)) * list (list (nat * nat)))) :=
  if (part =? "bonds")%string then
    (set_centres [replicate (length (alpha mol)) (0, 0);
                  replicate (length (beta mol)) (0, 0)] ;;
     thres <- lift (of_option (KeyError "thres") (kwargs !! "thres")) ;;
     for_each (centres_spin thres) [(0, alpha mol); (1, beta mol)] ;;
     c <- gets centres ;;
     centres_unique <- lift (rmap (fun i => ci <- item c i ;; Ok (np_unique ci))%res [0; 1]) ;;
     rep_idx <- lift (rmap (fun i =>
                    ci <- item c i ;; ui <- item centres_unique i ;;
                    Ok (map (where_rows ci) ui))%res [0; 1]) ;;
     ret (Some (rep_idx, centres_unique)))%st
  else ret None.

(** lines 99-137: the weights of both channels and the verbose table. *)
Definition populations : St frame unit :=
  let n_spin := max (length (alpha mol)) (length (beta mol)) in
  (set_weights [replicate n_spin (zeros (natm pmol));
                replicate n_spin (zeros (natm pmol))] ;;
   for_each weights_spin [(0, alpha mol); (1, beta mol)] ;;
   if (0 <? verbose)%Z then
     for_each print_spin [(0, alpha mol); (1, beta mol)]
   else ret tt)%st.

Definition assign_rdm1s : St frame assigned :=
  (populations ;;
   bound <- bonds ;;
   if (part =? "atoms")%string || (part =? "eda")%string then
     w <- gets weights ;; ret (Weights w)
   else
     match bound with
     | Some (rep_idx, centres_unique) => ret (Bonds rep_idx centres_unique)
     | None => raise (UnboundLocalError "rep_idx")
     end)%st.

End Call.

End Assigner.

(** * Vocabulary of the properties *)

(** [sat R Q m]: every run of [m] relates the state before to the state
    after by [R], whether it returns or raises, and a returned value
    satisfies [Q]. *)
Definition sat {S A} (R : relation S) (Q : A → Prop) (m : St S A) : Prop :=
  ∀ s s' r, m s = (s', r) → R s s' ∧ ∀ a, r = Ok a → Q a.

(** [cols_same idx a a']: [a'] has the columns of [a] outside [idx]. *)
Definition cols_same (idx : list nat) (a a' : coeffs) : Prop :=
  length a' = length a ∧ ∀ j, j ∉ idx → a' !! j = a !! j.

(** [frame_rel sh X Y st st']: if the arrays of [st] are shared or not as
    [sh] says, so are those of [st'], and from [st] to [st'] the array in
    the first place changed at most in the columns [X] and the array in the
    second place at most in [Y]. *)
Definition frame_rel (sh : bool) (X Y : list nat) (st st' : lstate) : Prop :=
  shared (mo_coeff st) = sh →
  shared (mo_coeff st') = sh
  ∧ cols_same X (arr (mo_coeff st) 0) (arr (mo_coeff st') 0)
  ∧ cols_same Y (arr (mo_coeff st) 1) (arr (mo_coeff st') 1).

(** A store into the array in place [i] under [idx] that [frame_rel sh X Y]
    allows. *)
Definition writes_ok (sh : bool) (X Y : list nat) (i : nat) (idx : list nat) : Prop :=
  if sh then idx = X ∧ idx = Y
  else match i with
       | 0 => idx = X
       | 1 => idx = Y
       | _ => True
       end.

(** The variants for which [loc_orbs] runs a localizer. *)
Definition recognised (variant : string) : bool :=
  (variant =? "fb")%string || (variant =? "pm")%string || contains "ibo" variant.

(** The exceptions that statements of orbitals.py raise themselves. *)
Definition builtin (e : exn) : Prop :=
  match e with
  | IndexError | ValueError | KeyError _ | NameError _ | UnboundLocalError _ => True
  | _ => False
  end.

(** [raises_only E m]: an exception that ends a run of [m] is in [E]. *)
Definition raises_only {S A} (E : exn → Prop) (m : St S A) : Prop :=
  ∀ s s' e, m s = (s', Raise e) → E e.

(** A localizer that reports the convergence flag [b] in place of its own. *)
Definition reporting {A} (b : bool) (f : A → loc_result) (x : A) : loc_result :=
  {| loc_mo := loc_mo (f x); loc_converged := b |}.

(** ** Inputs of the examples *)

(** Stand-ins for pyscf: a localizer that flips the sign of every orbital
    (a rotation of the occupied space) and reports convergence [conv]; an
    IAO construction and an orthogonalization that return their argument. *)
Definition flip_loc (conv : bool) (mol : Mole) (occ : coeffs) (tol : Q) : loc_result :=
  {| loc_mo := map (map Qopp) occ; loc_converged := conv |}.

Definition flip_ibo (conv : bool) (mol : Mole) (occ iaos : coeffs) (tol : Q)
    (exponent : nat) : loc_result :=
  {| loc_mo := map (map Qopp) occ; loc_converged := conv |}.

Definition id_iao (mol : Mole) (occ : coeffs) : coeffs := occ.
Definition id_lowdin (c : coeffs) (s : matrix) : coeffs := c.
Definition id_mol (mol : Mole) : Mole := mol.

(** Two atoms with one basis function each and an orthonormal basis. *)
Definition two_labels : list (nat * string) := [(0, "1s"); (1, "1s")].
Definition s_two : matrix := [[1; 0]; [0; 1]]%Q.
(** Two orthonormal orbitals, the first mostly on atom 0, the second mostly
    on atom 1. *)
Definition c_two : coeffs := [[24 # 25; 7 # 25]; [- 7 # 25; 24 # 25]]%Q.

(** A closed-shell molecule: one doubly occupied orbital. *)
Definition mol_closed : Mole :=
  {| natm := 2; ao_labels := two_labels; alpha := [0]; beta := [0]; spin := 0 |}.

(** An open-shell molecule: two alpha electrons and one beta electron. *)
Definition mol_open : Mole :=
  {| natm := 2; ao_labels := two_labels; alpha := [0; 1]; beta := [0]; spin := 1 |}.

(** A one-electron atom: no beta electron. *)
Definition mol_h : Mole :=
  {| natm := 1; ao_labels := [(0, "1s")]; alpha := [0]; beta := []; spin := 1 |}.

Definition st_two : lstate := {| mo_coeff := Separate c_two c_two; ran := [] |}.

(** The same with one array object for both channels. *)
Definition st_shared : lstate := {| mo_coeff := Shared c_two; ran := [] |}.

(** ** Sums *)

(** [sumn n f] is [f 0 + ... + f (n - 1)]. *)
Fixpoint sumn (n : nat) (f : nat → Q) : Q :=
  match n with
  | 0 => 0%Q
  | S n' => (f 0%nat + sumn n' (fun i => f (S i)))%Q
  end.

(** The entry [m[a][b]] of a row-held array, [0] outside it. *)
Definition entry (m : matrix) (a b : nat) : Q := wt (default [] (m !! a)) b.

(** [c^T S c], the squared norm of the orbital [c] under the overlap [S]. *)
Definition quad (S : matrix) (c : vector) : Q := dot c (matvec S c).

(** Occupations of the two channels for the molecules above, and the
    arrays of the one-electron atom. *)
Definition occ_closed : vector * vector := ([1; 0], [1; 0])%Q.
Definition occ_open : vector * vector := ([1; 1], [1; 0])%Q.
Definition occ_h : vector * vector := ([1], [0])%Q.
Definition s_h : matrix := [[1]]%Q.
Definition c_h : coeffs := [[1]]%Q.

(** No pool finishes out of order in the examples. *)
Definition in_order (chan : nat) : list nat := [].

(** ** Groups and centres *)

(** The lexicographic order of [np.unique(axis=0)] on rows. *)
Definition pair_lt (p q : nat * nat) : Prop := pair_ltb p q = true.

(** [groups_of n rep cu c]: [c] assigns a centre pair to each of the
    orbitals [0 .. n-1]; the pairs of [cu] are distinct and are exactly the
    pairs that occur in [c]; the groups [rep] stand one for one by the pairs
    of [cu], each holding the orbitals with that pair, and together they
    hold every orbital once. *)
Definition groups_of (n : nat) (rep : list (list nat)) (cu c : list (nat * nat)) : Prop :=
  length c = n
  ∧ concat rep ≡ₚ seq 0 n
  ∧ NoDup (concat rep)
  ∧ NoDup cu
  ∧ length rep = length cu
  ∧ (∀ p, p ∈ cu ↔ p ∈ c)
  ∧ (∀ k u g, cu !! k = Some u → rep !! k = Some g → ∀ j, j ∈ g ↔ c !! j = Some u).

(** [m] is the index of a largest weight of [w]. *)
Definition is_argmax (w : vector) (m : nat) : Prop :=
  m < length w ∧ ∀ k, k < length w → (wt w k <= wt w m)%Q.

(** [m] is the index of a largest weight of [w] apart from index [m0]. *)
Definition is_second (w : vector) (m0 m : nat) : Prop :=
  m < length w ∧ m ≠ m0 ∧ ∀ k, k < length w → k ≠ m0 → (wt w k <= wt w m)%Q.

(** The centre pair the bond-wise rule gives an orbital with weights [w],
    largest weight at [m0] and next at [m1]. *)
Definition bond_rule (thres : Q) (w : vector) (m0 m1 : nat) : nat * nat :=
  if negb (Qle_bool (Qabs (wt w m0)) thres) then (m0, m0) else sort2 m0 m1.

(** ** Observations of a call of assign_rdm1s *)

(** The frame [fr] after the events [es]. *)
Definition logged (fr : frame) (es : list event) : frame :=
  {| trace := trace fr ++ es; mo := mo fr; mocc := mocc fr;
     domain := domain fr; weights := weights fr; centres := centres fr |}.

(** The kernel runs of a trace, as (channel, orbital) pairs. *)
Definition weighed (tr : list event) : list (nat * nat) :=
  omap (fun e => match e with
                 | Weighed i j => Some (i, j)
                 | Printed _ _ _ => None
                 end) tr.

(** [keeps_obs fr fr']: from [fr] to [fr'] the weights and the domain
    stayed and no kernel ran. *)
Definition keeps_obs (fr fr' : frame) : Prop :=
  weights fr' = weights fr ∧ weighed (trace fr') = weighed (trace fr)
  ∧ domain fr' = domain fr.

(** [centres_shape fr fr']: from [fr] to [fr'] only entries of the centres
    arrays changed: the arrays kept their sizes, the weights and the domain
    stayed and no kernel ran. *)
Definition centres_shape (fr fr' : frame) : Prop :=
  Forall2 (fun a b : list (nat * nat) => length a = length b)
    (centres fr) (centres fr')
  ∧ weights fr' = weights fr ∧ domain fr' = domain fr
  ∧ trace fr' = trace fr.

(** The keyword arguments of a call with threshold 0.9. *)
Definition kw_thres : gmap string Q := {["thres" := (9 # 10)%Q]}.

(** What a run of the kernel for orbital [j] returns in frame [fr]. *)
Definition kernel_value (reference_mol : Mole → Mole) (mol : Mole) (s : matrix)
    (pop : string) (fr : frame) (j : nat) : result vector :=
  get_weights (natm (pmol reference_mol mol pop))
    (ao_labels (pmol reference_mol mol pop)) (ovlp reference_mol mol s pop)
    (mo fr) (mocc fr) j.

(** The order of [np.argsort] on the indices of [w]. *)
Definition wt_le (w : vector) (a b : nat) : Prop := (wt w a <= wt w b)%Q.

(** The centre pair of orbital [j] of channel [i] in frame [fr]. *)
Definition centre_at (fr : frame) (i j : nat) : option (nat * nat) :=
  match centres fr !! i with
  | Some ci => ci !! j
  | None => None
  end.

(** [p] is the pair the bond-wise rule gives the weights [w]: with [m0] the
    index of a largest weight, [(m0, m0)] when that weight exceeds [thres]
    in absolute value, and otherwise [m0] and the index [m1] of a largest
    weight among the others, in ascending order. *)
Definition follows_rule (thres : Q) (w : vector) (p : nat * nat) : Prop :=
  ∃ m0 m1,
    is_argmax w m0
    ∧ ((Qabs (wt w m0) <= thres)%Q → is_second w m0 m1)
    ∧ p = bond_rule thres w m0 m1.

(** The channel whose domain the loops after line 127 iterate over. *)
Definition last_channel (ref : string) (mol : Mole) : list nat :=
  if closed_shell ref mol then alpha mol else beta mol.

(** ** Two runs side by side *)

(** [same_locals fr1 fr2]: the frames agree on every local variable; their
    traces may differ. *)
Definition same_locals (fr1 fr2 : frame) : Prop :=
  mo fr1 = mo fr2 ∧ mocc fr1 = mocc fr2 ∧ domain fr1 = domain fr2
  ∧ weights fr1 = weights fr2 ∧ centres fr1 = centres fr2.

(** [sim m1 m2]: from frames that agree on the locals, whenever [m1]
    returns, [m2] returns the same value, in frames that agree again. *)
Definition sim {A} (m1 m2 : St frame A) : Prop :=
  ∀ fr1 fr2 fr1' a,
    same_locals fr1 fr2 → m1 fr1 = (fr1', Ok a) →
    ∃ fr2', m2 fr2 = (fr2', Ok a) ∧ same_locals fr1' fr2'.

(** The frame of the specification's worked example: two alpha orbitals
    with the weights (0.95, 0.05) and (0.5, 0.5) over two atoms, and one
    beta orbital with the weights (0.95, 0.05). *)
Definition mol_example : Mole :=
  {| natm := 2; ao_labels := two_labels; alpha := [0; 1]; beta := [0; 1]; spin := 0 |}.

Definition fr_example : frame :=
  {| trace := []; mo := None; mocc := []; domain := [0; 1];
     weights := [[[95 # 100; 5 # 100]; [1 # 2; 1 # 2]];
                 [[95 # 100; 5 # 100]; [1 # 2; 1 # 2]]]%Q;
     centres := [] |}.

(** ** Vocabulary of the further properties *)

(** [shape_rel st st']: from [st] to [st'] both coefficient arrays kept
    their number of columns and the length of every column. *)
Definition shape_rel (st st' : lstate) : Prop :=
  ∀ i, Forall2 (fun c c' : vector => length c' = length c)
         (arr (mo_coeff st) i) (arr (mo_coeff st') i).

(** A store of two separate arrays. *)
Definition separate (a b : coeffs) (log : list loc_call) : lstate :=
  {| mo_coeff := Separate a b; ran := log |}.

(** A stand-in for a localizer that mixes the orbitals it is given: it
    swaps the first two occupied columns and flips the sign of the
    others. *)
Definition swap_loc (mol : Mole) (occ : coeffs) (tol : Q) : loc_result :=
  {| loc_mo := match occ with
               | c0 :: c1 :: rest => c1 :: c0 :: map (map Qopp) rest
               | _ => map (map Qopp) occ
               end;
     loc_converged := true |}.

(** The part of [pop[i]], the population of AO [i], that the loop of lines
    181-182 adds to atom [a]: all of it if the label of AO [i] names atom
    [a], nothing otherwise. *)
Definition share (labels : list (nat * string)) (pop : vector) (a i : nat) : Q :=
  match labels !! i with
  | Some k => if k.1 =? a then wt pop i else 0%Q
  | None => 0%Q
  end.

(** [bound_for ... i idx fr]: the frame [fr] holds in [mocc] and [mo] what
    lines 106-112 bind for spin channel [i] with the occupied orbitals
    [idx]: the occupations of these orbitals; under 'mulliken' their
    coefficient columns, under 'iao' the columns projected on the
    orthogonalized IAOs. *)
Definition bound_for (lo_iao : Mole → coeffs → coeffs)
    (lo_vec_lowdin : coeffs → matrix → coeffs) (mol : Mole) (s : matrix)
    (mo_coeff : coeffs * coeffs) (mo_occ : vector * vector) (pop : string)
    (i : nat) (idx : list nat) (fr : frame) : Prop :=
  (a <- sel2 mo_occ i ;; take a idx)%res = Ok (mocc fr)
  ∧ (pop = "mulliken" →
     ∃ c, (a <- sel2 mo_coeff i ;; take a idx)%res = Ok c ∧ mo fr = Some c)
  ∧ (pop = "iao" →
     ∃ c m, (a <- sel2 mo_coeff i ;; take a idx)%res = Ok c
            ∧ contract_ki_kl_lj_ij (lo_vec_lowdin (lo_iao mol c) s) s c = Ok m
            ∧ mo fr = Some m).

(** The unit coefficient array on two AOs: orbital [j] is AO [j]. *)
Definition c_unit : coeffs := [[1; 0]; [0; 1]]%Q.

(** [sums_to_occupation labels s cs os idx ws]: for every position [j] of
    [idx] whose orbital, column [idx[j]] of [cs], is as long as the AO
    labels, fits the square overlap [s] and is normalized in it
    ([c^T s c = 1]), the vector [ws[j]] sums to the occupation
    [os[idx[j]]]. *)
Definition sums_to_occupation (labels : list (nat * string)) (s : matrix)
    (cs : coeffs) (os : vector) (idx : list nat) (ws : list vector) : Prop :=
  ∀ j m c,
    idx !! j = Some m → cs !! m = Some c →
    length labels = length c → length s = length c →
    Forall (fun row : vector => length row = length c) s →
    (quad s c == 1)%Q →
    ∃ occ v, os !! m = Some occ ∧ ws !! j = Some v ∧ (Qsum v == occ)%Q.

(** A stand-in for the IAO construction that spans the whole basis: the
    IAOs are the AOs themselves. *)
Definition ao_iao (mol : Mole) (occ : coeffs) : coeffs := eye (nao_nr mol).

(** A molecule with more beta than alpha electrons (spin [-1]). *)
Definition mol_more_beta : Mole :=
  {| natm := 2; ao_labels := two_labels; alpha := [0]; beta := [0; 1]; spin := -1 |}.

Definition occ_more_beta : vector * vector := ([1; 0], [1; 1])%Q.

(** A single atom with one AO, and one doubly occupied orbital on it. *)
Definition mol_he : Mole :=
  {| natm := 1; ao_labels := [(0, "1s")]; alpha := [0]; beta := [0]; spin := 0 |}.

(** A pool whose second task finishes first. *)
Definition out_of_order (chan : nat) : list nat := [1; 0].

(** Two orbitals over the two atoms, the first on atom 0, the second
    spread evenly, and their occupations. *)
Definition c_bond : coeffs := [[1; 0]; [1 # 2; 1 # 2]]%Q.
Definition occ_bond : vector * vector := ([1; 2], [1; 2])%Q.

(** * Properties *)

(** ** The embedding on small inputs *)

Example contains_ibo : contains "ibo" "ibo2" = true ∧ contains "ibo" "pm" = false.
Proof. by split. Qed.

Example int_last_ibo2 : int_last "ibo2" = Ok 2 ∧ int_last "ibo" = Raise ValueError.
Proof. by split. Qed.

(** The last character, not the last byte, and a decimal digit of any
    script: an Arabic-Indic three, a fullwidth seven, a mathematical bold
    nine; a superscript two is no decimal digit, and the empty string has
    no last character. *)
Example int_last_any_script :
  int_last "ibo٣" = Ok 3 ∧ int_last "ibo７" = Ok 7 ∧ int_last "ibo𝟗" = Ok 9
  ∧ int_last "ibo²" = Raise ValueError ∧ int_last "" = Raise IndexError.
Proof. by vm_compute. Qed.

Example take_columns :
  take [[1]; [2]; [3]]%Q [2; 0] = Ok [[3]; [1]]%Q
  ∧ take [[1]; [2]; [3]]%Q [3] = Raise IndexError.
Proof. by split. Qed.

Example put_columns :
  put [[1]; [2]; [3]]%Q [2; 0] [[7]; [8]]%Q = Ok [[8]; [2]; [7]]%Q
  ∧ put [[1]; [2]; [3]]%Q [2; 0] [[7]]%Q = Raise ValueError.
Proof. by split. Qed.

Example argsort_descending :
  reverse (argsort [1 # 2; 1 # 2; 3 # 4; 1 # 4]%Q) = [2; 1; 0; 3].
Proof. reflexivity. Qed.

Example unique_rows :
  np_unique [(1, 1); (0, 1); (1, 1); (0, 0)] = [(0, 0); (0, 1); (1, 1)]
  ∧ where_rows [(1, 1); (0, 1); (1, 1); (0, 0)] (1, 1) = [0; 2].
Proof. by split. Qed.

(** The 'ibo2' variant on the closed-shell example: one run of the IBO
    localizer with exponent 2, on the alpha channel; the sign-flipped column
    is stored in both arrays. *)
Example loc_orbs_ibo2 :
  loc_orbs (flip_loc true) (flip_loc true) id_iao id_lowdin (flip_ibo true)
    mol_closed s_two "restricted" "ibo2" st_two
  = ({| mo_coeff := Separate [[- (24 # 25); - (7 # 25)]; [- 7 # 25; 24 # 25]]%Q
                                [[- (24 # 25); - (7 # 25)]; [- 7 # 25; 24 # 25]]%Q;
        ran := [RanIBO 0 2] |}, Ok tt).
Proof. reflexivity. Qed.

(** The worked example of the specification: with threshold 0.9 the
    weights (0.95, 0.05) give the single centre (0, 0) and the weights
    (0.5, 0.5) the pair (0, 1). *)
Example bonds_worked_example :
  (bonds mol_example "unrestricted" "bonds" kw_thres fr_example).2
  = Ok (Some ([[[0]; [1]]; [[0]; [1]]], [[(0, 0); (0, 1)]; [(0, 0); (0, 1)]])).
Proof. by vm_compute. Qed.

(** ** Reasoning about [St] computations *)

Lemma bind_Ok_inv {S A B} (m : St S A) (k : A → St S B) s s' b :
  bind m k s = (s', Ok b) →
  ∃ s1 a, m s = (s1, Ok a) ∧ k a s1 = (s', Ok b).
Proof.
  unfold bind. destruct (m s) as [s1 [a|e]]; intros H; [eauto | discriminate].
Qed.

Lemma bind_Ok_run {S A B} (m : St S A) (k : A → St S B) s s1 a :
  m s = (s1, Ok a) → bind m k s = k a s1.
Proof. unfold bind. by intros ->. Qed.

Lemma bind_Raise_run {S A B} (m : St S A) (k : A → St S B) s s1 e :
  m s = (s1, Raise e) → bind m k s = (s1, Raise e).
Proof. unfold bind. by intros ->. Qed.

Lemma lift_Ok_inv {S A} (r : result A) (s s' : S) a :
  lift r s = (s', Ok a) → s' = s ∧ r = Ok a.
Proof. unfold lift. by intros [= -> ->]. Qed.

Lemma rbind_Ok_inv {A B} (r : result A) (k : A → result B) b :
  rbind r k = Ok b → ∃ a, r = Ok a ∧ k a = Ok b.
Proof. destruct r; simpl; [eauto | discriminate]. Qed.

Section Sat.

Context {S : Type} (R : relation S) `{!Reflexive R, !Transitive R}.

Lemma sat_ret {A} (Q : A → Prop) a : Q a → sat R Q (ret a).
Proof. intros Ha s s' r [= <- <-]. split; [done | by intros ? [= <-]]. Qed.

Lemma sat_lift {A} (Q : A → Prop) (r : result A) :
  (∀ a, r = Ok a → Q a) → sat R Q (lift r).
Proof. intros Hr s s' r' [= <- <-]. by split. Qed.

Lemma sat_gets {A} (Q : A → Prop) (f : S → A) :
  (∀ s, Q (f s)) → sat R Q (gets f).
Proof. intros Hf s s' r [= <- <-]. split; [done | by intros ? [= <-]]. Qed.

Lemma sat_bind {A B} (P : A → Prop) (Q : B → Prop) (m : St S A) (k : A → St S B) :
  sat R P m → (∀ a, P a → sat R Q (k a)) → sat R Q (bind m k).
Proof.
  intros Hm Hk s s' r. unfold bind.
  destruct (m s) as [s1 [a|e]] eqn:E; destruct (Hm _ _ _ E) as [H1 H2].
  - intros Hka. destruct (Hk a (H2 a eq_refl) _ _ _ Hka) as [H3 H4].
    split; [by etrans | done].
  - intros [= <- <-]. split; [done | discriminate].
Qed.

Lemma sat_for_each {A} (body : A → St S bool) (xs : list A) :
  (∀ x, x ∈ xs → sat R (fun _ => True) (body x)) →
  sat R (fun _ => True) (for_each body xs).
Proof.
  induction xs as [|x xs IH]; intros Hb; simpl.
  - by apply sat_ret.
  - eapply sat_bind; [apply Hb; left |].
    intros [] _; [by apply sat_ret |].
    apply IH. intros y Hy. apply Hb. by right.
Qed.

End Sat.

(** Split a sequence [x <- m ;; k] into its two parts. *)
Ltac sat_seq := eapply sat_bind; [apply _ | | intros ? ?; cbv zeta].

(** ** Facts about the array primitives *)

Lemma rmap_Ok_Forall2 {A B} (f : A → result B) (xs : list A) (ys : list B) :
  rmap f xs = Ok ys ↔ Forall2 (fun x y => f x = Ok y) xs ys.
Proof.
  revert ys. induction xs as [|x xs IH]; intros ys; simpl.
  - split; [intros [= <-]; constructor | by inversion 1].
  - split.
    + intros H. apply rbind_Ok_inv in H as (y & Hy & H).
      apply rbind_Ok_inv in H as (ys' & Hys & [= <-]).
      constructor; [done | by apply IH].
    + inversion 1 as [|? y ? ys' Hy Hys]; subst.
      rewrite Hy. simpl. apply IH in Hys. by rewrite Hys.
Qed.

Lemma take_Ok {A} (a : list A) (idx : list nat) (l : list A) :
  take a idx = Ok l ↔ Forall2 (fun j x => a !! j = Some x) idx l.
Proof.
  unfold take. rewrite rmap_Ok_Forall2.
  split; intros H; eapply Forall2_impl; try apply H; simpl;
    intros j x; destruct (a !! j); simpl; naive_solver.
Qed.

Lemma store_cols_length a idx new :
  length (store_cols a idx new) = length a.
Proof.
  revert a new. induction idx as [|j idx IH]; intros a [|c new]; simpl; try done.
  rewrite IH. apply length_insert.
Qed.

(** A column after [store_cols] is the old one where [idx] does not name
    it, and otherwise a column of [new] stored under that name. *)
Lemma store_cols_lookup a idx new j :
  length new = length idx →
  Forall (fun i => i < length a) idx →
((j ∉ idx) ∧ store_cols a idx new !! j = a !! j)
  ∨ (∃ k c, idx !! k = Some j ∧ new !! k = Some c
            ∧ store_cols a idx new !! j = Some c).
Proof.
  revert a new. induction idx as [|j0 idx IH]; intros a [|c new] Hlen Hb;
    simpl in *; try discriminate.
  - left. split; [apply not_elem_of_nil | done].
  - apply Forall_cons in Hb as [Hj0 Hb].
    destruct (IH (<[j0:=c]> a) new) as [[Hn E]|(k & c' & Hk & Hc & E)].
    + lia.
    + by rewrite length_insert.
    + destruct (decide (j = j0)) as [->|Hne].
      * right. exists 0, c. split_and!; [done | done |].
        rewrite E. by apply list_lookup_insert_eq.
      * left. split; [by apply not_elem_of_cons |].
        rewrite E. by apply list_lookup_insert_ne.
    + right. by exists (S k), c'.
Qed.

Lemma put_Ok_inv a idx new a' :
  put a idx new = Ok a' →
  a' = store_cols a idx new ∧ length new = length idx
  ∧ Forall (fun i => i < length a) idx.
Proof.
  unfold put.
  destruct (forallb _ idx) eqn:Hb; [|discriminate].
  destruct (same_shape a idx new) eqn:Hs; [|discriminate].
  intros [= <-]. apply andb_true_iff in Hs as [Hl _].
  split_and!; [done | by apply Nat.eqb_eq |].
  apply Forall_forall. intros i Hi.
  rewrite forallb_forall in Hb. apply Nat.ltb_lt, Hb. by apply list_elem_of_In.
Qed.

Lemma cols_same_refl idx a : cols_same idx a a.
Proof. by split. Qed.

Lemma cols_same_trans idx a b c :
  cols_same idx a b → cols_same idx b c → cols_same idx a c.
Proof.
  intros [L1 H1] [L2 H2]. split; [congruence |].
  intros j Hj. by rewrite H2, H1.
Qed.

Lemma put_cols_same a idx new a' :
  put a idx new = Ok a' → cols_same idx a a'.
Proof.
  intros (-> & Hlen & Hb)%put_Ok_inv. split; [apply store_cols_length |].
  intros j Hj.
  destruct (store_cols_lookup a idx new j Hlen Hb) as [[_ E]|(k & c & Hk & _)];
    [done |].
  exfalso. apply Hj. apply list_elem_of_lookup. eauto.
Qed.

(** Writing back columns that were read under the same index array makes
    a later read under it return them. *)
Lemma put_take a0 a idx new a' :
  take a0 idx = Ok new → put a idx new = Ok a' → take a' idx = Ok new.
Proof.
  intros Ht (-> & Hlen & Hb)%put_Ok_inv.
  apply take_Ok in Ht. apply take_Ok.
  apply Forall2_same_length_lookup. split; [done |].
  intros k j c Hk Hc.
  destruct (store_cols_lookup a idx new j Hlen Hb) as [[Hn _]|(k' & c' & Hk' & Hc' & E)].
  - exfalso. apply Hn. apply list_elem_of_lookup. eauto.
  - rewrite E. f_equal.
    rewrite Forall2_lookup in Ht.
    pose proof (Ht k) as H1. rewrite Hk, Hc in H1. inversion H1 as [? ? E1|]; subst.
    pose proof (Ht k') as H2. rewrite Hk', Hc' in H2. inversion H2 as [? ? E2|]; subst.
    congruence.
Qed.

(** ** loc_orbs *)

Global Instance frame_rel_refl sh X Y : Reflexive (frame_rel sh X Y).
Proof. intros st Hsh. split_and!; [done | apply cols_same_refl ..]. Qed.

Global Instance frame_rel_trans sh X Y : Transitive (frame_rel sh X Y).
Proof.
  intros a b c H1 H2 Hsh.
  destruct (H1 Hsh) as (Hb & H10 & H11). destruct (H2 Hb) as (Hc & H20 & H21).
  split_and!; [done | by eapply cols_same_trans ..].
Qed.

Lemma sat_read_cols sh X Y i idx :
  sat (frame_rel sh X Y) (fun _ => True) (read_cols i idx).
Proof. intros s s' r [= <- <-]. by split. Qed.

Lemma sat_run sh X Y c out :
  sat (frame_rel sh X Y) (fun _ => True) (run c out).
Proof.
  intros s s' r [= <- <-]. split; [|done]. intros Hsh. simpl.
  split_and!; [done | apply cols_same_refl ..].
Qed.

Lemma view_Ok t i a : view t i = Ok a → i < 2 ∧ a = arr t i.
Proof.
  unfold view. destruct (i <? 2) eqn:E; [|discriminate].
  apply Nat.ltb_lt in E. by intros [= <-].
Qed.

Lemma sat_write_cols sh X Y i idx new :
  writes_ok sh X Y i idx →
  sat (frame_rel sh X Y) (fun _ => True) (write_cols i idx new).
Proof.
  intros Hw s s' r. unfold write_cols.
  destruct (rbind _ _) as [a'|e] eqn:E; intros [= <- <-]; (split; [|done]);
    [|reflexivity].
  apply rbind_Ok_inv in E as (a & [Hi ->]%view_Ok & Hput).
  apply put_cols_same in Hput. intros Hsh. simpl.
  unfold writes_ok in Hw. destruct (mo_coeff s) as [a0 b0|a0]; simpl in *; subst sh.
  - destruct i as [|[|i]]; [| | lia]; simpl in *; subst;
      split_and!; first [done | apply cols_same_refl].
  - destruct Hw as [-> ->]. destruct i as [|i]; simpl; by split_and!.
Qed.

Section LocalizerFacts.

Variable lo_Boys : Mole → coeffs → Q → loc_result.
Variable lo_PM : Mole → coeffs → Q → loc_result.
Variable lo_iao : Mole → coeffs → coeffs.
Variable lo_vec_lowdin : coeffs → matrix → coeffs.
Variable lo_ibo : Mole → coeffs → coeffs → Q → nat → loc_result.

Local Abbreviation localize := (localize lo_Boys lo_PM lo_iao lo_vec_lowdin lo_ibo).
Local Abbreviation loc_spin := (loc_spin lo_Boys lo_PM lo_iao lo_vec_lowdin lo_ibo).
Local Abbreviation loc_orbs := (loc_orbs lo_Boys lo_PM lo_iao lo_vec_lowdin lo_ibo).

Lemma writes_ok_same sh X i : writes_ok sh X X i X.
Proof. unfold writes_ok. destruct sh; [done |]. by destruct i as [|[|i]]. Qed.

Lemma sat_localize sh X Y mol s variant i idx :
  writes_ok sh X Y i idx →
  sat (frame_rel sh X Y) (fun _ => True) (localize mol s variant i idx).
Proof.
  intros Hw. unfold localize.
  repeat case_match;
    repeat first
      [ apply sat_read_cols | apply sat_run | by apply sat_write_cols
      | by apply sat_ret | by apply (sat_lift _ (fun _ => True))
      | sat_seq ].
Qed.

Lemma sat_loc_spin_open sh X Y mol s ref variant i idx :
  closed_shell ref mol = false →
  writes_ok sh X Y i idx →
  sat (frame_rel sh X Y) (fun _ => True) (loc_spin mol s ref variant (i, idx)).
Proof.
  intros Hc Hw. unfold loc_spin. rewrite Hc.
  sat_seq; [by apply sat_localize | by apply sat_ret].
Qed.

Lemma sat_loc_spin_closed sh X mol s ref variant :
  closed_shell ref mol = true →
  sat (frame_rel sh X X) (fun brk => brk = true)
    (loc_spin mol s ref variant (0, X)).
Proof.
  intros Hc. unfold loc_spin. rewrite Hc.
  sat_seq; [apply sat_localize, writes_ok_same |].
  sat_seq; [apply sat_read_cols |].
  sat_seq; [apply sat_write_cols, writes_ok_same |].
  by apply sat_ret.
Qed.

(** Whatever [loc_orbs] does, and whether it returns or raises, the array
    in the first place keeps its columns outside [mol.alpha] and the array
    in the second place outside [mol.beta] (outside [mol.alpha] under the
    closed-shell reduction).  One array object in both places is written by
    the passes of both channels, which must then occupy the same orbitals. *)
Lemma loc_orbs_frame_rel sh mol s ref variant :
  (sh = true → beta mol = alpha mol) →
  sat (frame_rel sh (alpha mol)
         (if closed_shell ref mol then alpha mol else beta mol))
      (fun _ => True) (loc_orbs mol s ref variant).
Proof.
  intros Hsh. unfold loc_orbs. destruct (closed_shell ref mol) eqn:Hc.
  - simpl. eapply sat_bind; [apply _ | by apply sat_loc_spin_closed |].
    intros brk ->. by apply sat_ret.
  - apply sat_for_each; [apply _ ..|]. intros [i idx] Hx.
    apply sat_loc_spin_open; [done |].
    apply elem_of_cons in Hx as [[= -> ->]|Hx].
    { unfold writes_ok. destruct sh; [by rewrite Hsh | done]. }
    apply elem_of_cons in Hx as [[= -> ->]|Hx].
    { unfold writes_ok. destruct sh; [by rewrite Hsh | done]. }
    by apply elem_of_nil in Hx.
Qed.

Lemma localize_unknown mol s variant i idx st :
  recognised variant = false →
  localize mol s variant i idx st = (st, Ok tt).
Proof.
  unfold recognised, localize. intros H.
  apply orb_false_iff in H as [H H3]. apply orb_false_iff in H as [H1 H2].
  by rewrite H1, H2, H3.
Qed.

End LocalizerFacts.

Lemma raises_only_bind {S A B} (E : exn → Prop) (m : St S A) (k : A → St S B) :
  raises_only E m → (∀ a, raises_only E (k a)) → raises_only E (bind m k).
Proof.
  intros Hm Hk s s' e. unfold bind.
  destruct (m s) as [s1 [a|e1]] eqn:Em.
  - apply Hk.
  - intros [= <- <-]. by eapply Hm.
Qed.

Lemma raises_only_ret {S A} (E : exn → Prop) (a : A) : raises_only E (@ret S A a).
Proof. intros s s' e. discriminate. Qed.

Lemma raises_only_modify {S} (E : exn → Prop) (f : S → S) : raises_only E (modify f).
Proof. intros s s' e. discriminate. Qed.

Lemma raises_only_gets {S A} (E : exn → Prop) (f : S → A) : raises_only E (gets f).
Proof. intros s s' e. discriminate. Qed.

Lemma raises_only_raise {S A} (E : exn → Prop) e : E e → raises_only E (@raise S A e).
Proof. intros He s s' e' [= <- <-]. done. Qed.

Lemma raises_only_lift {S A} (E : exn → Prop) (r : result A) :
  (∀ e, r = Raise e → E e) → raises_only E (@lift S A r).
Proof. intros Hr s s' e [= <- ->]. by apply Hr. Qed.

Lemma raises_only_for_each {S A} (E : exn → Prop) (body : A → St S bool) xs :
  (∀ x, raises_only E (body x)) → raises_only E (for_each body xs).
Proof.
  intros Hb. induction xs as [|x xs IH]; simpl.
  - apply raises_only_ret.
  - apply raises_only_bind; [done |]. intros []; [apply raises_only_ret | done].
Qed.

Lemma raises_only_smap {S A B} (E : exn → Prop) (f : A → St S B) xs :
  (∀ x, raises_only E (f x)) → raises_only E (smap f xs).
Proof.
  intros Hf. induction xs as [|x xs IH]; simpl.
  - apply raises_only_ret.
  - apply raises_only_bind; [done |]. intros y.
    apply raises_only_bind; [done |]. intros ys. apply raises_only_ret.
Qed.

(** *** The exceptions of the array primitives *)

Lemma of_option_builtin {A} e (o : option A) e' :
  builtin e → of_option e o = Raise e' → builtin e'.
Proof. destruct o; simpl; [discriminate | by intros ? [= <-]]. Qed.

Lemma rbind_Raise_inv {A B} (r : result A) (k : A → result B) e :
  rbind r k = Raise e → r = Raise e ∨ ∃ a, r = Ok a ∧ k a = Raise e.
Proof. destruct r; simpl; intros H; [right; eauto | left; by simplify_eq]. Qed.

Lemma rmap_builtin {A B} (f : A → result B) xs e :
  (∀ x e, f x = Raise e → builtin e) → rmap f xs = Raise e → builtin e.
Proof.
  intros Hf. induction xs as [|x xs IH]; simpl; [discriminate |].
  intros [H|(y & _ & [H|(ys & _ & H)]%rbind_Raise_inv)]%rbind_Raise_inv.
  - by eapply Hf.
  - by apply IH.
  - discriminate.
Qed.

Lemma sel2_builtin {A} (t : A * A) i e : sel2 t i = Raise e → builtin e.
Proof. destruct i as [|[|i]]; simpl; [discriminate.. | by intros [= <-]]. Qed.

Lemma take_builtin {A} (a : list A) idx e : take a idx = Raise e → builtin e.
Proof.
  apply rmap_builtin. intros j e'. by apply of_option_builtin.
Qed.

Lemma put_builtin a idx new e : put a idx new = Raise e → builtin e.
Proof. unfold put. repeat case_match; intros [= <-]; done. Qed.

Lemma sel2_take_builtin {A} (t : list A * list A) i idx e :
  (a <- sel2 t i ;; take a idx)%res = Raise e → builtin e.
Proof.
  intros [H|(a & _ & H)]%rbind_Raise_inv;
    [by eapply sel2_builtin | by eapply take_builtin].
Qed.

Lemma int_last_builtin s e : int_last s = Raise e → builtin e.
Proof.
  unfold int_last. destruct s; [by intros [= <-] |].
  by apply of_option_builtin.
Qed.

Lemma view_builtin t i e : view t i = Raise e → builtin e.
Proof. unfold view. case_match; [discriminate | by intros [= <-]]. Qed.

Lemma raises_only_read_cols i idx : raises_only builtin (read_cols i idx).
Proof.
  intros s s' e [= <- H].
  apply rbind_Raise_inv in H as [H|(a & _ & H)];
    [by eapply view_builtin | by eapply take_builtin].
Qed.

Lemma raises_only_write_cols i idx new : raises_only builtin (write_cols i idx new).
Proof.
  intros s s' e. unfold write_cols.
  destruct (rbind _ _) eqn:E; [discriminate |]. intros [= <- <-].
  apply rbind_Raise_inv in E as [H|(a & _ & H)];
    [by eapply view_builtin | by eapply put_builtin].
Qed.

Lemma raises_only_run c out : raises_only builtin (run c out).
Proof. intros s s' e. discriminate. Qed.

(** Discharge [raises_only builtin] along the structure of a computation. *)
Ltac raises_tac :=
  repeat first
    [ apply raises_only_ret | apply raises_only_modify | apply raises_only_gets
    | apply raises_only_read_cols | apply raises_only_write_cols
    | apply raises_only_run
    | apply raises_only_lift; intros ?; first
        [ apply int_last_builtin | apply sel2_take_builtin ]
    | apply raises_only_bind; [| intros ?; cbv zeta] ].

Section LocalizerRaises.

Variable lo_Boys : Mole → coeffs → Q → loc_result.
Variable lo_PM : Mole → coeffs → Q → loc_result.
Variable lo_iao : Mole → coeffs → coeffs.
Variable lo_vec_lowdin : coeffs → matrix → coeffs.
Variable lo_ibo : Mole → coeffs → coeffs → Q → nat → loc_result.

Lemma loc_orbs_raises_builtin mol s ref variant :
  raises_only builtin
    (loc_orbs lo_Boys lo_PM lo_iao lo_vec_lowdin lo_ibo mol s ref variant).
Proof.
  apply raises_only_for_each. intros [i idx]. unfold loc_spin, localize.
  repeat case_match; raises_tac.
Qed.

(** The convergence flag of a localizer does not reach [loc_orbs]. *)
Lemma localize_reporting b mol s variant i idx st :
  localize (fun m c => reporting b (lo_Boys m c))
           (fun m c => reporting b (lo_PM m c)) lo_iao lo_vec_lowdin
           (fun m c a t => reporting b (lo_ibo m c a t)) mol s variant i idx st
  = localize lo_Boys lo_PM lo_iao lo_vec_lowdin lo_ibo mol s variant i idx st.
Proof.
  unfold localize, bind, run, lift. repeat case_match; simplify_eq; done.
Qed.

End LocalizerRaises.

Lemma read_cols_inv i idx st st' r :
  read_cols i idx st = (st', r) →
  st' = st ∧ r = (a <- view (mo_coeff st) i ;; take a idx)%res.
Proof. by intros [= <- <-]. Qed.

Lemma write_cols_Ok_inv i idx new st st' u :
  write_cols i idx new st = (st', Ok u) →
  ran st' = ran st
  ∧ ∃ a a', view (mo_coeff st) i = Ok a ∧ put a idx new = Ok a'
            ∧ mo_coeff st' = overwrite (mo_coeff st) i a'.
Proof.
  unfold write_cols. destruct (rbind _ _) as [a'|e] eqn:E; [|discriminate].
  intros [= <-]. split; [done |].
  apply rbind_Ok_inv in E as (a & Ha & Hp). by exists a, a'.
Qed.

Lemma run_inv c out st st' r :
  run c out st = (st', r) →
  r = Ok out ∧ mo_coeff st' = mo_coeff st ∧ ran st' = ran st ++ [c].
Proof. by intros [= <- <-]. Qed.

Section LocalizerRuns.

Variable lo_Boys : Mole → coeffs → Q → loc_result.
Variable lo_PM : Mole → coeffs → Q → loc_result.
Variable lo_iao : Mole → coeffs → coeffs.
Variable lo_vec_lowdin : coeffs → matrix → coeffs.
Variable lo_ibo : Mole → coeffs → coeffs → Q → nat → loc_result.

(** A run of lines 31-49 that returns has run one localizer, on its own
    channel, if the variant is recognised, and none otherwise. *)
Lemma localize_ran mol s variant i idx st st' u :
  localize lo_Boys lo_PM lo_iao lo_vec_lowdin lo_ibo mol s variant i idx st
    = (st', Ok u) →
  ∃ calls, ran st' = ran st ++ calls
    ∧ length calls = (if recognised variant then 1 else 0)
    ∧ Forall (fun c => chan_of c = i) calls.
Proof.
  unfold localize, recognised.
  destruct (variant =? "fb")%string; [|destruct (variant =? "pm")%string;
    [|destruct (contains "ibo" variant)]]; simpl; intros H.
  - apply bind_Ok_inv in H as (s1 & occ & [-> _]%read_cols_inv & H).
    apply bind_Ok_inv in H as (s2 & out & (_ & _ & Hr)%run_inv & H).
    apply write_cols_Ok_inv in H as [Hran _].
    exists [RanBoys i]. rewrite Hran, Hr. by repeat constructor.
  - apply bind_Ok_inv in H as (s1 & occ & [-> _]%read_cols_inv & H).
    apply bind_Ok_inv in H as (s2 & out & (_ & _ & Hr)%run_inv & H).
    apply write_cols_Ok_inv in H as [Hran _].
    exists [RanPM i]. rewrite Hran, Hr. by repeat constructor.
  - apply bind_Ok_inv in H as (s1 & occ & [-> _]%read_cols_inv & H).
    apply bind_Ok_inv in H as (s1' & occ' & [-> _]%read_cols_inv & H).
    apply bind_Ok_inv in H as (s1'' & p & [-> _]%lift_Ok_inv & H).
    apply bind_Ok_inv in H as (s2 & out & (_ & _ & Hr)%run_inv & H).
    apply write_cols_Ok_inv in H as [Hran _].
    exists [RanIBO i p]. rewrite Hran, Hr. by repeat constructor.
  - injection H as <- _. exists []. by rewrite app_nil_r.
Qed.

(** Under the closed-shell reduction a run of [loc_orbs] that returns has
    made one pass, for alpha, and leaves the array in the second place with
    the columns of the array in the first place under [mol.alpha]. *)
Lemma loc_orbs_closed mol s ref variant st st' u :
  closed_shell ref mol = true →
  loc_orbs lo_Boys lo_PM lo_iao lo_vec_lowdin lo_ibo mol s ref variant st
    = (st', Ok u) →
  ∃ cols calls,
    take (arr (mo_coeff st') 0) (alpha mol) = Ok cols
    ∧ take (arr (mo_coeff st') 1) (alpha mol) = Ok cols
    ∧ ran st' = ran st ++ calls
    ∧ length calls = (if recognised variant then 1 else 0)
    ∧ Forall (fun c => chan_of c = 0) calls.
Proof.
  intros Hc. unfold loc_orbs. simpl. unfold loc_spin. rewrite Hc. intros H.
  apply bind_Ok_inv in H as (s3 & brk & H & Hk).
  apply bind_Ok_inv in H as (s1 & [] & Hloc & H).
  apply bind_Ok_inv in H as (s1' & cols & [-> Hcols]%read_cols_inv & H).
  apply bind_Ok_inv in H as (s2 & [] & Hw & [= <- <-]).
  injection Hk as <- _.
  apply write_cols_Ok_inv in Hw as (Hran & a & a' & Ha & Hput & Hmo).
  apply view_Ok in Ha as [_ ->].
  symmetry in Hcols. apply rbind_Ok_inv in Hcols as (a0 & [_ ->]%view_Ok & Hcols).
  apply localize_ran in Hloc as (calls & Hcalls & Hlen & Hch).
  exists cols, calls. rewrite Hmo, Hran.
  pose proof (put_take _ _ _ _ _ Hcols Hput) as Htake.
  destruct (mo_coeff s1) as [x y|x]; simpl in *; by split_and!.
Qed.

End LocalizerRuns.

(** *** The claims about loc_orbs *)

(** C9, as the claim states it, fails: not for every input are the
    columns outside a channel's occupied indices left as they were.  In an
    unrestricted call on the open-shell example that passes one array
    object in both places, the pass of alpha writes column 1 of that
    array; column 1 is not in [mol.beta], it is a virtual column of beta,
    and it is not what it was after the call. *)
Lemma loc_orbs_changes_a_virtual_column_of_a_shared_array :
  ¬ (∀ j, j ∉ beta mol_open →
       arr (mo_coeff (loc_orbs (flip_loc true) (flip_loc true) id_iao id_lowdin
                        (flip_ibo true) mol_open s_two "unrestricted" "fb"
                        st_shared).1) 1 !! j
       = arr (mo_coeff st_shared) 1 !! j).
Proof.
  intros H. specialize (H 1).
  assert (1 ∉ beta mol_open) as Hj.
  { intros Hin. apply elem_of_cons in Hin as [Hin|Hin]; [discriminate |].
    by apply elem_of_nil in Hin. }
  specialize (H Hj). vm_compute in H. discriminate.
Qed.

(** C9, amended: [loc_orbs] changes a coefficient array only in the
    columns of the occupied orbitals of its spin channel, provided that a
    call under the closed-shell reduction, and a call that passes one
    array object for both channels, occupies the same orbitals in alpha
    and in beta.  Then, whether the call returns or raises, both arrays
    keep their number of columns, the array of alpha keeps every column
    outside [mol.alpha] and the array of beta every column outside
    [mol.beta]; the store holds nothing else (the log of localizer runs is
    an observation, not a Python object). *)
Theorem loc_orbs_changes_occupied_columns_only
    (lo_Boys lo_PM : Mole → coeffs → Q → loc_result)
    (lo_iao : Mole → coeffs → coeffs) (lo_vec_lowdin : coeffs → matrix → coeffs)
    (lo_ibo : Mole → coeffs → coeffs → Q → nat → loc_result)
    (mol : Mole) (s : matrix) (ref variant : string) (st st' : lstate)
    (r : result unit) :
  (closed_shell ref mol = true → beta mol = alpha mol) →
  (shared (mo_coeff st) = true → beta mol = alpha mol) →
  loc_orbs lo_Boys lo_PM lo_iao lo_vec_lowdin lo_ibo mol s ref variant st = (st', r) →
  shared (mo_coeff st') = shared (mo_coeff st)
  ∧ (length (arr (mo_coeff st') 0) = length (arr (mo_coeff st) 0)
     ∧ ∀ j, j ∉ alpha mol →
         arr (mo_coeff st') 0 !! j = arr (mo_coeff st) 0 !! j)
  ∧ (length (arr (mo_coeff st') 1) = length (arr (mo_coeff st) 1)
     ∧ ∀ j, j ∉ beta mol →
         arr (mo_coeff st') 1 !! j = arr (mo_coeff st) 1 !! j).
Proof.
  intros Hwf Hsh Hrun.
  destruct (loc_orbs_frame_rel lo_Boys lo_PM lo_iao lo_vec_lowdin lo_ibo
              (shared (mo_coeff st)) mol s ref variant Hsh st st' r Hrun)
    as [Hrel _].
  destruct (Hrel eq_refl) as (Hs & Ha & Hb).
  split; [done |]. split; [exact Ha |].
  destruct (closed_shell ref mol); [by rewrite Hwf | exact Hb].
Qed.

Lemma loc_orbs_changes_occupied_columns_only_witness :
  let st' := (loc_orbs (flip_loc true) (flip_loc true) id_iao id_lowdin
                (flip_ibo true) mol_closed s_two "restricted" "fb" st_shared).1 in
  shared (mo_coeff st') = shared (mo_coeff st_shared)
  ∧ (length (arr (mo_coeff st') 0) = length (arr (mo_coeff st_shared) 0)
     ∧ ∀ j, j ∉ alpha mol_closed →
         arr (mo_coeff st') 0 !! j = arr (mo_coeff st_shared) 0 !! j)
  ∧ (length (arr (mo_coeff st') 1) = length (arr (mo_coeff st_shared) 1)
     ∧ ∀ j, j ∉ beta mol_closed →
         arr (mo_coeff st') 1 !! j = arr (mo_coeff st_shared) 1 !! j).
Proof.
  intros st'.
  apply (loc_orbs_changes_occupied_columns_only (flip_loc true) (flip_loc true)
           id_iao id_lowdin (flip_ibo true) mol_closed s_two "restricted" "fb"
           st_shared st' (Ok tt)).
  - intros _. reflexivity.
  - intros _. reflexivity.
  - vm_compute. reflexivity.
Defined.

(** Column 1 of the one array of the unrestricted call on the open-shell
    example, before the call and after it. *)
Example one_array_for_two_occupations :
  arr (mo_coeff st_shared) 1 !! 1 = Some [- 7 # 25; 24 # 25]%Q
  ∧ arr (mo_coeff (loc_orbs (flip_loc true) (flip_loc true) id_iao id_lowdin
                     (flip_ibo true) mol_open s_two "unrestricted" "fb"
                     st_shared).1) 1 !! 1 = Some [7 # 25; - (24 # 25)]%Q.
Proof. by split. Qed.

(** C10: a variant that is not 'fb', not 'pm' and does not contain 'ibo'
    is accepted silently when the closed-shell reduction does not apply:
    [loc_orbs] returns, raises nothing, runs no localizer and leaves the
    store as it was. *)
Theorem loc_orbs_unrecognised_variant_is_noop
    (lo_Boys lo_PM : Mole → coeffs → Q → loc_result)
    (lo_iao : Mole → coeffs → coeffs) (lo_vec_lowdin : coeffs → matrix → coeffs)
    (lo_ibo : Mole → coeffs → coeffs → Q → nat → loc_result)
    (mol : Mole) (s : matrix) (ref variant : string) (st : lstate) :
  variant ≠ "fb" → variant ≠ "pm" → contains "ibo" variant = false →
  ref ≠ "restricted" ∨ spin mol ≠ 0%Z →
  loc_orbs lo_Boys lo_PM lo_iao lo_vec_lowdin lo_ibo mol s ref variant st
  = (st, Ok tt).
Proof.
  intros Hfb Hpm Hibo Hopen.
  assert (recognised variant = false) as Hrec.
  { unfold recognised. apply String.eqb_neq in Hfb, Hpm. by rewrite Hfb, Hpm, Hibo. }
  assert (closed_shell ref mol = false) as Hc.
  { unfold closed_shell. apply andb_false_iff.
    destruct Hopen as [H|H]; [left; by apply String.eqb_neq | right; by apply Z.eqb_neq]. }
  unfold loc_orbs. simpl. unfold loc_spin. rewrite Hc. unfold bind, ret.
  rewrite localize_unknown by done. rewrite localize_unknown by done. done.
Qed.

Lemma loc_orbs_unrecognised_variant_is_noop_witness :
  loc_orbs (flip_loc true) (flip_loc true) id_iao id_lowdin (flip_ibo true)
    mol_open s_two "unrestricted" "boys" st_two
  = (st_two, Ok tt).
Proof.
  apply (loc_orbs_unrecognised_variant_is_noop (flip_loc true) (flip_loc true)
           id_iao id_lowdin (flip_ibo true) mol_open s_two "unrestricted" "boys"
           st_two).
  - discriminate.
  - discriminate.
  - reflexivity.
  - left. discriminate.
Defined.

(** C8, as the claim states it, fails: a localizer that did not converge
    makes [loc_orbs] store its orbitals and return; here its stand-in
    reports non-convergence and the call returns without an exception. *)
Lemma loc_orbs_returns_unconverged_orbitals :
  ¬ (loc_converged (flip_loc false mol_closed [[24 # 25; 7 # 25]]%Q LOC_CONV) = false →
     (loc_orbs (flip_loc false) (flip_loc false) id_iao id_lowdin (flip_ibo false)
        mol_closed s_two "restricted" "fb" st_two).2 = Raise LocalizationFailure).
Proof. intros H. specialize (H eq_refl). vm_compute in H. discriminate. Qed.

(** C8, amended: [loc_orbs] makes no convergence test.  What the localizers
    report about convergence does not change what [loc_orbs] does, and no
    run of [loc_orbs] ends in [LocalizationFailure]: the exceptions it
    raises itself are [IndexError] and [ValueError]. *)
Theorem loc_orbs_ignores_convergence
    (lo_Boys lo_PM : Mole → coeffs → Q → loc_result)
    (lo_iao : Mole → coeffs → coeffs) (lo_vec_lowdin : coeffs → matrix → coeffs)
    (lo_ibo : Mole → coeffs → coeffs → Q → nat → loc_result)
    (b : bool) (mol : Mole) (s : matrix) (ref variant : string) (st : lstate) :
  loc_orbs (fun m c => reporting b (lo_Boys m c))
           (fun m c => reporting b (lo_PM m c)) lo_iao lo_vec_lowdin
           (fun m c a t => reporting b (lo_ibo m c a t)) mol s ref variant st
  = loc_orbs lo_Boys lo_PM lo_iao lo_vec_lowdin lo_ibo mol s ref variant st
  ∧ (loc_orbs lo_Boys lo_PM lo_iao lo_vec_lowdin lo_ibo mol s ref variant st).2
    ≠ Raise LocalizationFailure.
Proof.
  split.
  - unfold loc_orbs. simpl. unfold loc_spin, bind.
    rewrite !localize_reporting.
    repeat (case_match; simplify_eq; try done);
      rewrite ?localize_reporting in *; simplify_eq; done.
  - destruct (loc_orbs _ _ _ _ _ mol s ref variant st) as [st' [u|e]] eqn:E;
      simpl; [discriminate |].
    apply loc_orbs_raises_builtin in E. intros [= ->]. exact E.
Qed.

(** ** Population conservation *)

Lemma sumn_ext n f g :
  (∀ i, i < n → (f i == g i)%Q) → (sumn n f == sumn n g)%Q.
Proof.
  revert f g. induction n as [|n IH]; intros f g H; simpl; [reflexivity |].
  rewrite (H 0) by lia. rewrite (IH (fun i => f (S i)) (fun i => g (S i))).
  - reflexivity.
  - intros i Hi. apply H. lia.
Qed.

Lemma sumn_plus n f g :
  (sumn n (fun i => f i + g i) == sumn n f + sumn n g)%Q.
Proof.
  revert f g. induction n as [|n IH]; intros f g; simpl; [ring |].
  rewrite IH. ring.
Qed.

Lemma sumn_scale n c f :
  (sumn n (fun i => c * f i) == c * sumn n f)%Q.
Proof.
  revert f. induction n as [|n IH]; intros f; simpl; [ring |].
  rewrite IH. ring.
Qed.

Lemma sumn_swap n m (f : nat → nat → Q) :
  (sumn n (fun i => sumn m (fun j => f i j))
   == sumn m (fun j => sumn n (fun i => f i j)))%Q.
Proof.
  revert f. induction n as [|n IH]; intros f; simpl.
  - induction m as [|m IHm]; simpl; [reflexivity |]. rewrite <- IHm. ring.
  - rewrite sumn_plus. rewrite IH. reflexivity.
Qed.

Lemma Qsum_sumn (l : vector) : (Qsum l == sumn (length l) (wt l))%Q.
Proof.
  induction l as [|x l IH]; simpl; [reflexivity |].
  rewrite IH. reflexivity.
Qed.

Lemma wt_lookup (l : vector) i x : l !! i = Some x → wt l i = x.
Proof. unfold wt. by intros ->. Qed.

Lemma dot_sumn (u v : vector) :
  length u = length v →
  (dot u v == sumn (length u) (fun j => wt u j * wt v j))%Q.
Proof.
  unfold dot. revert v. induction u as [|x u IH]; intros [|y v] Hl;
    simpl in *; try discriminate; [reflexivity |].
  injection Hl as Hl. rewrite (IH v Hl). reflexivity.
Qed.

Lemma Qsum_zeros n : (Qsum (zeros n) == 0)%Q.
Proof. induction n as [|n IH]; simpl; [reflexivity |]. rewrite IH. ring. Qed.

Lemma Qsum_insert_add (l : vector) a old x :
  l !! a = Some old → (Qsum (<[a := (old + x)%Q]> l) == Qsum l + x)%Q.
Proof.
  revert a. induction l as [|y l IH]; intros [|a] H; simpl in *; try discriminate.
  - injection H as ->. ring.
  - rewrite (IH a H). ring.
Qed.

(** The loop over AOs adds every [pop[i]] it visits to some atom. *)
Lemma accumulate_sum pop labels i pops :
  Forall (fun k => k.1 < length pops) labels →
  i + length labels ≤ length pop →
  ∃ w, accumulate pop i labels pops = Ok w ∧ length w = length pops
       ∧ (Qsum w == Qsum pops + sumn (length labels) (fun t => wt pop (i + t)))%Q.
Proof.
  revert i pops. induction labels as [|k labels IH]; intros i pops Hk Hi; simpl.
  - exists pops. split_and!; [done.. | ring].
  - apply Forall_cons in Hk as [Hk Hks]. simpl in Hi.
    destruct (lookup_lt_is_Some_2 pops k.1 Hk) as [old Hold].
    destruct (lookup_lt_is_Some_2 pop i ltac:(lia)) as [x Hx].
    rewrite Hold, Hx. simpl.
    destruct (IH (S i) (<[k.1 := (old + x)%Q]> pops)) as (w & Hw & Hlen & Hsum).
    + rewrite length_insert. done.
    + lia.
    + exists w. rewrite length_insert in Hlen. split_and!; [done.. |].
      rewrite Hsum, (Qsum_insert_add _ _ _ _ Hold).
      rewrite Nat.add_0_r, (wt_lookup _ _ _ Hx).
      rewrite (sumn_ext _ (fun t => wt pop (S i + t)) (fun t => wt pop (i + S t))).
      * ring.
      * intros t _. by rewrite Nat.add_succ_r.
Qed.

Lemma wt_column (S : matrix) i j :
  j < length S → wt (column S i) j = entry S j i.
Proof.
  intros Hj. unfold wt at 1, column, entry.
  rewrite list_lookup_fmap.
  destruct (lookup_lt_is_Some_2 S j Hj) as [row ->]. done.
Qed.

Lemma wt_make_rdm1_row (c : vector) occ i j ci :
  c !! i = Some ci → j < length c →
  wt (default [] (make_rdm1 c occ !! i)) j = (occ * (ci * wt c j))%Q.
Proof.
  intros Hi Hj. unfold make_rdm1. rewrite list_lookup_fmap, Hi. simpl.
  unfold wt at 1. rewrite list_lookup_fmap.
  destruct (lookup_lt_is_Some_2 c j Hj) as [cj Hcj].
  rewrite Hcj. simpl. by rewrite (wt_lookup _ _ _ Hcj).
Qed.

Lemma wt_matvec (S : matrix) (c : vector) a :
  length S = length c → Forall (fun row => length row = length c) S →
  a < length c →
  (wt (matvec S c) a == sumn (length c) (fun b => entry S a b * wt c b))%Q.
Proof.
  intros HS Hrows Ha. unfold wt at 1, matvec. rewrite list_lookup_fmap.
  destruct (lookup_lt_is_Some_2 S a ltac:(lia)) as [row Hrow].
  rewrite Hrow. simpl.
  assert (length row = length c) as Hlen.
  { rewrite Forall_forall in Hrows. apply Hrows. eapply list_elem_of_lookup_2, Hrow. }
  rewrite dot_sumn by done. rewrite Hlen.
  apply sumn_ext. intros b Hb. unfold entry. rewrite Hrow. reflexivity.
Qed.

(** The diagonal of [rdm1 . S] sums to the occupation times [c^T S c]. *)
Lemma contract_rdm1_sum (S : matrix) (c : vector) occ :
  length S = length c → Forall (fun row => length row = length c) S →
  ∃ pop, contract_ij_ji_i (make_rdm1 c occ) S = Ok pop
         ∧ length pop = length c
         ∧ (Qsum pop == occ * quad S c)%Q.
Proof.
  intros HS Hrows. unfold contract_ij_ji_i.
  assert (length (make_rdm1 c occ) = length c) as Hn
    by (unfold make_rdm1; by rewrite length_fmap).
  assert (forallb (fun row => length row =? length S) (make_rdm1 c occ) = true) as ->.
  { apply forallb_forall. intros row Hin. apply Nat.eqb_eq.
    unfold make_rdm1 in Hin. apply in_map_iff in Hin as (ci & <- & _).
    by rewrite length_fmap. }
  assert (forallb (fun row => length row =? length (make_rdm1 c occ)) S = true) as ->.
  { apply forallb_forall. intros row Hin. apply Nat.eqb_eq. rewrite Hn.
    rewrite Forall_forall in Hrows. apply Hrows. by apply list_elem_of_In. }
  simpl. eexists. split; [reflexivity |].
  split; [by rewrite length_imap |].
  rewrite Qsum_sumn, length_imap, Hn.
  rewrite (sumn_ext _ _
    (fun i => sumn (length c) (fun j => occ * (wt c i * wt c j) * entry S j i)%Q)).
  2:{ intros i Hi. unfold wt at 1. rewrite list_lookup_imap.
      destruct (lookup_lt_is_Some_2 c i Hi) as [ci Hci].
      destruct (lookup_lt_is_Some_2 (make_rdm1 c occ) i ltac:(lia)) as [row Hrow].
      rewrite Hrow. simpl.
      assert (length row = length c) as Hlr.
      { unfold make_rdm1 in Hrow. rewrite list_lookup_fmap, Hci in Hrow.
        injection Hrow as <-. by rewrite length_fmap. }
      rewrite dot_sumn by (unfold column; rewrite length_fmap; lia).
      rewrite Hlr. apply sumn_ext. intros j Hj.
      rewrite wt_column by lia.
      pose proof (wt_make_rdm1_row c occ i j ci Hci Hj) as Hw.
      rewrite Hrow in Hw. simpl in Hw. rewrite Hw.
      by rewrite (wt_lookup _ _ _ Hci). }
  rewrite sumn_swap. unfold quad.
  rewrite dot_sumn by (unfold matvec; rewrite length_fmap; lia).
  rewrite <- sumn_scale. apply sumn_ext. intros a Ha.
  rewrite wt_matvec by done. rewrite <- !sumn_scale.
  apply sumn_ext. intros b Hb. ring.
Qed.

(** C2: under the mulliken scheme the weights of a normalized orbital sum
    to its occupation.  For the orbital [c = mo[:, j]] with occupation
    [occ = mocc[j]], a coefficient column as long as the AO labels, a
    square overlap of that size, AO labels that name atoms of the molecule
    and [c^T S c = 1]: [_population] and [get_weights] return a vector [w]
    over the atoms with [sum w = sum_k (rdm1 . S)[k,k] = occ]. *)
Theorem mulliken_weights_sum_to_occupation
    (reference_mol : Mole → Mole) (mol : Mole) (s : matrix)
    (mo : coeffs) (mocc : vector) (j : nat) (c : vector) (occ : Q) :
  mo !! j = Some c →
  mocc !! j = Some occ →
  length (ao_labels (pmol reference_mol mol "mulliken")) = length c →
  length (ovlp reference_mol mol s "mulliken") = length c →
  Forall (fun row => length row = length c) (ovlp reference_mol mol s "mulliken") →
  Forall (fun k => k.1 < natm (pmol reference_mol mol "mulliken"))
    (ao_labels (pmol reference_mol mol "mulliken")) →
  (quad (ovlp reference_mol mol s "mulliken") c == 1)%Q →
  ∃ pop w,
    contract_ij_ji_i (make_rdm1 c occ) (ovlp reference_mol mol s "mulliken") = Ok pop
    ∧ _population (natm (pmol reference_mol mol "mulliken"))
        (ao_labels (pmol reference_mol mol "mulliken"))
        (ovlp reference_mol mol s "mulliken") (make_rdm1 c occ) = Ok w
    ∧ get_weights (natm (pmol reference_mol mol "mulliken"))
        (ao_labels (pmol reference_mol mol "mulliken"))
        (ovlp reference_mol mol s "mulliken") (Some mo) mocc j = Ok w
    ∧ length w = natm (pmol reference_mol mol "mulliken")
    ∧ (Qsum w == Qsum pop)%Q
    ∧ (Qsum pop == occ)%Q.
Proof.
  change (pmol reference_mol mol "mulliken") with mol.
  change (ovlp reference_mol mol s "mulliken") with s.
  intros Hc Hocc Hlab HS Hrows Hatm Hnorm.
  destruct (contract_rdm1_sum s c occ HS Hrows) as (pop & Hpop & Hlen & Hsum).
  destruct (accumulate_sum pop (ao_labels mol) 0 (zeros (natm mol)))
    as (w & Hw & Hwl & Hws).
  { unfold zeros. by rewrite length_replicate. }
  { simpl. lia. }
  exists pop, w.
  assert (_population (natm mol) (ao_labels mol) s (make_rdm1 c occ) = Ok w) as Hp.
  { unfold _population. rewrite Hpop. exact Hw. }
  split_and!.
  - done.
  - done.
  - unfold get_weights. simpl. rewrite Hc, Hocc. simpl. exact Hp.
  - rewrite Hwl. unfold zeros. by rewrite length_replicate.
  - rewrite Hws, Qsum_zeros, (Qsum_sumn pop), Hlab, Hlen, Qplus_0_l.
    apply sumn_ext. intros t _. reflexivity.
  - rewrite Hsum, Hnorm. ring.
Qed.

Lemma mulliken_weights_sum_to_occupation_witness :
  ∃ pop w,
    contract_ij_ji_i (make_rdm1 [24 # 25; 7 # 25]%Q 1%Q)
      (ovlp id_mol mol_closed s_two "mulliken") = Ok pop
    ∧ _population (natm (pmol id_mol mol_closed "mulliken"))
        (ao_labels (pmol id_mol mol_closed "mulliken"))
        (ovlp id_mol mol_closed s_two "mulliken")
        (make_rdm1 [24 # 25; 7 # 25]%Q 1%Q) = Ok w
    ∧ get_weights (natm (pmol id_mol mol_closed "mulliken"))
        (ao_labels (pmol id_mol mol_closed "mulliken"))
        (ovlp id_mol mol_closed s_two "mulliken")
        (Some [[24 # 25; 7 # 25]%Q]) [1%Q] 0 = Ok w
    ∧ length w = natm (pmol id_mol mol_closed "mulliken")
    ∧ (Qsum w == Qsum pop)%Q
    ∧ (Qsum pop == 1)%Q.
Proof.
  apply (mulliken_weights_sum_to_occupation id_mol mol_closed s_two
           [[24 # 25; 7 # 25]%Q] [1%Q] 0 [24 # 25; 7 # 25]%Q 1%Q).
  - reflexivity.
  - reflexivity.
  - reflexivity.
  - reflexivity.
  - repeat constructor.
  - repeat constructor.
  - vm_compute. reflexivity.
Defined.

(** ** assign_rdm1s: the exceptions *)

Lemma accumulate_builtin pop labels i pops e :
  accumulate pop i labels pops = Raise e → builtin e.
Proof.
  revert i pops. induction labels as [|k labels IH]; intros i pops; simpl;
    [discriminate |].
  intros [H|(old & _ & [H|(x & _ & H)]%rbind_Raise_inv)]%rbind_Raise_inv.
  - by eapply of_option_builtin, H.
  - by eapply of_option_builtin, H.
  - by eapply IH.
Qed.

Lemma contract_ij_ji_i_builtin a b e : contract_ij_ji_i a b = Raise e → builtin e.
Proof. unfold contract_ij_ji_i. case_match; [discriminate | by intros [= <-]]. Qed.

Lemma contract_ki_kl_lj_ij_builtin a s c e :
  contract_ki_kl_lj_ij a s c = Raise e → builtin e.
Proof. unfold contract_ki_kl_lj_ij. case_match; [discriminate | by intros [= <-]]. Qed.

Lemma population_builtin natm labels ovlp rdm1 e :
  _population natm labels ovlp rdm1 = Raise e → builtin e.
Proof.
  unfold _population.
  intros [H|(pop & _ & H)]%rbind_Raise_inv;
    [by eapply contract_ij_ji_i_builtin | by eapply accumulate_builtin].
Qed.

Lemma get_weights_builtin natm labels ovlp mo mocc j e :
  get_weights natm labels ovlp mo mocc j = Raise e → builtin e.
Proof.
  unfold get_weights.
  intros [H|(m & _ & [H|(orb & _ & [H|(occ & _ & H)]%rbind_Raise_inv)
    ]%rbind_Raise_inv)]%rbind_Raise_inv.
  - by eapply of_option_builtin, H.
  - by eapply of_option_builtin, H.
  - by eapply of_option_builtin, H.
  - by eapply population_builtin.
Qed.

Lemma of_option_Ok {A} e (o : option A) a : of_option e o = Ok a → o = Some a.
Proof. destruct o; simpl; [by intros [= ->] | discriminate]. Qed.

Lemma item_builtin {A} (l : list A) i e : item l i = Raise e → builtin e.
Proof. by apply of_option_builtin. Qed.

Lemma assign_at_builtin {A} (l : list A) i x e :
  assign_at l i x = Raise e → builtin e.
Proof. unfold assign_at. case_match; [discriminate | by intros [= <-]]. Qed.

Lemma raises_only_pool_run {S} (f : nat → St S vector) oracle fuel pending slots :
  (∀ j, raises_only builtin (f j)) →
  raises_only builtin (pool_run f oracle fuel pending slots).
Proof.
  intros Hf. revert oracle pending slots.
  induction fuel as [|fuel IH]; intros oracle pending slots; simpl.
  - apply raises_only_ret.
  - destruct (pending !! _) as [[slot arg]|]; [|apply raises_only_ret].
    apply raises_only_bind; [done | intros w; apply IH].
Qed.

Lemma raises_only_pool_map {S} processes oracle (f : nat → St S vector) d :
  (∀ j, raises_only builtin (f j)) →
  raises_only builtin (pool_map processes oracle f d).
Proof.
  intros Hf. unfold pool_map. case_match.
  - by apply raises_only_raise.
  - by apply raises_only_pool_run.
Qed.

(** Extends the exception bookkeeping to the statements of [assign_rdm1s]. *)
Ltac raises_assign :=
  repeat first
    [ apply raises_only_ret | apply raises_only_modify | apply raises_only_gets
    | apply raises_only_raise; exact I
    | apply raises_only_lift; intros ?; first
        [ apply sel2_take_builtin | apply contract_ki_kl_lj_ij_builtin
        | apply get_weights_builtin | apply item_builtin
        | apply assign_at_builtin | apply of_option_builtin; exact I ]
    | apply raises_only_bind; [| intros ?; cbv zeta] ].

Section AssignerRaises.

Variable reference_mol : Mole → Mole.
Variable lo_iao : Mole → coeffs → coeffs.
Variable lo_vec_lowdin : coeffs → matrix → coeffs.
Variable num_threads : nat.
Variable schedule : nat → list nat.
Variable mol : Mole.
Variable s : matrix.
Variable mo_coeff : coeffs * coeffs.
Variable mo_occ : vector * vector.
Variable ref pop part : string.
Variable multiproc : bool.
Variable verbose : Z.
Variable kwargs : gmap string Q.

Lemma raises_only_kernel i j :
  raises_only builtin (kernel reference_mol mol s pop i j).
Proof. unfold kernel, emit. raises_assign. Qed.

Lemma raises_only_weights_spin ix :
  raises_only builtin
    (weights_spin reference_mol lo_iao lo_vec_lowdin num_threads schedule
       mol s mo_coeff mo_occ ref pop multiproc ix).
Proof.
  destruct ix as [i idx]. unfold weights_spin, set_mo, set_mocc, set_domain,
    set_weights.
  apply raises_only_bind; [repeat case_match; raises_assign |]. intros _.
  apply raises_only_bind; [raises_assign |]. intros o.
  apply raises_only_bind; [raises_assign |]. intros _.
  apply raises_only_bind; [raises_assign |]. intros _.
  apply raises_only_bind; [raises_assign |]. intros d.
  apply raises_only_bind.
  { destruct multiproc.
    - apply raises_only_pool_map. apply raises_only_kernel.
    - apply raises_only_smap. apply raises_only_kernel. }
  intros ws. case_match; raises_assign.
Qed.

Lemma raises_only_print_spin ix :
  raises_only builtin (print_spin ix).
Proof.
  destruct ix as [i idx]. unfold print_spin.
  apply raises_only_bind; [raises_assign |]. intros d.
  apply raises_only_bind; [| intros ?; raises_assign].
  apply raises_only_for_each. intros j. unfold print_row, emit. raises_assign.
Qed.

Lemma raises_only_populations :
  raises_only builtin
    (populations reference_mol lo_iao lo_vec_lowdin num_threads schedule
       mol s mo_coeff mo_occ ref pop multiproc verbose).
Proof.
  unfold populations, set_weights.
  apply raises_only_bind; [raises_assign |]. intros _.
  apply raises_only_bind;
    [apply raises_only_for_each, raises_only_weights_spin |]. intros _.
  case_match; [apply raises_only_for_each, raises_only_print_spin |].
  apply raises_only_ret.
Qed.

Lemma raises_only_centre_orb thres i j :
  raises_only builtin (centre_orb thres i j).
Proof.
  unfold centre_orb, set_centres.
  do 5 (apply raises_only_bind; [raises_assign | intros ?; cbv zeta]).
  apply raises_only_bind; [case_match; raises_assign |]. intros pr.
  raises_assign.
Qed.

Lemma raises_only_bonds :
  raises_only builtin (bonds mol ref part kwargs).
Proof.
  unfold bonds, set_centres. case_match; [|apply raises_only_ret].
  apply raises_only_bind; [raises_assign |]. intros _.
  apply raises_only_bind; [raises_assign |]. intros thres.
  apply raises_only_bind.
  { apply raises_only_for_each. intros [i idx]. unfold centres_spin, set_centres.
    apply raises_only_bind; [raises_assign |]. intros d.
    apply raises_only_bind;
      [apply raises_only_for_each; intros j; apply raises_only_centre_orb |].
    intros _. case_match; raises_assign. }
  intros _. apply raises_only_bind; [raises_assign |]. intros c.
  apply raises_only_bind.
  { apply raises_only_lift. intros e. apply rmap_builtin. intros i e'.
    intros [HH|(ci & _ & HH)]%rbind_Raise_inv; [by eapply item_builtin | discriminate]. }
  intros cu. apply raises_only_bind; [| intros ?; raises_assign].
  apply raises_only_lift. intros e. apply rmap_builtin. intros i e'.
  intros [HH|(ci & _ & [HH|(ui & _ & HH)]%rbind_Raise_inv)]%rbind_Raise_inv;
    [by eapply item_builtin | by eapply item_builtin | discriminate].
Qed.

(** Every exception of [assign_rdm1s] is a builtin one. *)
Lemma raises_only_assign_rdm1s :
  raises_only builtin
    (assign_rdm1s reference_mol lo_iao lo_vec_lowdin num_threads schedule
       mol s mo_coeff mo_occ ref pop part multiproc verbose kwargs).
Proof.
  unfold assign_rdm1s.
  apply raises_only_bind; [apply raises_only_populations |]. intros _.
  apply raises_only_bind; [apply raises_only_bonds |]. intros bound.
  case_match; [raises_assign |].
  destruct bound as [[rep cu]|]; raises_assign.
Qed.

End AssignerRaises.

Section AssignerErrors.

Variable reference_mol : Mole → Mole.
Variable lo_iao : Mole → coeffs → coeffs.
Variable lo_vec_lowdin : coeffs → matrix → coeffs.
Variable num_threads : nat.
Variable schedule : nat → list nat.

Local Abbreviation populations' :=
  (populations reference_mol lo_iao lo_vec_lowdin num_threads schedule).
Local Abbreviation weights_spin' :=
  (weights_spin reference_mol lo_iao lo_vec_lowdin num_threads schedule).
Local Abbreviation assign_rdm1s' :=
  (assign_rdm1s reference_mol lo_iao lo_vec_lowdin num_threads schedule).

Lemma kernel_unbound_mo mol s pop i j fr :
  mo fr = None →
  ∃ fr', kernel reference_mol mol s pop i j fr = (fr', Raise (NameError "mo")).
Proof.
  intros Hmo. unfold kernel, bind, emit, modify, gets, lift. simpl.
  rewrite Hmo. simpl. eauto.
Qed.

Lemma pool_run_first_fails {S} (f : nat → St S vector) oracle fuel pending slots st :
  pending ≠ [] →
  (∀ j, ∃ st' e, f j st = (st', Raise e)) →
  ∃ st' e, pool_run f oracle (Datatypes.S fuel) pending slots st = (st', Raise e).
Proof.
  intros Hne Hf. simpl.
  assert (hd 0 oracle mod length pending < length pending) as Hk.
  { apply Nat.mod_upper_bound. destruct pending; [done | simpl; lia]. }
  destruct (lookup_lt_is_Some_2 _ _ Hk) as [[slot arg] ->].
  destruct (Hf arg) as (st' & e & He).
  exists st', e. by apply bind_Raise_run.
Qed.

(** With a scheme that is neither 'mulliken' nor 'iao' nothing binds
    [mo], and the pass over a channel with an occupied orbital raises. *)
Lemma weights_spin_unknown_scheme mol s mo_coeff mo_occ ref pop multiproc i idx fr :
  pop ≠ "mulliken" → pop ≠ "iao" → idx ≠ [] → mo fr = None →
  ∃ fr' e, weights_spin' mol s mo_coeff mo_occ ref pop multiproc (i, idx) fr
           = (fr', Raise e).
Proof.
  intros Hm%String.eqb_neq Hi%String.eqb_neq Hidx Hmo.
  unfold weights_spin. rewrite Hm, Hi.
  cbv [bind lift ret set_mocc set_domain modify gets].
  destruct (rbind (sel2 mo_occ i) _) as [o|e] eqn:Eo; [|by eexists _, _].
  cbn [domain].
  destruct idx as [|j0 idx]; [done |].
  match goal with
  | |- context [ (if multiproc then ?a else ?b) ?st ] =>
      assert (∃ fr' e, (if multiproc then a else b) st = (fr', Raise e))
        as (fr' & e & ->); [|by eexists _, _]
  end.
  assert (∀ j, ∃ st' e,
    kernel reference_mol mol s pop i j
      {| trace := trace fr; mo := mo fr; mocc := o;
         domain := seq 0 (length (j0 :: idx)); weights := weights fr;
         centres := centres fr |} = (st', Raise e)) as Hk.
  { intros j. destruct (kernel_unbound_mo mol s pop i j
      {| trace := trace fr; mo := mo fr; mocc := o;
         domain := seq 0 (length (j0 :: idx)); weights := weights fr;
         centres := centres fr |} Hmo) as [fr' Hfr]. eauto. }
  destruct multiproc.
  - unfold pool_map. case_match; [by eexists _, _ |].
    rewrite length_seq. apply pool_run_first_fails; [done | exact Hk].
  - destruct (Hk 0) as (st' & e & He). exists st', e.
    simpl. by apply bind_Raise_run.
Qed.

Lemma populations_unknown_scheme mol s mo_coeff mo_occ ref pop multiproc verbose fr :
  pop ≠ "mulliken" → pop ≠ "iao" → alpha mol ≠ [] → mo fr = None →
  ∃ fr' e, populations' mol s mo_coeff mo_occ ref pop multiproc verbose fr
           = (fr', Raise e).
Proof.
  intros Hm Hi Ha Hmo. unfold populations. cbv zeta.
  match goal with
  | |- ∃ fr' e, bind (set_weights ?W) _ _ = _ =>
      rewrite (bind_Ok_run _ _ fr (set_weights W fr).1 tt) by reflexivity;
      destruct (weights_spin_unknown_scheme mol s mo_coeff mo_occ ref pop
                  multiproc 0 (alpha mol) (set_weights W fr).1 Hm Hi Ha Hmo)
        as (fr' & e & He)
  end.
  exists fr', e. simpl for_each. apply bind_Raise_run. by apply bind_Raise_run.
Qed.

(** With a policy that is none of 'atoms', 'bonds', 'eda' the call ends
    at the return statement, where [rep_idx] is unbound. *)
Lemma assign_rdm1s_unknown_policy mol s mo_coeff mo_occ ref pop part multiproc
    verbose (kwargs : gmap string Q) fr0 :
  part ≠ "atoms" → part ≠ "bonds" → part ≠ "eda" →
  assign_rdm1s' mol s mo_coeff mo_occ ref pop part multiproc verbose kwargs fr0
  = match populations' mol s mo_coeff mo_occ ref pop multiproc verbose fr0 with
    | (fr1, Ok _) => (fr1, Raise (UnboundLocalError "rep_idx"))
    | (fr1, Raise e) => (fr1, Raise e)
    end.
Proof.
  intros Ha%String.eqb_neq Hb%String.eqb_neq He%String.eqb_neq.
  unfold assign_rdm1s, bind at 1.
  destruct (populations' _ _ _ _ _ _ _ _ fr0) as [fr1 [[]|e]]; [|done].
  unfold bonds. rewrite Hb. unfold bind, ret. by rewrite Ha, He.
Qed.

End AssignerErrors.

(** *** The claims about the error paths of assign_rdm1s *)

(** C6, as the claim states it, fails: for the closed-shell example with
    policy 'bonds' and no keyword argument the call raises
    [KeyError('thres')], which is not [MissingParameterError]. *)
Lemma bonds_without_thres_is_KeyError :
  (assign_rdm1s id_mol id_iao id_lowdin 1 in_order mol_closed s_two
     (c_two, c_two) occ_closed "restricted" "mulliken" "bonds" false 0 ∅
     initial_frame).2 = Raise (KeyError "thres")
  ∧ (assign_rdm1s id_mol id_iao id_lowdin 1 in_order mol_closed s_two
       (c_two, c_two) occ_closed "restricted" "mulliken" "bonds" false 0 ∅
       initial_frame).2 ≠ Raise MissingParameterError.
Proof. split; [by vm_compute | vm_compute; discriminate]. Qed.

(** C6, amended: with policy 'bonds' and no 'thres' keyword
    [assign_rdm1s] never returns.  It first computes the weights (and
    prints the verbose table); if that raised, the call ends with that
    exception; otherwise line 143 raises [KeyError('thres')], after the
    centres arrays were set to zeros and before any centre is assigned. *)
Theorem assign_rdm1s_bonds_needs_thres
    (reference_mol : Mole → Mole) (lo_iao : Mole → coeffs → coeffs)
    (lo_vec_lowdin : coeffs → matrix → coeffs) (num_threads : nat)
    (schedule : nat → list nat) (mol : Mole) (s : matrix)
    (mo_coeff : coeffs * coeffs) (mo_occ : vector * vector) (ref pop : string)
    (multiproc : bool) (verbose : Z) (kwargs : gmap string Q) (fr0 : frame) :
  kwargs !! "thres" = None →
  assign_rdm1s reference_mol lo_iao lo_vec_lowdin num_threads schedule mol s
    mo_coeff mo_occ ref pop "bonds" multiproc verbose kwargs fr0
  = match populations reference_mol lo_iao lo_vec_lowdin num_threads schedule
            mol s mo_coeff mo_occ ref pop multiproc verbose fr0 with
    | (fr1, Ok _) =>
        ({| trace := trace fr1; mo := mo fr1; mocc := mocc fr1;
            domain := domain fr1; weights := weights fr1;
            centres := [replicate (length (alpha mol)) (0, 0);
                        replicate (length (beta mol)) (0, 0)] |},
         Raise (KeyError "thres"))
    | (fr1, Raise e) => (fr1, Raise e)
    end.
Proof.
  intros Hk. unfold assign_rdm1s, bind at 1.
  destruct (populations _ _ _ _ _ _ _ _ _ _ _ _ _ fr0) as [fr1 [[]|e]]; [|done].
  unfold bonds. simpl. unfold bind, set_centres, modify, lift. simpl.
  by rewrite Hk.
Qed.

Lemma assign_rdm1s_bonds_needs_thres_witness :
  assign_rdm1s id_mol id_iao id_lowdin 1 in_order mol_open s_two
    (c_two, c_two) occ_open "unrestricted" "mulliken" "bonds" false 0 ∅
    initial_frame
  = match populations id_mol id_iao id_lowdin 1 in_order mol_open s_two
            (c_two, c_two) occ_open "unrestricted" "mulliken" false 0
            initial_frame with
    | (fr1, Ok _) =>
        ({| trace := trace fr1; mo := mo fr1; mocc := mocc fr1;
            domain := domain fr1; weights := weights fr1;
            centres := [replicate (length (alpha mol_open)) (0, 0);
                        replicate (length (beta mol_open)) (0, 0)] |},
         Raise (KeyError "thres"))
    | (fr1, Raise e) => (fr1, Raise e)
    end.
Proof.
  apply (assign_rdm1s_bonds_needs_thres id_mol id_iao id_lowdin 1 in_order
           mol_open s_two (c_two, c_two) occ_open "unrestricted" "mulliken"
           false 0 ∅ initial_frame).
  reflexivity.
Defined.

(** C7, as the claim states it, fails: the scheme 'lowdin' is not
    rejected; the call raises [NameError] for the unbound [mo] at the first
    run of the kernel, which is not [InvalidOptionError]. *)
Lemma unknown_scheme_is_NameError :
  (assign_rdm1s id_mol id_iao id_lowdin 1 in_order mol_closed s_two
     (c_two, c_two) occ_closed "restricted" "lowdin" "atoms" false 0 ∅
     initial_frame).2 = Raise (NameError "mo")
  ∧ (assign_rdm1s id_mol id_iao id_lowdin 1 in_order mol_closed s_two
       (c_two, c_two) occ_closed "restricted" "lowdin" "atoms" false 0 ∅
       initial_frame).2 ≠ Raise InvalidOptionError.
Proof. split; [by vm_compute | vm_compute; discriminate]. Qed.

(** C7, amended: [assign_rdm1s] validates neither option.  A call with a
    population scheme outside {mulliken, iao} and an occupied alpha
    orbital, or with a partition policy outside {atoms, bonds, eda}, does
    not return: it ends with one of the builtin exceptions ([IndexError],
    [ValueError], [KeyError], [NameError], [UnboundLocalError]) and never
    with [InvalidOptionError]. *)
Theorem assign_rdm1s_unknown_option_fails_builtin
    (reference_mol : Mole → Mole) (lo_iao : Mole → coeffs → coeffs)
    (lo_vec_lowdin : coeffs → matrix → coeffs) (num_threads : nat)
    (schedule : nat → list nat) (mol : Mole) (s : matrix)
    (mo_coeff : coeffs * coeffs) (mo_occ : vector * vector)
    (ref pop part : string) (multiproc : bool) (verbose : Z)
    (kwargs : gmap string Q) :
  (pop ≠ "mulliken" ∧ pop ≠ "iao" ∧ alpha mol ≠ [])
  ∨ (part ≠ "atoms" ∧ part ≠ "bonds" ∧ part ≠ "eda") →
  ∃ fr e,
    assign_rdm1s reference_mol lo_iao lo_vec_lowdin num_threads schedule mol s
      mo_coeff mo_occ ref pop part multiproc verbose kwargs initial_frame
    = (fr, Raise e)
    ∧ builtin e ∧ e ≠ InvalidOptionError.
Proof.
  intros H.
  assert (∃ fr e,
    assign_rdm1s reference_mol lo_iao lo_vec_lowdin num_threads schedule mol s
      mo_coeff mo_occ ref pop part multiproc verbose kwargs initial_frame
    = (fr, Raise e)) as (fr & e & He).
  { destruct H as [(Hm & Hi & Ha)|(Ha & Hb & He)].
    - destruct (populations_unknown_scheme reference_mol lo_iao lo_vec_lowdin
        num_threads schedule mol s mo_coeff mo_occ ref pop multiproc verbose
        initial_frame Hm Hi Ha eq_refl) as (fr & e & He).
      exists fr, e. unfold assign_rdm1s. by apply bind_Raise_run.
    - rewrite assign_rdm1s_unknown_policy by done.
      destruct (populations _ _ _ _ _ _ _ _ _ _ _ _ _ _) as [fr1 [[]|e]];
        by eexists _, _. }
  exists fr, e. split; [done |].
  apply raises_only_assign_rdm1s in He.
  split; [done |]. by intros ->.
Qed.

Lemma assign_rdm1s_unknown_option_fails_builtin_witness :
  ∃ fr e,
    assign_rdm1s id_mol id_iao id_lowdin 1 in_order mol_open s_two
      (c_two, c_two) occ_open "unrestricted" "mulliken" "pairs" false 0 ∅
      initial_frame
    = (fr, Raise e)
    ∧ builtin e ∧ e ≠ InvalidOptionError.
Proof.
  apply (assign_rdm1s_unknown_option_fails_builtin id_mol id_iao id_lowdin 1
           in_order mol_open s_two (c_two, c_two) occ_open "unrestricted"
           "mulliken" "pairs" false 0 ∅).
  right. split_and!; discriminate.
Defined.

(** ** Deduplication: np.unique and np.where *)

Lemma pair_ltb_irrefl p : pair_ltb p p = false.
Proof.
  unfold pair_ltb. rewrite !Nat.ltb_irrefl, Nat.eqb_refl. done.
Qed.

Lemma pair_lt_trans p q r : pair_lt p q → pair_lt q r → pair_lt p r.
Proof.
  unfold pair_lt, pair_ltb. destruct p as [a b], q as [c d], r as [e f]. simpl.
  rewrite !orb_true_iff, !andb_true_iff, !Nat.ltb_lt, !Nat.eqb_eq. lia.
Qed.

Lemma pair_ltb_total p q : pair_ltb p q = false → p ≠ q → pair_lt q p.
Proof.
  unfold pair_lt, pair_ltb. destruct p as [a b], q as [c d]. simpl.
  rewrite orb_false_iff, andb_false_iff, orb_true_iff, andb_true_iff,
    !Nat.ltb_lt, !Nat.ltb_ge, Nat.eqb_eq, Nat.eqb_neq.
  intros H Hne.
  destruct (decide (a = c)) as [->|]; [|lia].
  assert (b ≠ d) by congruence. lia.
Qed.

Lemma elem_of_insert_row p q rows :
  q ∈ insert_row p rows ↔ q = p ∨ q ∈ rows.
Proof.
  induction rows as [|r rows IH]; simpl.
  - rewrite elem_of_cons. done.
  - destruct (pair_ltb p r); [by rewrite elem_of_cons |].
    case_bool_decide as Hpr.
    + subst. rewrite elem_of_cons. tauto.
    + rewrite !elem_of_cons, IH. tauto.
Qed.

Lemma insert_row_sorted p rows :
  StronglySorted pair_lt rows → StronglySorted pair_lt (insert_row p rows).
Proof.
  induction 1 as [|r rows Hs IH Hr]; simpl.
  - repeat constructor.
  - destruct (pair_ltb p r) eqn:Hpr.
    + constructor; [by constructor |].
      constructor; [done |].
      eapply Forall_impl; [exact Hr |]. intros x Hx. by eapply pair_lt_trans.
    + case_bool_decide as Hne; [by constructor |].
      constructor; [done |].
      apply Forall_forall. intros x [->|Hx]%elem_of_insert_row.
      * by apply pair_ltb_total.
      * rewrite Forall_forall in Hr. by apply Hr.
Qed.

Lemma np_unique_sorted c : StronglySorted pair_lt (np_unique c).
Proof.
  induction c as [|p c IH]; simpl; [constructor | by apply insert_row_sorted].
Qed.

Lemma sorted_pairs_NoDup rows : StronglySorted pair_lt rows → NoDup rows.
Proof.
  induction 1 as [|r rows Hs IH Hr]; [constructor |].
  apply NoDup_cons. split; [|done].
  intros Hin. rewrite Forall_forall in Hr. specialize (Hr r Hin).
  unfold pair_lt in Hr. by rewrite pair_ltb_irrefl in Hr.
Qed.

Lemma np_unique_NoDup c : NoDup (np_unique c).
Proof. apply sorted_pairs_NoDup, np_unique_sorted. Qed.

Lemma elem_of_np_unique c p : p ∈ np_unique c ↔ p ∈ c.
Proof.
  induction c as [|q c IH]; simpl; [done |].
  rewrite elem_of_insert_row, IH, elem_of_cons. done.
Qed.

Lemma elem_of_where_from k c u j :
  j ∈ where_from k c u ↔ k ≤ j ∧ c !! (j - k) = Some u.
Proof.
  revert k. induction c as [|p c IH]; intros k; simpl.
  - split; [by intros ?%elem_of_nil | by intros [_ ?]].
  - assert (∀ j, S k ≤ j → (p :: c) !! (j - k) = c !! (j - S k)) as Hshift.
    { intros j' Hj'. replace (j' - k) with (S (j' - S k)) by lia. done. }
    case_bool_decide as Hpu.
    + rewrite elem_of_cons, IH. split.
      * intros [->|[Hle Hl]].
        -- split; [lia |]. rewrite Nat.sub_diag. simpl. by rewrite Hpu.
        -- split; [lia |]. by rewrite Hshift.
      * intros [Hle Hl]. destruct (decide (j = k)) as [->|Hne]; [by left |].
        right. split; [lia |]. rewrite <- Hshift by lia. done.
    + rewrite IH. split.
      * intros [Hle Hl]. split; [lia |]. by rewrite Hshift.
      * intros [Hle Hl]. destruct (decide (j = k)) as [->|Hne].
        -- rewrite Nat.sub_diag in Hl. simpl in Hl. congruence.
        -- split; [lia |]. rewrite <- Hshift by lia. done.
Qed.

Lemma elem_of_where_rows c u j : j ∈ where_rows c u ↔ c !! j = Some u.
Proof.
  unfold where_rows. rewrite elem_of_where_from, Nat.sub_0_r.
  split; [by intros [_ ?] | intros; split; [lia | done]].
Qed.

Lemma where_from_NoDup k c u : NoDup (where_from k c u).
Proof.
  revert k. induction c as [|p c IH]; intros k; simpl; [constructor |].
  case_bool_decide; [|done].
  apply NoDup_cons. split; [|done].
  rewrite elem_of_where_from. lia.
Qed.

Lemma elem_of_groups c us j :
  j ∈ concat (map (where_rows c) us) ↔ ∃ u, u ∈ us ∧ c !! j = Some u.
Proof.
  induction us as [|u us IH]; simpl.
  - split; [by intros ?%elem_of_nil | by intros (u & ?%elem_of_nil & _)].
  - rewrite elem_of_app, IH, elem_of_where_rows. split.
    + intros [H|(u' & Hu' & H)]; [exists u | exists u'];
        (split; [|done]); [by left | by right].
    + intros (u' & [->|Hu']%elem_of_cons & H); [by left | right; eauto].
Qed.

Lemma groups_NoDup c us : NoDup us → NoDup (concat (map (where_rows c) us)).
Proof.
  induction 1 as [|u us Hu Hus IH]; simpl; [constructor |].
  apply NoDup_app. split_and!; [apply where_from_NoDup | | done].
  intros j Hj%elem_of_where_rows (u' & Hu' & Hj')%elem_of_groups.
  congruence.
Qed.

(** The groups of the distinct rows of [c] are a partition of its row
    numbers. *)
Lemma groups_of_unique c :
  groups_of (length c) (map (where_rows c) (np_unique c)) (np_unique c) c.
Proof.
  assert (NoDup (concat (map (where_rows c) (np_unique c)))) as Hnd
    by apply groups_NoDup, np_unique_NoDup.
  unfold groups_of. split_and!.
  - done.
  - apply NoDup_Permutation; [done | apply NoDup_seq |].
    intros j. rewrite elem_of_groups, elem_of_seq. split.
    + intros (u & _ & Hj). apply lookup_lt_Some in Hj. lia.
    + intros [_ Hj]. destruct (lookup_lt_is_Some_2 c j Hj) as [u Hu].
      exists u. split; [|done]. apply elem_of_np_unique.
      by eapply list_elem_of_lookup_2.
  - done.
  - apply np_unique_NoDup.
  - by rewrite length_map.
  - apply elem_of_np_unique.
  - intros k u g Hu Hg j. rewrite list_lookup_fmap, Hu in Hg.
    injection Hg as <-. apply elem_of_where_rows.
Qed.

(** ** assign_rdm1s: the kernel, sequentially and through the pool *)

(** Take a sequence [x <- m ;; k] that returned apart, and evaluate the
    elementary statement in front. *)
Tactic Notation "bind_inv" hyp(H) "as" ident(v) ident(Hv) :=
  let fr := fresh "fr" in
  apply bind_Ok_inv in H as (fr & v & Hv & H);
  try (progress cbv [gets modify lift ret set_mo set_mocc set_domain
                     set_weights set_centres emit] in Hv;
       apply pair_equal_spec in Hv as [? Hv]; subst fr;
       try (injection Hv as <-)).

Lemma logged_logged fr es es' : logged (logged fr es) es' = logged fr (es ++ es').
Proof. unfold logged. simpl. by rewrite app_assoc. Qed.

Lemma logged_nil fr : logged fr [] = fr.
Proof. destruct fr. unfold logged. simpl. by rewrite app_nil_r. Qed.

Lemma weighed_app tr tr' : weighed (tr ++ tr') = weighed tr ++ weighed tr'.
Proof. unfold weighed. by rewrite omap_app. Qed.

Lemma weighed_Weighed i (d : list nat) :
  weighed (map (Weighed i) d) = map (pair i) d.
Proof. induction d as [|j d IH]; simpl; [done | by f_equal]. Qed.

Section KernelRuns.

Variable reference_mol : Mole → Mole.
Variable mol : Mole.
Variable s : matrix.
Variable pop : string.
Variable i : nat.

Local Abbreviation g := (kernel_value reference_mol mol s pop).

Local Abbreviation kernel' := (kernel reference_mol mol s pop i).

Lemma kernel_run j fr : kernel' j fr = (logged fr [Weighed i j], g fr j).
Proof. reflexivity. Qed.

Lemma g_logged fr es j : g (logged fr es) j = g fr j.
Proof. reflexivity. Qed.

Lemma smap_kernel_run d fr ws :
  Forall2 (fun j w => g fr j = Ok w) d ws →
  smap kernel' d fr = (logged fr (map (Weighed i) d), Ok ws).
Proof.
  intros H. revert fr H. revert ws.
  induction d as [|j d IH]; intros ws fr H.
  - inversion H; subst. simpl. unfold ret. by rewrite logged_nil.
  - inversion H as [|? w ? ws' Hw Hws]; subst. simpl.
    rewrite (bind_Ok_run _ _ fr (logged fr [Weighed i j]) w)
      by (by rewrite kernel_run, Hw).
    rewrite (bind_Ok_run _ _ _ _ ws' (IH ws' (logged fr [Weighed i j]) Hws)).
    unfold ret. by rewrite logged_logged.
Qed.

Lemma smap_kernel_Ok d fr fr' ws :
  smap kernel' d fr = (fr', Ok ws) →
  fr' = logged fr (map (Weighed i) d)
  ∧ Forall2 (fun j w => g fr j = Ok w) d ws.
Proof.
  revert fr ws. induction d as [|j d IH]; intros fr ws H; simpl in H.
  - injection H as <- <-. by rewrite logged_nil.
  - apply bind_Ok_inv in H as (fr1 & w & Hk & H).
    apply bind_Ok_inv in H as (fr2 & ws' & Hd & H).
    injection H as <- <-.
    rewrite kernel_run in Hk. injection Hk as <- Hw.
    apply IH in Hd as [-> Hws]. rewrite logged_logged. split; [done |].
    by constructor.
Qed.

(** A pool whose tasks all return fills every slot of a pending task with
    the value of its kernel run and leaves the other slots; the kernel runs
    are logged in the order of completion. *)
Lemma pool_run_kernel fuel oracle pending slots fr :
  length pending ≤ fuel →
  NoDup pending.*1 →
  (∀ slot arg, (slot, arg) ∈ pending →
     slot < length slots ∧ ∃ w, g fr arg = Ok w) →
  ∃ es res,
    pool_run kernel' oracle fuel pending slots fr = (logged fr es, Ok res)
    ∧ es ≡ₚ map (Weighed i) pending.*2
    ∧ length res = length slots
    ∧ (∀ slot arg, (slot, arg) ∈ pending →
         ∃ w, g fr arg = Ok w ∧ res !! slot = Some w)
    ∧ (∀ k, k ∉ pending.*1 → res !! k = slots !! k).
Proof.
  revert oracle pending slots fr.
  induction fuel as [|fuel IH]; intros oracle pending slots fr Hlen Hnd Hall.
  { destruct pending; [|simpl in Hlen; lia].
    exists [], slots. simpl. unfold ret. rewrite logged_nil.
    split_and!; try done. intros ?? Hin. by apply elem_of_nil in Hin. }
  simpl. destruct (decide (pending = [])) as [->|Hne].
  { exists [], slots. simpl. unfold ret. rewrite logged_nil.
    split_and!; try done. intros ?? Hin. by apply elem_of_nil in Hin. }
  destruct (pending !! (hd 0 oracle mod length pending)) as [[slot arg]|] eqn:Ek.
  2:{ exfalso. apply lookup_ge_None in Ek.
      assert (hd 0 oracle mod length pending < length pending); [|lia].
      apply Nat.mod_upper_bound. by destruct pending. }
  pose proof (delete_Permutation _ _ _ Ek) as Hperm.
  set (pending' := delete (hd 0 oracle mod length pending) pending) in *.
  assert ((slot, arg) ∈ pending) as Hin by (by eapply list_elem_of_lookup_2).
  destruct (Hall slot arg Hin) as [Hslot [w Hw]].
  assert (NoDup (slot :: pending'.*1)) as Hnd'.
  { by rewrite <- (fmap_cons fst (slot, arg)), <- Hperm. }
  apply NoDup_cons in Hnd' as [Hfresh Hnd'].
  destruct (IH (tl oracle) pending' (<[slot := w]> slots)
              (logged fr [Weighed i arg])) as (es & res & Hrun & Hes & Hres & Hval & Hrest).
  - pose proof (Permutation_length Hperm) as HL. simpl in HL. lia.
  - done.
  - intros slot' arg' Hin'. rewrite length_insert, g_logged.
    apply Hall. rewrite Hperm. by right.
  - exists (Weighed i arg :: es), res.
    rewrite (bind_Ok_run _ _ fr (logged fr [Weighed i arg]) w)
      by (by rewrite kernel_run, Hw).
    rewrite Hrun, logged_logged. simpl. split_and!.
    + done.
    + rewrite Hperm. simpl. by constructor.
    + by rewrite Hres, length_insert.
    + intros slot' arg' Hin'. rewrite Hperm in Hin'.
      apply elem_of_cons in Hin' as [[= -> ->]|Hin'].
      * exists w. split; [done |].
        rewrite (Hrest slot Hfresh). by apply list_lookup_insert_eq.
      * destruct (Hval slot' arg' Hin') as (w' & Hw' & Hr'). exists w'.
        by rewrite g_logged in Hw'.
    + intros k Hk.
      assert (k ≠ slot ∧ k ∉ pending'.*1) as [Hks Hk'].
      { rewrite Hperm in Hk. simpl in Hk. by apply not_elem_of_cons in Hk. }
      rewrite (Hrest k Hk'). by apply list_lookup_insert_ne.
Qed.

Lemma pool_run_Ok_all fuel oracle pending slots fr fr' res :
  pool_run kernel' oracle fuel pending slots fr = (fr', Ok res) →
  length pending ≤ fuel →
  ∀ slot arg, (slot, arg) ∈ pending → ∃ w, g fr arg = Ok w.
Proof.
  revert oracle pending slots fr.
  induction fuel as [|fuel IH]; intros oracle pending slots fr Hrun Hlen slot arg Hin.
  { destruct pending; [by apply elem_of_nil in Hin | simpl in Hlen; lia]. }
  simpl in Hrun.
  destruct (pending !! (hd 0 oracle mod length pending)) as [[slot0 arg0]|] eqn:Ek.
  2:{ exfalso. apply lookup_ge_None in Ek.
      assert (hd 0 oracle mod length pending < length pending); [|lia].
      apply Nat.mod_upper_bound. destruct pending; [by apply elem_of_nil in Hin | done]. }
  pose proof (delete_Permutation _ _ _ Ek) as Hperm.
  apply bind_Ok_inv in Hrun as (fr1 & w & Hk & Hrun).
  rewrite kernel_run in Hk. injection Hk as <- Hw.
  rewrite Hperm in Hin. apply elem_of_cons in Hin as [[= -> ->]|Hin]; [eauto |].
  rewrite <- (g_logged fr [Weighed i arg0]).
  eapply IH; [exact Hrun | | exact Hin].
  pose proof (Permutation_length Hperm) as HL. simpl in HL. lia.
Qed.

Lemma imap_pair_fst (d : list nat) : (imap pair d).*1 = seq 0 (length d).
Proof.
  rewrite fmap_imap. rewrite <- (list_fmap_id (seq 0 (length d))).
  rewrite <- (imap_seq_0 d id). by apply imap_ext.
Qed.

Lemma imap_pair_snd (d : list nat) : (imap pair d).*2 = d.
Proof.
  rewrite fmap_imap. rewrite <- (list_fmap_id d) at 2.
  rewrite <- imap_const. by apply imap_ext.
Qed.

Lemma elem_of_imap_pair (d : list nat) slot arg :
  (slot, arg) ∈ imap pair d ↔ d !! slot = Some arg.
Proof.
  rewrite elem_of_lookup_imap. split.
  - by intros (k & y & [= -> ->] & H).
  - intros H. by exists slot, arg.
Qed.

(** With at least one process, the pool returns what the sequential map
    returns whenever every kernel run returns, whatever the order in which
    the tasks finish. *)
Lemma pool_map_kernel processes oracle d fr ws :
  0 < processes →
  Forall2 (fun j w => g fr j = Ok w) d ws →
  ∃ es, pool_map processes oracle kernel' d fr = (logged fr es, Ok ws)
        ∧ es ≡ₚ map (Weighed i) d.
Proof.
  intros Hp Hws. unfold pool_map.
  destruct (processes =? 0) eqn:E0; [apply Nat.eqb_eq in E0; lia |].
  destruct (pool_run_kernel (length d) oracle (imap pair d)
              (replicate (length d) []) fr) as (es & res & Hrun & Hes & Hlen & Hval & _).
  - by rewrite length_imap.
  - rewrite imap_pair_fst. apply NoDup_seq.
  - intros slot arg Hin%elem_of_imap_pair. rewrite length_replicate. split.
    + by eapply lookup_lt_Some.
    + destruct (Forall2_lookup_l _ _ _ _ _ Hws Hin) as (w & _ & Hw). eauto.
  - exists es. rewrite imap_pair_snd in Hes. split; [|done].
    rewrite Hrun. do 2 f_equal. apply list_eq. intros k.
    rewrite length_replicate in Hlen.
    destruct (d !! k) as [arg|] eqn:Ed.
    + destruct (Hval k arg) as (w & Hw & ->); [by apply elem_of_imap_pair |].
      destruct (Forall2_lookup_l _ _ _ _ _ Hws Ed) as (w' & -> & Hw').
      congruence.
    + apply lookup_ge_None in Ed.
      rewrite (lookup_ge_None_2 res), (lookup_ge_None_2 ws); [done | | lia].
      apply Forall2_length in Hws. lia.
Qed.

Lemma all_Ok_Forall2 (d : list nat) fr :
  (∀ j, j ∈ d → ∃ w, g fr j = Ok w) →
  ∃ ws, Forall2 (fun j w => g fr j = Ok w) d ws.
Proof.
  induction d as [|j d IH]; intros H; [by exists [] |].
  destruct (H j) as [w Hw]; [by left |].
  destruct IH as [ws Hws]; [intros j' Hj'; apply H; by right |].
  exists (w :: ws). by constructor.
Qed.

(** A pool that returned has run the kernel once for every task, all of
    which returned, and holds their values in the order of the domain. *)
Lemma pool_map_Ok_inv processes oracle d fr fr' ws :
  pool_map processes oracle kernel' d fr = (fr', Ok ws) →
  0 < processes
  ∧ ∃ es, fr' = logged fr es ∧ es ≡ₚ map (Weighed i) d
          ∧ Forall2 (fun j w => g fr j = Ok w) d ws.
Proof.
  intros Hrun.
  assert (0 < processes) as Hp.
  { unfold pool_map in Hrun. destruct processes; [discriminate | lia]. }
  split; [done |].
  assert (∃ ws', Forall2 (fun j w => g fr j = Ok w) d ws') as [ws' Hws'].
  { apply all_Ok_Forall2. intros j Hj.
    apply list_elem_of_lookup in Hj as [k Hk].
    unfold pool_map in Hrun.
    destruct (processes =? 0); [discriminate |].
    eapply (pool_run_Ok_all _ _ _ _ _ _ _ Hrun); [by rewrite length_imap |].
    by apply elem_of_imap_pair. }
  destruct (pool_map_kernel processes oracle d fr ws' Hp Hws') as (es & Hrun' & Hes).
  rewrite Hrun in Hrun'. injection Hrun' as -> ->. eauto.
Qed.

End KernelRuns.

(** ** assign_rdm1s: the centres *)

Global Instance centres_shape_refl : Reflexive centres_shape.
Proof.
  intros fr. split_and!; try done.
  apply Forall2_same_length_lookup. split; [done |]. intros. congruence.
Qed.

Global Instance centres_shape_trans : Transitive centres_shape.
Proof.
  intros a b c (H1 & H2 & H3 & H4) (H5 & H6 & H7 & H8).
  split_and!; try congruence.
  apply Forall2_same_length_lookup.
  apply Forall2_same_length_lookup in H1 as [L1 H1].
  apply Forall2_same_length_lookup in H5 as [L5 H5].
  split; [congruence |]. intros k x z Hx Hz.
  destruct (lookup_lt_is_Some_2 (centres b) k) as [y Hy].
  { rewrite <- L1. by eapply lookup_lt_Some. }
  rewrite (H1 k x y Hx Hy). by apply (H5 k y z).
Qed.

Lemma shape_insert (c : list (list (nat * nat))) i ci ci' :
  c !! i = Some ci → length ci' = length ci →
  Forall2 (fun a b : list (nat * nat) => length a = length b) c (<[i := ci']> c).
Proof.
  intros Hi Hl. apply Forall2_same_length_lookup. split; [by rewrite length_insert |].
  intros k a b Ha Hb. destruct (decide (k = i)) as [->|Hne].
  - rewrite list_lookup_insert_eq in Hb by (by eapply lookup_lt_Some).
    congruence.
  - rewrite list_lookup_insert_ne in Hb by done. congruence.
Qed.

(** A pass of the loop over orbitals that returns has stored, for orbital
    [j] of channel [i], the pair of the bond-wise rule at the last and next
    to last index of the argsort of its weights. *)
Lemma centre_orb_Ok thres i j fr fr' b :
  centre_orb thres i j fr = (fr', Ok b) →
  ∃ wi w m0 m1 ci,
    weights fr !! i = Some wi ∧ wi !! j = Some w
    ∧ reverse (argsort w) !! 0 = Some m0
    ∧ (Qle_bool (Qabs (wt w m0)) thres = true → reverse (argsort w) !! 1 = Some m1)
    ∧ centres fr !! i = Some ci ∧ j < length ci
    ∧ fr' = (set_centres
               (<[i := <[j := bond_rule thres w m0 m1]> ci]> (centres fr)) fr).1
    ∧ b = false.
Proof.
  unfold centre_orb. intros H.
  bind_inv H as ws Hws. bind_inv H as wi Hwi. bind_inv H as w Hw.
  bind_inv H as m0 Hm0. bind_inv H as wmax Hmax.
  apply bind_Ok_inv in H as (fr1 & pr & Hpr & H).
  bind_inv H as c Hc. bind_inv H as ci Hci. bind_inv H as ci' Hci'.
  bind_inv H as c' Hc'. bind_inv H as u Hu.
  injection H as <- <-.
  apply of_option_Ok in Hwi, Hw, Hm0, Hmax, Hci.
  assert (wt w m0 = wmax) as Hwt by (by apply wt_lookup).
  assert (∃ m1, fr1 = fr ∧ pr = bond_rule thres w m0 m1
          ∧ (Qle_bool (Qabs (wt w m0)) thres = true →
             reverse (argsort w) !! 1 = Some m1)) as (m1 & -> & -> & Hm1).
  { unfold bond_rule. rewrite Hwt.
    destruct (Qle_bool (Qabs wmax) thres) eqn:Eq; simpl in Hpr.
    - bind_inv Hpr as m1 Hm1. injection Hpr as <- <-.
      apply of_option_Ok in Hm1. by exists m1.
    - injection Hpr as <- <-. by exists m0. }
  unfold assign_at in Hci', Hc'.
  destruct (j <? length ci) eqn:Ej; [|discriminate]. injection Hci' as <-.
  destruct (i <? length (centres fr)); [|discriminate]. injection Hc' as <-.
  apply Nat.ltb_lt in Ej.
  exists wi, w, m0, m1, ci. by split_and!.
Qed.

Lemma centre_orb_shape thres i j :
  sat centres_shape (fun _ => True) (centre_orb thres i j).
Proof.
  intros fr fr' r H. split; [|done].
  destruct r as [b|e].
  - apply centre_orb_Ok in H
      as (wi & w & m0 & m1 & ci & _ & _ & _ & _ & Hci & Hj & -> & _).
    split_and!; simpl; try done.
    apply shape_insert with ci; [done | by rewrite length_insert].
  - assert (fr' = fr) as ->; [|reflexivity].
    unfold centre_orb, bind, gets, lift, ret, set_centres, modify in H.
    repeat case_match; simplify_eq; done.
Qed.

Section BondsFacts.

Variable mol : Mole.
Variable ref : string.

Lemma sat_centre_loop thres i d :
  sat centres_shape (fun _ => True) (for_each (centre_orb thres i) d).
Proof.
  apply sat_for_each; [apply _ .. |]. intros j _. apply centre_orb_shape.
Qed.

Lemma centres_spin_open thres ix :
  closed_shell ref mol = false →
  sat centres_shape (fun _ => True) (centres_spin mol ref thres ix).
Proof.
  intros Hc. destruct ix as [i idx]. unfold centres_spin. rewrite Hc.
  sat_seq; [apply (sat_gets _ (fun _ => True)); try apply _; done |].
  sat_seq; [apply sat_centre_loop |].
  apply sat_ret; try apply _; done.
Qed.

Lemma centres_spin_closed thres i idx fr fr' b :
  closed_shell ref mol = true →
  centres_spin mol ref thres (i, idx) fr = (fr', Ok b) →
  ∃ fr1 ci,
    centres_shape fr fr1 ∧ centres fr1 !! i = Some ci
    ∧ i + 1 < length (centres fr1)
    ∧ fr' = (set_centres (<[i + 1 := ci]> (centres fr1)) fr1).1
    ∧ b = true.
Proof.
  intros Hc. unfold centres_spin. rewrite Hc. intros H.
  bind_inv H as d Hd.
  apply bind_Ok_inv in H as (fr1 & u & Hloop & H).
  apply sat_centre_loop in Hloop as [Hshape _].
  bind_inv H as c Hcs. bind_inv H as ci Hci. bind_inv H as c' Hc'.
  bind_inv H as u' Hu. injection H as <- <-.
  apply of_option_Ok in Hci. unfold assign_at in Hc'.
  destruct (i + 1 <? length (centres fr1)) eqn:El; [|discriminate].
  injection Hc' as <-. apply Nat.ltb_lt in El.
  exists fr1, ci. by split_and!.
Qed.

Lemma shape_two fr fr' (x y : list (nat * nat)) :
  centres_shape fr fr' → centres fr = [x; y] →
  ∃ a b, centres fr' = [a; b] ∧ length a = length x ∧ length b = length y.
Proof.
  intros (H & _) E. rewrite E in H.
  inversion H as [|? a ? l' Ha Hl']; subst.
  inversion Hl' as [|? b ? l'' Hb Hl'']; subst.
  inversion Hl''; subst. by exists a, b.
Qed.

(** A bond-wise partitioning that returns: the centres of the two
    channels, with one row per orbital of the channel, their distinct rows
    and the groups of orbitals by row.  Under the closed-shell reduction the
    second centres array is the first. *)
Lemma bonds_Ok (kwargs : gmap string Q) fr fr' bound :
  bonds mol ref "bonds" kwargs fr = (fr', Ok bound) →
  ∃ c0 c1,
    bound = Some ([map (where_rows c0) (np_unique c0);
                   map (where_rows c1) (np_unique c1)],
                  [np_unique c0; np_unique c1])
    ∧ centres fr' = [c0; c1]
    ∧ length c0 = length (alpha mol)
    ∧ length c1 = length (if closed_shell ref mol then alpha mol else beta mol)
    ∧ (closed_shell ref mol = true → c1 = c0)
    ∧ weights fr' = weights fr
    ∧ trace fr' = trace fr.
Proof.
  unfold bonds. rewrite String.eqb_refl. intros H.
  bind_inv H as u Hu. bind_inv H as thres Hthres.
  apply bind_Ok_inv in H as (fr2 & u2 & Hloop & H).
  bind_inv H as c Hc. bind_inv H as cu Hcu. bind_inv H as rep Hrep.
  injection H as <- <-.
  set (fr1 := {| trace := trace fr; mo := mo fr; mocc := mocc fr;
                 domain := domain fr; weights := weights fr;
                 centres := [replicate (length (alpha mol)) (0, 0);
                             replicate (length (beta mol)) (0, 0)] |}) in *.
  assert (∃ c0 c1, centres fr2 = [c0; c1]
    ∧ length c0 = length (alpha mol)
    ∧ length c1 = length (if closed_shell ref mol then alpha mol else beta mol)
    ∧ (closed_shell ref mol = true → c1 = c0)
    ∧ weights fr2 = weights fr ∧ trace fr2 = trace fr)
    as (c0 & c1 & Ec & L0 & L1 & Hsame & Hw & Ht).
  { destruct (closed_shell ref mol) eqn:Ecl.
    - cbn [for_each] in Hloop.
      apply bind_Ok_inv in Hloop as (fr3 & brk & Hspin & Hloop).
      apply centres_spin_closed in Hspin
        as (fr4 & ci & Hshape & Hci & Hlen & -> & ->); [|done].
      injection Hloop as <- _.
      destruct (shape_two fr1 fr4 _ _ Hshape eq_refl) as (a & b & Ea & La & Lb).
      rewrite Ea in Hci. injection Hci as <-.
      destruct Hshape as (_ & Hw & _ & Ht).
      exists a, a. simpl. rewrite Ea. simpl.
      rewrite length_replicate in La. by split_and!.
    - assert (sat centres_shape (fun _ => True)
                (for_each (centres_spin mol ref thres)
                   [(0, alpha mol); (1, beta mol)])) as Hsat.
      { apply sat_for_each; [apply _ .. |]. intros ix _.
        by apply centres_spin_open. }
      apply Hsat in Hloop as [Hshape _].
      destruct (shape_two fr1 fr2 _ _ Hshape eq_refl) as (a & b & Ea & La & Lb).
      destruct Hshape as (_ & Hw & _ & Ht).
      rewrite length_replicate in La, Lb.
      exists a, b. by split_and!. }
  exists c0, c1. rewrite Ec in Hcu, Hrep. simpl in Hcu. injection Hcu as <-.
  simpl in Hrep. injection Hrep as <-. by split_and!.
Qed.

End BondsFacts.

(** ** assign_rdm1s under the closed-shell reduction *)

Global Instance keeps_obs_refl : Reflexive keeps_obs.
Proof. by intros fr. Qed.

Global Instance keeps_obs_trans : Transitive keeps_obs.
Proof. intros a b c (H1 & H2 & H3) (H4 & H5 & H6). split_and!; congruence. Qed.

Lemma sat_keeps_modify (f : frame → frame) :
  (∀ fr, keeps_obs fr (f fr)) → sat keeps_obs (fun _ => True) (modify f).
Proof. intros Hf fr fr' r [= <- <-]. by split. Qed.

Lemma sat_keeps_lift {A} (r : result A) : sat keeps_obs (fun _ => True) (lift r).
Proof. intros fr fr' r' [= <- <-]. by split. Qed.

Lemma sat_keeps_gets {A} (f : frame → A) : sat keeps_obs (fun _ => True) (gets f).
Proof. intros fr fr' r' [= <- <-]. by split. Qed.

Lemma sat_keeps_ret {A} (a : A) : sat keeps_obs (fun _ => True) (ret a).
Proof. intros fr fr' r' [= <- <-]. by split. Qed.

(** Discharge [sat keeps_obs] along the structure of a computation that
    neither runs the kernel nor assigns the weights. *)
Ltac keeps_tac :=
  repeat first
    [ apply sat_keeps_ret | apply sat_keeps_gets | apply sat_keeps_lift
    | apply sat_keeps_modify; intros ?; split_and!; [reflexivity | | reflexivity];
      cbn [trace]; rewrite ?weighed_app, ?app_nil_r; reflexivity
    | sat_seq ].

Lemma sat_keeps_print_spin ix : sat keeps_obs (fun _ => True) (print_spin ix).
Proof.
  destruct ix as [i idx]. unfold print_spin.
  sat_seq; [apply sat_keeps_gets |].
  sat_seq; [|apply sat_keeps_ret].
  apply sat_for_each; [apply _ .. |]. intros j _.
  unfold print_row, emit. keeps_tac.
Qed.

Section Populations.

Variable reference_mol : Mole → Mole.
Variable lo_iao : Mole → coeffs → coeffs.
Variable lo_vec_lowdin : coeffs → matrix → coeffs.
Variable num_threads : nat.
Variable schedule : nat → list nat.
Variable mol : Mole.
Variable s : matrix.
Variable mo_coeff : coeffs * coeffs.
Variable mo_occ : vector * vector.
Variable ref pop : string.
Variable multiproc : bool.
Variable verbose : Z.

(** A pass of the loop of line 103 that returns, for channel [i] with the
    occupied orbitals [idx]: one kernel run per orbital, the list of their
    values stored for channel [i] (and, under the closed-shell reduction,
    for channel [i + 1], followed by [break]); [domain] is left at the
    positions of [idx]. *)
Lemma weights_spin_Ok i idx fr fr' b :
  weights_spin reference_mol lo_iao lo_vec_lowdin num_threads schedule
    mol s mo_coeff mo_occ ref pop multiproc (i, idx) fr = (fr', Ok b) →
  ∃ ws es,
    b = closed_shell ref mol
    ∧ weights fr'
      = (if closed_shell ref mol then <[i + 1 := ws]> (<[i := ws]> (weights fr))
         else <[i := ws]> (weights fr))
    ∧ domain fr' = seq 0 (length idx)
    ∧ weighed (trace fr') = weighed (trace fr) ++ es
    ∧ es ≡ₚ map (pair i) (seq 0 (length idx)).
Proof.
  unfold weights_spin. intros H.
  apply bind_Ok_inv in H as (fr1 & u & Hmo & H).
  assert (keeps_obs fr fr1) as (Hw1 & Ht1 & _).
  { assert (sat keeps_obs (fun _ => True)
      (if (pop =? "mulliken")%string
       then (c <- lift (a <- sel2 mo_coeff i;; take a idx)%res;; set_mo c)%st
       else if (pop =? "iao")%string
            then (c <- lift (a <- sel2 mo_coeff i;; take a idx)%res;;
                  c' <- lift (a <- sel2 mo_coeff i;; take a idx)%res;;
                  m <- lift (contract_ki_kl_lj_ij
                               (lo_vec_lowdin (lo_iao mol c) s) s c');;
                  set_mo m)%st
            else ret ())) as Hsat.
    { unfold set_mo. repeat case_match; keeps_tac. }
    by apply Hsat in Hmo as [? _]. }
  bind_inv H as o Ho. bind_inv H as u1 Hu1. bind_inv H as u2 Hu2.
  bind_inv H as d Hd. simpl in H.
  apply bind_Ok_inv in H as (fr2 & ws & Hrun & H).
  assert (∃ es, weights fr2 = weights fr ∧ trace fr2 = trace fr1 ++ es
                ∧ domain fr2 = seq 0 (length idx)
                ∧ es ≡ₚ map (Weighed i) (seq 0 (length idx)))
    as (es & Hw2 & Ht2 & Hd2 & Hes).
  { destruct multiproc.
    - apply pool_map_Ok_inv in Hrun as (_ & es & -> & Hes & _).
      exists es. by split_and!.
    - apply smap_kernel_Ok in Hrun as [-> _].
      exists (map (Weighed i) (seq 0 (length idx))). by split_and!. }
  bind_inv H as w Hw. bind_inv H as w' Hw'. bind_inv H as u3 Hu3.
  unfold assign_at in Hw'.
  destruct (i <? length (weights fr2)) eqn:Ei; [|discriminate].
  injection Hw' as <-. apply Nat.ltb_lt in Ei.
  assert (weighed es ≡ₚ map (pair i) (seq 0 (length idx))) as Hes'.
  { rewrite <- weighed_Weighed. unfold weighed. by apply omap_Permutation. }
  destruct (closed_shell ref mol).
  - bind_inv H as w2 Hw2'. bind_inv H as wi Hwi. bind_inv H as w3 Hw3.
    bind_inv H as u4 Hu4. injection H as <- <-.
    unfold assign_at in Hw3. simpl in Hwi, Hw3.
    apply of_option_Ok in Hwi.
    rewrite list_lookup_insert_eq in Hwi by done. injection Hwi as <-.
    destruct (i + 1 <? _); [|discriminate]. injection Hw3 as <-.
    exists ws, (weighed es). simpl. split_and!; try done.
    + by rewrite Hw2.
    + by rewrite Ht2, weighed_app, Ht1.
  - injection H as <- <-.
    exists ws, (weighed es). simpl. split_and!; try done.
    + by rewrite Hw2.
    + by rewrite Ht2, weighed_app, Ht1.
Qed.

Lemma sat_keeps_verbose :
  sat keeps_obs (fun _ => True)
    (if (0 <? verbose)%Z
     then for_each print_spin [(0, alpha mol); (1, beta mol)]
     else ret ()).
Proof.
  destruct (0 <? verbose)%Z; [|apply sat_keeps_ret].
  apply sat_for_each; [apply _ .. |]. intros ix _. apply sat_keeps_print_spin.
Qed.

(** Lines 99-137, when they return: the weights of the two channels, the
    domain left behind, and the kernel runs. *)
Lemma populations_Ok fr0 fr1 u :
  populations reference_mol lo_iao lo_vec_lowdin num_threads schedule
    mol s mo_coeff mo_occ ref pop multiproc verbose fr0 = (fr1, Ok u) →
  domain fr1 = seq 0 (length (last_channel ref mol))
  ∧ ∃ w0 w1 es,
      weights fr1 = [w0; w1]
      ∧ (closed_shell ref mol = true →
         w1 = w0 ∧ es ≡ₚ map (pair 0) (seq 0 (length (alpha mol))))
      ∧ weighed (trace fr1) = weighed (trace fr0) ++ es.
Proof.
  unfold populations, last_channel. intros H.
  bind_inv H as u0 Hu0. cbn [for_each] in H.
  apply bind_Ok_inv in H as (frB & u1 & Hloop & H).
  apply sat_keeps_verbose in H as [(Hw1 & Ht1 & Hd1) _].
  apply bind_Ok_inv in Hloop as (frA & brk & Hspin & Hloop).
  apply weights_spin_Ok in Hspin as (ws & es & -> & Hw & Hd & Ht & Hes).
  rewrite Hw1, Ht1, Hd1. clear Hw1 Ht1 Hd1.
  destruct (closed_shell ref mol) eqn:Ecl.
  - injection Hloop as <- _. split; [done |].
    exists ws, ws, es. rewrite Hw, Ht. by split_and!.
  - apply bind_Ok_inv in Hloop as (frC & brk & Hspin & Hloop).
    apply weights_spin_Ok in Hspin as (ws' & es' & -> & Hw' & Hd' & Ht' & Hes').
    rewrite Ecl in Hloop, Hw'.
    injection Hloop as <- _. split; [done |].
    exists ws, ws', (es ++ es'). rewrite Hw', Hw, Ht', Ht. simpl.
    split_and!; [done | discriminate | by rewrite app_assoc].
Qed.

(** A call under the closed-shell reduction that returns: one kernel run
    per alpha orbital and none for beta; the weights, the centres, the
    distinct centre pairs and the groups of beta are those of alpha. *)
Lemma assign_rdm1s_closed_Ok part (kwargs : gmap string Q) fr0 fr' res :
  closed_shell ref mol = true →
  assign_rdm1s reference_mol lo_iao lo_vec_lowdin num_threads schedule
    mol s mo_coeff mo_occ ref pop part multiproc verbose kwargs fr0 = (fr', Ok res) →
  (∃ ws, weights fr' = [ws; ws])
  ∧ match res with
    | Weights w => ∃ ws, w = [ws; ws]
    | Bonds rep_idx centres_unique =>
        ∃ r cu c, rep_idx = [r; r] ∧ centres_unique = [cu; cu]
                  ∧ centres fr' = [c; c]
    end
  ∧ ∃ es, weighed (trace fr') = weighed (trace fr0) ++ es
          ∧ es ≡ₚ map (pair 0) (seq 0 (length (alpha mol))).
Proof.
  intros closed. unfold assign_rdm1s. intros H.
  apply bind_Ok_inv in H as (fr1 & u & Hpop & H).
  apply populations_Ok in Hpop as (_ & ws & w1 & es & Hw & Hcl & Ht).
  destruct (Hcl closed) as [-> Hes].
  apply bind_Ok_inv in H as (fr2 & bound & Hb & H).
  unfold bonds in Hb. destruct (part =? "bonds")%string eqn:Ep.
  - apply String.eqb_eq in Ep as ->.
    assert (bonds mol ref "bonds" kwargs fr1 = (fr2, Ok bound)) as Hb'
      by (unfold bonds; exact Hb).
    apply bonds_Ok in Hb' as (c0 & c1 & -> & Ec & _ & _ & Hsame & Hw2 & Ht2).
    rewrite (Hsame closed) in *.
    simpl in H. injection H as <- <-.
    split_and!.
    + exists ws. congruence.
    + by exists (map (where_rows c0) (np_unique c0)), (np_unique c0), c0.
    + exists es. by rewrite Ht2.
  - injection Hb as <- <-.
    destruct ((part =? "atoms")%string || (part =? "eda")%string); [|discriminate].
    bind_inv H as w Hw'. injection H as <- <-.
    split_and!; [by exists ws | by exists ws | by exists es].
Qed.

End Populations.

(** ** The bond-wise rule on the orbitals the loop visits *)

Lemma insert_idx_Permutation w j l : insert_idx w j l ≡ₚ j :: l.
Proof.
  induction l as [|k l IH]; simpl; [done |].
  destruct (Qle_bool _ _); [done |].
  rewrite IH. apply Permutation_swap.
Qed.

Lemma argsort_Permutation w : argsort w ≡ₚ seq 0 (length w).
Proof.
  unfold argsort. induction (seq 0 (length w)) as [|j l IH]; simpl; [done |].
  by rewrite insert_idx_Permutation, IH.
Qed.

Lemma insert_idx_sorted w j l :
  StronglySorted (wt_le w) l → StronglySorted (wt_le w) (insert_idx w j l).
Proof.
  induction 1 as [|k l Hs IH Hk]; simpl.
  - repeat constructor.
  - destruct (Qle_bool (wt w j) (wt w k)) eqn:E.
    + apply Qle_bool_iff in E. constructor; [by constructor |].
      constructor; [done |].
      eapply Forall_impl; [exact Hk |]. intros x Hx. unfold wt_le in *.
      by eapply Qle_trans.
    + assert (wt_le w k j) as Hkj.
      { unfold wt_le. destruct (Qlt_le_dec (wt w k) (wt w j)) as [Hlt|Hle].
        - by apply Qlt_le_weak.
        - apply Qle_bool_iff in Hle. congruence. }
      constructor; [done |].
      apply Forall_forall. intros x Hx.
      rewrite insert_idx_Permutation in Hx.
      apply elem_of_cons in Hx as [->|Hx]; [done |].
      rewrite Forall_forall in Hk. by apply Hk.
Qed.

Lemma argsort_sorted w : StronglySorted (wt_le w) (argsort w).
Proof.
  unfold argsort. induction (seq 0 (length w)) as [|j l IH]; simpl;
    [constructor | by apply insert_idx_sorted].
Qed.

Lemma elem_of_argsort w k : k ∈ argsort w ↔ k < length w.
Proof. rewrite argsort_Permutation, elem_of_seq. lia. Qed.

Lemma argsort_NoDup w : NoDup (argsort w).
Proof. rewrite argsort_Permutation. apply NoDup_seq. Qed.

(** The first index of the reversed argsort holds a largest weight. *)
Lemma argsort_last_is_argmax w m0 :
  reverse (argsort w) !! 0 = Some m0 → is_argmax w m0.
Proof.
  pose proof (argsort_sorted w) as Hs. pose proof (elem_of_argsort w) as Hin.
  destruct (argsort w) as [|x l] using rev_ind; [discriminate |].
  clear IHl. rewrite reverse_snoc. intros [= ->]. split.
  - apply Hin, elem_of_app. right. by left.
  - intros k Hk. apply Hin, elem_of_app in Hk as [Hk|Hk%list_elem_of_singleton].
    + apply (StronglySorted_app_1_elem_of _ _ _ _ _ Hs Hk). by left.
    + subst. apply Qle_refl.
Qed.

(** The second index of the reversed argsort holds a largest weight among
    the other indices. *)
Lemma argsort_second w m0 m1 :
  reverse (argsort w) !! 0 = Some m0 →
  reverse (argsort w) !! 1 = Some m1 →
  is_second w m0 m1.
Proof.
  pose proof (argsort_sorted w) as Hs. pose proof (elem_of_argsort w) as Hin.
  pose proof (argsort_NoDup w) as Hnd.
  destruct (argsort w) as [|x l _] using rev_ind; [discriminate |].
  rewrite reverse_snoc. intros [= ->].
  destruct l as [|y l _] using rev_ind; [discriminate |].
  rewrite reverse_snoc. intros [= ->].
  split_and!.
  - apply Hin. rewrite !elem_of_app. left. right. by left.
  - intros ->. rewrite <- app_assoc in Hnd. simpl in Hnd.
    apply NoDup_app in Hnd as (_ & _ & Hnd).
    apply NoDup_cons in Hnd as [Hnd _]. apply Hnd. by left.
  - intros k Hk Hne. apply Hin in Hk.
    rewrite !elem_of_app, !list_elem_of_singleton in Hk.
    destruct Hk as [[Hk| ->]|Hk]; [| apply Qle_refl | done].
    apply StronglySorted_app_1_l in Hs.
    apply (StronglySorted_app_1_elem_of _ _ _ _ _ Hs Hk). by left.
Qed.

(** The pair of the rule: the single centre [m0] when the largest weight
    exceeds the threshold in absolute value, and else the two centres in
    ascending order. *)
Lemma bond_rule_cases thres w m0 m1 :
  ((thres < Qabs (wt w m0))%Q ∧ bond_rule thres w m0 m1 = (m0, m0))
  ∨ ((Qabs (wt w m0) <= thres)%Q
     ∧ bond_rule thres w m0 m1 = (m0 `min` m1, m0 `max` m1)).
Proof.
  unfold bond_rule. destruct (Qle_bool (Qabs (wt w m0)) thres) eqn:E; simpl.
  - right. split; [by apply Qle_bool_iff |].
    unfold sort2. destruct (m0 <=? m1) eqn:El.
    + apply Nat.leb_le in El. f_equal; lia.
    + apply Nat.leb_gt in El. f_equal; lia.
  - left. split; [|done].
    destruct (Qlt_le_dec thres (Qabs (wt w m0))) as [Hlt|Hle]; [done |].
    apply Qle_bool_iff in Hle. congruence.
Qed.

Lemma centre_at_set fr i j p ci i' j' :
  centres fr !! i = Some ci → j < length ci →
  centre_at (set_centres (<[i := <[j := p]> ci]> (centres fr)) fr).1 i' j'
  = if decide (i' = i ∧ j' = j) then Some p else centre_at fr i' j'.
Proof.
  intros Hci Hj. unfold centre_at. simpl.
  destruct (decide (i' = i)) as [->|Hi].
  - rewrite list_lookup_insert_eq by (by eapply lookup_lt_Some). rewrite Hci.
    destruct (decide (j' = j)) as [->|Hne].
    + rewrite decide_True by done. by apply list_lookup_insert_eq.
    + rewrite decide_False by tauto. by apply list_lookup_insert_ne.
  - rewrite decide_False by tauto. by rewrite list_lookup_insert_ne.
Qed.

Lemma follows_rule_argsort thres w m0 m1 :
  reverse (argsort w) !! 0 = Some m0 →
  (Qle_bool (Qabs (wt w m0)) thres = true → reverse (argsort w) !! 1 = Some m1) →
  follows_rule thres w (bond_rule thres w m0 m1).
Proof.
  intros H0 H1. exists m0, m1. split_and!; [by apply argsort_last_is_argmax | | done].
  intros Hle. apply argsort_second; [done |]. by apply H1, Qle_bool_iff.
Qed.

(** The loop over orbitals of lines 147-156, when it returns: every orbital
    of [d] has the pair of the rule for its weights, and no other entry of
    the centres arrays has changed. *)
Lemma centre_loop_Ok thres i d fr fr' u :
  NoDup d →
  for_each (centre_orb thres i) d fr = (fr', Ok u) →
  (∀ i' j, i' ≠ i ∨ j ∉ d → centre_at fr' i' j = centre_at fr i' j)
  ∧ (∀ j, j ∈ d →
       ∃ wi w p, weights fr !! i = Some wi ∧ wi !! j = Some w
                 ∧ centre_at fr' i j = Some p ∧ follows_rule thres w p).
Proof.
  intros Hnd. revert fr. induction Hnd as [|j0 d Hj0 Hnd IH]; intros fr H.
  - injection H as <- _. split; [done |]. intros j Hj. by apply elem_of_nil in Hj.
  - cbn [for_each] in H.
    apply bind_Ok_inv in H as (fr1 & brk & Horb & H).
    pose proof (centre_orb_shape thres i j0 _ _ _ Horb) as [(_ & Hw1 & _) _].
    apply centre_orb_Ok in Horb
      as (wi & w & m0 & m1 & ci & Hwi & Hw & Hm0 & Hm1 & Hci & Hlt & -> & ->).
    apply IH in H as [Hother Hrule]. split.
    + intros i' j Hij. rewrite Hother.
      * rewrite (centre_at_set _ _ _ _ _ _ _ Hci Hlt).
        rewrite decide_False; [done |]. intros [-> ->].
        destruct Hij as [?|Hij]; [done |]. apply Hij. by left.
      * destruct Hij as [?|Hij]; [by left | right].
        intros ?. apply Hij. by right.
    + intros j [->|Hj]%elem_of_cons.
      * exists wi, w, (bond_rule thres w m0 m1). split_and!; [done | done | |].
        -- rewrite Hother by (by right).
           rewrite (centre_at_set _ _ _ _ _ _ _ Hci Hlt).
           by rewrite decide_True.
        -- by apply follows_rule_argsort.
      * destruct (Hrule j Hj) as (wi' & w' & p & Hwi' & Hw' & Hp & Hr).
        exists wi', w', p. by rewrite <- Hw1.
Qed.

Section BondsRule.

Variable mol : Mole.
Variable ref : string.

(** Lines 140-163, when they return: every orbital position of [domain]
    has, in both channels, the pair of the rule for its weights (beta's
    pair being alpha's under the closed-shell reduction). *)
Lemma bonds_rule_Ok (kwargs : gmap string Q) thres fr fr' bound :
  kwargs !! "thres" = Some thres →
  NoDup (domain fr) →
  bonds mol ref "bonds" kwargs fr = (fr', Ok bound) →
  ∀ i j, i < 2 → j ∈ domain fr →
    ∃ wi w p,
      weights fr !! (if closed_shell ref mol then 0 else i) = Some wi
      ∧ wi !! j = Some w
      ∧ centre_at fr' i j = Some p
      ∧ follows_rule thres w p.
Proof.
  intros Hk Hnd. unfold bonds. rewrite String.eqb_refl. intros H.
  bind_inv H as u Hu. bind_inv H as thres' Hthres.
  rewrite Hk in Hthres. injection Hthres as <-.
  apply bind_Ok_inv in H as (fr2 & u2 & Hloop & H).
  bind_inv H as c Hc. bind_inv H as cu Hcu. bind_inv H as rep Hrep.
  injection H as <- _.
  set (fr1 := {| trace := trace fr; mo := mo fr; mocc := mocc fr;
                 domain := domain fr; weights := weights fr;
                 centres := [replicate (length (alpha mol)) (0, 0);
                             replicate (length (beta mol)) (0, 0)] |}) in *.
  cbn [for_each] in Hloop.
  apply bind_Ok_inv in Hloop as (frA & brk & Hspin & Hloop).
  unfold centres_spin in Hspin.
  bind_inv Hspin as d Hd.
  apply bind_Ok_inv in Hspin as (frL & u3 & HL & Hspin).
  pose proof (sat_centre_loop thres 0 _ _ _ _ HL) as [(_ & HwL & HdL & _) _].
  apply centre_loop_Ok in HL as [Hother0 Hrule0]; [|done].
  destruct (closed_shell ref mol) eqn:Ecl.
  - bind_inv Hspin as c0 Hc0. bind_inv Hspin as ci Hci.
    bind_inv Hspin as c' Hc'. bind_inv Hspin as u4 Hu4.
    injection Hspin as <- <-. injection Hloop as <- _.
    apply of_option_Ok in Hci. unfold assign_at in Hc'.
    destruct (0 + 1 <? length (centres frL)) eqn:El; [|discriminate].
    injection Hc' as <-. apply Nat.ltb_lt in El.
    intros i j Hi Hj.
    destruct (Hrule0 j Hj) as (wi & w & p & Hwi & Hw & Hp & Hr).
    exists wi, w, p. split_and!; [done | done | | done].
    unfold centre_at in *. simpl. rewrite Hci in Hp.
    destruct i as [|[|i]]; [| | lia].
    + rewrite list_lookup_insert_ne by done. by rewrite Hci.
    + by rewrite list_lookup_insert_eq.
  - injection Hspin as <- <-.
    apply bind_Ok_inv in Hloop as (frB & brk & Hspin & Hloop).
    unfold centres_spin in Hspin. rewrite Ecl in Hspin.
    bind_inv Hspin as d' Hd'.
    apply bind_Ok_inv in Hspin as (frM & u4 & HM & Hspin).
    injection Hspin as <- <-. injection Hloop as <- _.
    rewrite HdL in HM.
    apply centre_loop_Ok in HM as [Hother1 Hrule1]; [|done].
    intros i j Hi Hj. destruct i as [|[|i]]; [| | lia].
    + destruct (Hrule0 j Hj) as (wi & w & p & Hwi & Hw & Hp & Hr).
      exists wi, w, p. split_and!; try done.
      rewrite Hother1 by (left; lia). done.
    + destruct (Hrule1 j Hj) as (wi & w & p & Hwi & Hw & Hp & Hr).
      exists wi, w, p. rewrite HwL in Hwi. by split_and!.
Qed.

End BondsRule.

(** The rule of the bond-wise policy on the orbitals the loop visits: in a
    call with policy 'bonds' and threshold [thres] that returns, every
    orbital position below the size of the last channel treated by the
    weights loop (alpha under the closed-shell reduction, beta otherwise)
    has, in both channels, the pair of the rule for its weights: the single
    centre of the largest weight when that weight exceeds the threshold in
    absolute value, and else the centres of the two largest weights in
    ascending order. *)
Lemma bonds_rule_on_visited_orbitals
    (reference_mol : Mole → Mole) (lo_iao : Mole → coeffs → coeffs)
    (lo_vec_lowdin : coeffs → matrix → coeffs) (num_threads : nat)
    (schedule : nat → list nat) (mol : Mole) (s : matrix)
    (mo_coeff : coeffs * coeffs) (mo_occ : vector * vector) (ref pop : string)
    (multiproc : bool) (verbose : Z) (kwargs : gmap string Q) (thres : Q)
    (fr0 fr' : frame) (res : assigned) :
  kwargs !! "thres" = Some thres →
  assign_rdm1s reference_mol lo_iao lo_vec_lowdin num_threads schedule mol s
    mo_coeff mo_occ ref pop "bonds" multiproc verbose kwargs fr0 = (fr', Ok res) →
  ∀ i j, i < 2 → j < length (last_channel ref mol) →
    ∃ wi w p,
      weights fr' !! i = Some wi ∧ wi !! j = Some w
      ∧ centre_at fr' i j = Some p
      ∧ follows_rule thres w p.
Proof.
  intros Hk H i j Hi Hj. unfold assign_rdm1s in H.
  apply bind_Ok_inv in H as (fr1 & u & Hpop & H).
  apply bind_Ok_inv in H as (fr2 & bound & Hb & H).
  assert (fr' = fr2) as ->.
  { destruct bound as [[rep cu]|]; simpl in H; by injection H as <- _. }
  clear H.
  apply populations_Ok in Hpop as (Hd & w0 & w1 & es & Hw & Hcl & _).
  pose proof (bonds_Ok _ _ _ _ _ _ Hb) as (_ & _ & _ & _ & _ & _ & _ & Hw2 & _).
  destruct (bonds_rule_Ok mol ref kwargs thres fr1 fr2 bound Hk) with (i := i) (j := j)
    as (wi & w & p & Hwi & Hwj & Hp & Hr); try done.
  - rewrite Hd. apply NoDup_seq.
  - rewrite Hd. apply elem_of_seq. lia.
  - exists wi, w, p. split_and!; try done.
    rewrite Hw2, Hw. rewrite Hw in Hwi.
    destruct (closed_shell ref mol); [|done].
    destruct (Hcl eq_refl) as [-> _].
    destruct i as [|[|i]]; [done | done | lia].
Qed.

(** ** Parallel against sequential dispatch *)

Lemma same_locals_refl fr : same_locals fr fr.
Proof. by split_and!. Qed.

Lemma sim_bind {A B} (m1 m2 : St frame A) (k1 k2 : A → St frame B) :
  sim m1 m2 → (∀ a, sim (k1 a) (k2 a)) → sim (bind m1 k1) (bind m2 k2).
Proof.
  intros Hm Hk fr1 fr2 fr1' b Hfr H.
  apply bind_Ok_inv in H as (frm & a & Hma & Hkb).
  destruct (Hm _ _ _ _ Hfr Hma) as (frm2 & Hm2 & Hfrm).
  destruct (Hk a _ _ _ _ Hfrm Hkb) as (fr2' & Hk2 & Hfr').
  exists fr2'. split; [|done]. by rewrite (bind_Ok_run _ _ _ _ _ Hm2).
Qed.

Lemma sim_ret {A} (a : A) : sim (ret a) (ret a).
Proof. intros fr1 fr2 fr1' a' Hfr [= <- <-]. by exists fr2. Qed.

Lemma sim_lift {A} (r : result A) : sim (lift r) (lift r).
Proof. intros fr1 fr2 fr1' a' Hfr [= <- ->]. by exists fr2. Qed.

Lemma sim_gets {A} (f : frame → A) :
  (∀ fr1 fr2, same_locals fr1 fr2 → f fr1 = f fr2) → sim (gets f) (gets f).
Proof.
  intros Hf fr1 fr2 fr1' a' Hfr [= <- <-]. exists fr2.
  unfold gets. by rewrite (Hf _ _ Hfr).
Qed.

Lemma sim_modify (f : frame → frame) :
  (∀ fr1 fr2, same_locals fr1 fr2 → same_locals (f fr1) (f fr2)) →
  sim (modify f) (modify f).
Proof.
  intros Hf fr1 fr2 fr1' a' Hfr [= <- <-]. exists (f fr2). split; [done | auto].
Qed.

Lemma sim_for_each {A} (b1 b2 : A → St frame bool) xs :
  (∀ x, x ∈ xs → sim (b1 x) (b2 x)) → sim (for_each b1 xs) (for_each b2 xs).
Proof.
  induction xs as [|x xs IH]; intros Hb; simpl; [apply sim_ret |].
  apply sim_bind; [apply Hb; by left |].
  intros []; [apply sim_ret |]. apply IH. intros y Hy. apply Hb. by right.
Qed.

(** Discharge [sim m m] along the structure of [m]. *)
Ltac sim_tac :=
  repeat first
    [ apply sim_ret | apply sim_lift
    | apply sim_gets; intros ? ? (? & ? & ? & ? & ?); assumption
    | apply sim_modify; intros ? ? (? & ? & ? & ? & ?);
      split_and!; simpl; congruence
    | apply sim_bind; [| intros ?; cbv zeta] ].

Lemma sim_print_spin ix : sim (print_spin ix) (print_spin ix).
Proof.
  destruct ix as [i idx]. unfold print_spin.
  apply sim_bind; [sim_tac |]. intros d.
  apply sim_bind; [| intros ?; sim_tac].
  apply sim_for_each. intros j _. unfold print_row, emit. sim_tac.
Qed.

Lemma sim_centre_orb thres i j : sim (centre_orb thres i j) (centre_orb thres i j).
Proof.
  unfold centre_orb, set_centres.
  do 5 (apply sim_bind; [sim_tac | intros ?; cbv zeta]).
  apply sim_bind; [case_match; sim_tac |]. intros pr. sim_tac.
Qed.

Lemma sim_bonds mol ref part (kwargs : gmap string Q) :
  sim (bonds mol ref part kwargs) (bonds mol ref part kwargs).
Proof.
  unfold bonds, set_centres. case_match; [|apply sim_ret].
  apply sim_bind; [sim_tac |]. intros _.
  apply sim_bind; [sim_tac |]. intros thres.
  apply sim_bind; [| intros ?; sim_tac].
  apply sim_for_each. intros [i idx] _. unfold centres_spin, set_centres.
  apply sim_bind; [sim_tac |]. intros d.
  apply sim_bind; [apply sim_for_each; intros j _; apply sim_centre_orb |].
  intros _. case_match; sim_tac.
Qed.

Section Dispatch.

Variable reference_mol : Mole → Mole.
Variable lo_iao : Mole → coeffs → coeffs.
Variable lo_vec_lowdin : coeffs → matrix → coeffs.
Variable num_threads : nat.
Variable schedule : nat → list nat.
Variable mol : Mole.
Variable s : matrix.
Variable mo_coeff : coeffs * coeffs.
Variable mo_occ : vector * vector.
Variable ref pop part : string.
Variable verbose : Z.
Variable kwargs : gmap string Q.

Hypothesis threads : 0 < num_threads.

Lemma same_locals_logged fr1 fr2 es1 es2 :
  same_locals fr1 fr2 → same_locals (logged fr1 es1) (logged fr2 es2).
Proof. by intros (? & ? & ? & ? & ?). Qed.

(** The pool returns what the sequential map returns, for a channel with
    an orbital. *)
Lemma sim_dispatch i d :
  d ≠ [] →
  sim (smap (kernel reference_mol mol s pop i) d)
      (pool_map (length d `min` num_threads) (schedule i)
         (kernel reference_mol mol s pop i) d).
Proof.
  intros Hd fr1 fr2 fr1' ws Hfr Hseq.
  apply smap_kernel_Ok in Hseq as [-> Hws].
  assert (Forall2 (fun j w => kernel_value reference_mol mol s pop fr2 j = Ok w) d ws)
    as Hws2.
  { eapply Forall2_impl; [exact Hws |]. intros j w Hw. simpl in Hw.
    unfold kernel_value in *. destruct Hfr as (<- & <- & _). done. }
  assert (0 < length d `min` num_threads) as Hp.
  { apply Nat.min_glb_lt; [|done]. destruct d; [done | simpl; lia]. }
  destruct (pool_map_kernel reference_mol mol s pop i _ (schedule i) d fr2 ws
              Hp Hws2) as (es & Hrun & _).
  exists (logged fr2 es). split; [done | by apply same_locals_logged].
Qed.

(** [domain] is read right after it is assigned. *)
Lemma sim_set_domain {A} (D : list nat) (k1 k2 : list nat → St frame A) :
  sim (k1 D) (k2 D) →
  sim (set_domain D ;; d <- gets domain ;; k1 d)%st
      (set_domain D ;; d <- gets domain ;; k2 d)%st.
Proof.
  intros Hk fr1 fr2 fr1' a Hfr H.
  unfold bind, set_domain, modify, gets in *. simpl in *.
  eapply Hk; [|exact H].
  destruct Hfr as (? & ? & ? & ? & ?). by split_and!.
Qed.

Lemma sim_weights_spin i idx :
  idx ≠ [] →
  sim (weights_spin reference_mol lo_iao lo_vec_lowdin num_threads schedule
         mol s mo_coeff mo_occ ref pop false (i, idx))
      (weights_spin reference_mol lo_iao lo_vec_lowdin num_threads schedule
         mol s mo_coeff mo_occ ref pop true (i, idx)).
Proof.
  intros Hidx. unfold weights_spin.
  apply sim_bind; [unfold set_mo; repeat case_match; sim_tac |]. intros _.
  apply sim_bind; [sim_tac |]. intros o.
  apply sim_bind; [unfold set_mocc; sim_tac |]. intros _.
  apply sim_set_domain.
  apply sim_bind.
  { apply sim_dispatch. destruct idx; [done | discriminate]. }
  intros ws. unfold set_weights. case_match; sim_tac.
Qed.

(** With at least one thread and an occupied orbital in each channel, a
    parallel call returns whatever the sequential call returns: the same
    weights in the same order, or the same groups and centre pairs. *)
Lemma parallel_returns_what_sequential_returns fr0 fr1 res :
  alpha mol ≠ [] → beta mol ≠ [] →
  assign_rdm1s reference_mol lo_iao lo_vec_lowdin num_threads schedule mol s
    mo_coeff mo_occ ref pop part false verbose kwargs fr0 = (fr1, Ok res) →
  ∃ fr2,
    assign_rdm1s reference_mol lo_iao lo_vec_lowdin num_threads schedule mol s
      mo_coeff mo_occ ref pop part true verbose kwargs fr0 = (fr2, Ok res)
    ∧ same_locals fr1 fr2.
Proof.
  intros Ha Hb H.
  assert (sim
    (assign_rdm1s reference_mol lo_iao lo_vec_lowdin num_threads schedule mol s
       mo_coeff mo_occ ref pop part false verbose kwargs)
    (assign_rdm1s reference_mol lo_iao lo_vec_lowdin num_threads schedule mol s
       mo_coeff mo_occ ref pop part true verbose kwargs)) as Hsim.
  { unfold assign_rdm1s. apply sim_bind.
    - unfold populations. cbv zeta.
      apply sim_bind; [unfold set_weights; sim_tac |]. intros _.
      apply sim_bind.
      + apply sim_for_each. intros [i idx] Hix. apply sim_weights_spin.
        apply elem_of_cons in Hix as [[= -> ->]|Hix]; [done |].
        apply elem_of_cons in Hix as [[= -> ->]|Hix]; [done |].
        by apply elem_of_nil in Hix.
      + intros _. case_match; [|apply sim_ret].
        apply sim_for_each. intros ix _. apply sim_print_spin.
    - intros _. apply sim_bind; [apply sim_bonds |]. intros bound.
      case_match; [sim_tac |]. destruct bound as [[rep cu]|]; [apply sim_ret |].
      intros ? ? ? ? ?. discriminate. }
  exact (Hsim fr0 fr0 fr1 res (same_locals_refl fr0) H).
Qed.

End Dispatch.

(** *** The claim about the closed-shell reduction *)

(** C1: for a molecule with spin 0 in a restricted reference (whose two
    channels occupy the same orbitals), calls of [loc_orbs] and
    [assign_rdm1s] that return have treated the alpha channel only.
    [loc_orbs] has run the localizer once, on channel 0 (not at all for a
    variant it does not recognise), and the occupied columns of the beta
    array are those of the alpha array.  [assign_rdm1s] has run the kernel
    once per alpha orbital and never for beta, and the weights, the centres,
    the distinct centre pairs and the groups of beta are those of alpha. *)
Theorem closed_shell_beta_is_alpha
    (lo_Boys lo_PM : Mole → coeffs → Q → loc_result)
    (lo_iao : Mole → coeffs → coeffs) (lo_vec_lowdin : coeffs → matrix → coeffs)
    (lo_ibo : Mole → coeffs → coeffs → Q → nat → loc_result)
    (reference_mol : Mole → Mole) (num_threads : nat) (schedule : nat → list nat)
    (mol : Mole) (s : matrix) (ref variant : string) (st st' : lstate)
    (coeff : coeffs * coeffs) (mo_occ : vector * vector) (pop part : string)
    (multiproc : bool) (verbose : Z) (kwargs : gmap string Q)
    (fr' : frame) (res : assigned) :
  ref = "restricted" →
  spin mol = 0%Z →
  beta mol = alpha mol →
  loc_orbs lo_Boys lo_PM lo_iao lo_vec_lowdin lo_ibo mol s ref variant st
    = (st', Ok tt) →
  assign_rdm1s reference_mol lo_iao lo_vec_lowdin num_threads schedule mol s
    coeff mo_occ ref pop part multiproc verbose kwargs initial_frame
    = (fr', Ok res) →
  (∃ cols calls,
     take (arr (mo_coeff st') 0) (alpha mol) = Ok cols
     ∧ take (arr (mo_coeff st') 1) (beta mol) = Ok cols
     ∧ ran st' = ran st ++ calls
     ∧ length calls = (if recognised variant then 1 else 0)
     ∧ Forall (fun c => chan_of c = 0) calls)
  ∧ (∃ ws, weights fr' = [ws; ws])
  ∧ match res with
    | Weights w => ∃ ws, w = [ws; ws]
    | Bonds rep_idx centres_unique =>
        ∃ r cu c, rep_idx = [r; r] ∧ centres_unique = [cu; cu]
                  ∧ centres fr' = [c; c]
    end
  ∧ weighed (trace fr') ≡ₚ map (pair 0) (seq 0 (length (alpha mol))).
Proof.
  intros -> Hspin Hocc Hloc Hassign.
  assert (closed_shell "restricted" mol = true) as Hc.
  { unfold closed_shell. rewrite Hspin. done. }
  split.
  - rewrite Hocc. by eapply loc_orbs_closed.
  - eapply assign_rdm1s_closed_Ok in Hassign
      as (Hw & Hres & es & Ht & Hes); [|done].
    split_and!; [done | done |].
    rewrite Ht. simpl. done.
Qed.

Lemma closed_shell_beta_is_alpha_witness :
  (∃ cols calls,
     take (arr (mo_coeff (loc_orbs (flip_loc true) (flip_loc true) id_iao
                            id_lowdin (flip_ibo true) mol_closed s_two
                            "restricted" "fb" st_two).1) 0)
       (alpha mol_closed) = Ok cols
     ∧ take (arr (mo_coeff (loc_orbs (flip_loc true) (flip_loc true) id_iao
                              id_lowdin (flip_ibo true) mol_closed s_two
                              "restricted" "fb" st_two).1) 1)
         (beta mol_closed) = Ok cols
     ∧ ran (loc_orbs (flip_loc true) (flip_loc true) id_iao id_lowdin
              (flip_ibo true) mol_closed s_two "restricted" "fb" st_two).1
       = ran st_two ++ calls
     ∧ length calls = (if recognised "fb" then 1 else 0)
     ∧ Forall (fun c => chan_of c = 0) calls)
  ∧ (∃ ws, weights (assign_rdm1s id_mol id_iao id_lowdin 1 in_order mol_closed
                      s_two (c_two, c_two) occ_closed "restricted" "mulliken"
                      "bonds" true 1 kw_thres initial_frame).1 = [ws; ws])
  ∧ (∃ r cu c, [[[0]]; [[0]]] = [r; r] ∧ [[(0, 0)]; [(0, 0)]] = [cu; cu]
               ∧ centres (assign_rdm1s id_mol id_iao id_lowdin 1 in_order
                            mol_closed s_two (c_two, c_two) occ_closed
                            "restricted" "mulliken" "bonds" true 1 kw_thres
                            initial_frame).1 = [c; c])
  ∧ weighed (trace (assign_rdm1s id_mol id_iao id_lowdin 1 in_order mol_closed
                      s_two (c_two, c_two) occ_closed "restricted" "mulliken"
                      "bonds" true 1 kw_thres initial_frame).1)
    ≡ₚ map (pair 0) (seq 0 (length (alpha mol_closed))).
Proof.
  apply (closed_shell_beta_is_alpha (flip_loc true) (flip_loc true) id_iao
           id_lowdin (flip_ibo true) id_mol 1 in_order mol_closed s_two
           "restricted" "fb" st_two _ (c_two, c_two) occ_closed "mulliken"
           "bonds" true 1 kw_thres _ (Bonds [[[0]]; [[0]]] [[(0, 0)]; [(0, 0)]])).
  - reflexivity.
  - reflexivity.
  - reflexivity.
  - vm_compute. reflexivity.
  - vm_compute. reflexivity.
Defined.

(** *** The claims about the bond-wise partitioning and the dispatch *)

(** C4: under the 'bonds' policy a call that returns hands back, for each
    spin channel, groups of orbital positions that partition the positions
    [0 .. n-1] of the channel's occupied orbitals (their concatenation is a
    permutation of the positions, so the union is complete and no position
    is in two groups), one group per distinct centre pair, and as second
    value exactly the distinct centre pairs of the channel's centres array.
    A closed-shell molecule has as many beta as alpha orbitals. *)
Theorem bonds_groups_partition_orbitals
    (reference_mol : Mole → Mole) (lo_iao : Mole → coeffs → coeffs)
    (lo_vec_lowdin : coeffs → matrix → coeffs) (num_threads : nat)
    (schedule : nat → list nat) (mol : Mole) (s : matrix)
    (mo_coeff : coeffs * coeffs) (mo_occ : vector * vector) (ref pop : string)
    (multiproc : bool) (verbose : Z) (kwargs : gmap string Q)
    (fr0 fr' : frame) (res : assigned) :
  (closed_shell ref mol = true → length (beta mol) = length (alpha mol)) →
  assign_rdm1s reference_mol lo_iao lo_vec_lowdin num_threads schedule mol s
    mo_coeff mo_occ ref pop "bonds" multiproc verbose kwargs fr0 = (fr', Ok res) →
  ∃ rep0 rep1 cu0 cu1 c0 c1,
    res = Bonds [rep0; rep1] [cu0; cu1]
    ∧ centres fr' = [c0; c1]
    ∧ groups_of (length (alpha mol)) rep0 cu0 c0
    ∧ groups_of (length (beta mol)) rep1 cu1 c1.
Proof.
  intros Hwf H. unfold assign_rdm1s in H.
  apply bind_Ok_inv in H as (fr1 & u & _ & H).
  apply bind_Ok_inv in H as (fr2 & bound & Hb & H).
  apply bonds_Ok in Hb as (c0 & c1 & -> & Ec & L0 & L1 & _).
  simpl in H. injection H as <- <-.
  exists (map (where_rows c0) (np_unique c0)), (map (where_rows c1) (np_unique c1)),
    (np_unique c0), (np_unique c1), c0, c1.
  split_and!; [done | done | |].
  - rewrite <- L0. apply groups_of_unique.
  - replace (length (beta mol)) with (length c1); [apply groups_of_unique |].
    rewrite L1. destruct (closed_shell ref mol); [by rewrite Hwf | done].
Qed.

Lemma bonds_groups_partition_orbitals_witness :
  ∃ rep0 rep1 cu0 cu1 c0 c1,
    Bonds [[[0; 1]]; [[0]]] [[(0, 0)]; [(0, 0)]] = Bonds [rep0; rep1] [cu0; cu1]
    ∧ centres (assign_rdm1s id_mol id_iao id_lowdin 1 in_order mol_open s_two
                 (c_two, c_two) occ_open "unrestricted" "mulliken" "bonds"
                 false 0 kw_thres initial_frame).1 = [c0; c1]
    ∧ groups_of (length (alpha mol_open)) rep0 cu0 c0
    ∧ groups_of (length (beta mol_open)) rep1 cu1 c1.
Proof.
  apply (bonds_groups_partition_orbitals id_mol id_iao id_lowdin 1 in_order
           mol_open s_two (c_two, c_two) occ_open "unrestricted" "mulliken"
           false 0 kw_thres initial_frame).
  - intros H. vm_compute in H. discriminate.
  - vm_compute. reflexivity.
Defined.

(** C3, at an open-shell input the code can receive (two alpha orbitals,
    one beta orbital, threshold 0.9).  The weights of alpha orbital 1 are
    (49/625, 576/625): the largest sits on atom 1 and exceeds the threshold,
    so the rule of the claim assigns the pair (1, 1).  The loop of line 147
    runs over the [domain] left by the last pass of the weights loop, the
    beta one, which has a single orbital: alpha orbital 1 is never visited,
    keeps the initial pair (0, 0) and is returned in the group of atom 0. *)
Theorem bonds_leaves_orbitals_beyond_last_domain :
  map (map (map Qred))
    (weights (assign_rdm1s id_mol id_iao id_lowdin 1 in_order mol_open s_two
                (c_two, c_two) occ_open "unrestricted" "mulliken" "bonds"
                false 0 kw_thres initial_frame).1)
  = [[[576 # 625; 49 # 625]; [49 # 625; 576 # 625]]; [[576 # 625; 49 # 625]]]%Q
  ∧ reverse (argsort [49 # 625; 576 # 625]%Q) = [1; 0]
  ∧ bond_rule (9 # 10) [49 # 625; 576 # 625]%Q 1 0 = (1, 1)
  ∧ domain (assign_rdm1s id_mol id_iao id_lowdin 1 in_order mol_open s_two
              (c_two, c_two) occ_open "unrestricted" "mulliken" "bonds"
              false 0 kw_thres initial_frame).1 = [0]
  ∧ centres (assign_rdm1s id_mol id_iao id_lowdin 1 in_order mol_open s_two
               (c_two, c_two) occ_open "unrestricted" "mulliken" "bonds"
               false 0 kw_thres initial_frame).1 = [[(0, 0); (0, 0)]; [(0, 0)]]
  ∧ (assign_rdm1s id_mol id_iao id_lowdin 1 in_order mol_open s_two
       (c_two, c_two) occ_open "unrestricted" "mulliken" "bonds"
       false 0 kw_thres initial_frame).2
    = Ok (Bonds [[[0; 1]]; [[0]]] [[(0, 0)]; [(0, 0)]]).
Proof. split_and!; by vm_compute. Qed.

(** C5, at a one-electron atom in an unrestricted reference (one alpha
    orbital, no beta orbital).  The sequential dispatch returns the weights
    of both channels, the beta list being empty.  The parallel dispatch
    sizes the pool of the beta channel to min(0, lib.num_threads()) = 0
    processes, and creating that pool raises [ValueError]: the two modes
    differ. *)
Theorem pool_dispatch_fails_on_empty_channel :
  (assign_rdm1s id_mol id_iao id_lowdin 4 in_order mol_h s_h (c_h, c_h) occ_h
     "unrestricted" "mulliken" "atoms" false 0 ∅ initial_frame).2
  = Ok (Weights [[[1%Q]]; []])
  ∧ (assign_rdm1s id_mol id_iao id_lowdin 4 in_order mol_h s_h (c_h, c_h) occ_h
       "unrestricted" "mulliken" "atoms" true 0 ∅ initial_frame).2
    = Raise ValueError.
Proof. split; by vm_compute. Qed.

(** * Further properties of the code *)

(** ** loc_orbs: what is stored, and when it fails *)

Lemma take_out_of_range {A} (a : list A) (idx : list nat) j :
  j ∈ idx → length a ≤ j → take a idx = Raise IndexError.
Proof.
  unfold take. induction idx as [|k idx IH]; intros Hin Hj.
  { by apply elem_of_nil in Hin. }
  simpl. destruct (a !! k) as [x|] eqn:Ek; simpl; [|done].
  apply elem_of_cons in Hin as [->|Hin].
  - apply lookup_lt_Some in Ek. lia.
  - by rewrite IH.
Qed.

Lemma take_in_range {A} (a : list A) (idx : list nat) :
  Forall (fun j => j < length a) idx → ∃ cols, take a idx = Ok cols.
Proof.
  induction 1 as [|j idx Hj _ [cols IH]]; [by exists [] |].
  apply lookup_lt_is_Some in Hj as [x Hx]. exists (x :: cols).
  apply take_Ok. constructor; [done | by apply take_Ok].
Qed.

(** A column stored under an index that occurs once is read back. *)
Lemma put_take_NoDup a idx new a' :
  NoDup idx → put a idx new = Ok a' → take a' idx = Ok new.
Proof.
  intros Hnd Hput. apply put_Ok_inv in Hput as (-> & Hlen & Hin).
  apply take_Ok. apply Forall2_same_length_lookup. split; [done |].
  intros k j c Hj Hc.
  destruct (store_cols_lookup a idx new j Hlen Hin)
    as [[Hout _]|(k' & c' & Hj' & Hc' & ->)].
  - exfalso. apply Hout. by eapply list_elem_of_lookup_2.
  - assert (k' = k) as -> by (eapply NoDup_lookup; eauto). congruence.
Qed.

Lemma contains_ibo_not_fb_pm variant :
  contains "ibo" variant = true →
  (variant =? "fb")%string = false ∧ (variant =? "pm")%string = false.
Proof.
  intros H. split; apply String.eqb_neq; intros ->; vm_compute in H; discriminate.
Qed.

Section LocalizerStores.

Variable lo_Boys : Mole → coeffs → Q → loc_result.
Variable lo_PM : Mole → coeffs → Q → loc_result.
Variable lo_iao : Mole → coeffs → coeffs.
Variable lo_vec_lowdin : coeffs → matrix → coeffs.
Variable lo_ibo : Mole → coeffs → coeffs → Q → nat → loc_result.

Local Abbreviation localize' := (localize lo_Boys lo_PM lo_iao lo_vec_lowdin lo_ibo).
Local Abbreviation loc_orbs' := (loc_orbs lo_Boys lo_PM lo_iao lo_vec_lowdin lo_ibo).

(** A pass of the 'fb' or the 'pm' branch that returns: the localizer got
    the occupied columns and the tolerance [LOC_CONV], and its orbitals
    were stored under the occupied indices. *)
Lemma localize_fb_pm_inv mol s variant i idx st st' u :
  variant = "fb" ∨ variant = "pm" →
  localize' mol s variant i idx st = (st', Ok u) →
  ∃ cols a',
    i < 2
    ∧ take (arr (mo_coeff st) i) idx = Ok cols
    ∧ put (arr (mo_coeff st) i) idx
        (loc_mo ((if (variant =? "fb")%string then lo_Boys else lo_PM)
                   mol cols LOC_CONV)) = Ok a'
    ∧ mo_coeff st' = overwrite (mo_coeff st) i a'
    ∧ ran st' = ran st ++ [if (variant =? "fb")%string then RanBoys i else RanPM i].
Proof.
  intros Hv H. unfold localize in H.
  destruct Hv as [-> | ->]; simpl in H;
    apply bind_Ok_inv in H as (s1 & occ & [-> Hocc]%read_cols_inv & H);
    apply bind_Ok_inv in H as (s2 & out & (Hout & Hmo & Hr)%run_inv & H);
    injection Hout as ->;
    apply write_cols_Ok_inv in H as (Hran & a & a' & Ha & Hput & Hmo');
    symmetry in Hocc;
    apply rbind_Ok_inv in Hocc as (a0 & [Hi ->]%view_Ok & Hocc);
    rewrite Hmo in Ha, Hmo'; apply view_Ok in Ha as [_ ->];
    exists occ, a'; (split_and!; try done); by rewrite Hran, Hr.
Qed.

(** With occupied indices that do not repeat, the stored orbitals are the
    occupied columns afterwards. *)
Lemma localize_fb_pm_Ok mol s variant i idx st st' u :
  variant = "fb" ∨ variant = "pm" →
  NoDup idx →
  localize' mol s variant i idx st = (st', Ok u) →
  ∃ cols a',
    i < 2
    ∧ take (arr (mo_coeff st) i) idx = Ok cols
    ∧ take a' idx
      = Ok (loc_mo ((if (variant =? "fb")%string then lo_Boys else lo_PM)
                      mol cols LOC_CONV))
    ∧ mo_coeff st' = overwrite (mo_coeff st) i a'
    ∧ ran st' = ran st ++ [if (variant =? "fb")%string then RanBoys i else RanPM i].
Proof.
  intros Hv Hnd H.
  apply localize_fb_pm_inv in H as (cols & a' & Hi & Hc & Hput & Hmo & Hr); [|done].
  exists cols, a'. split_and!; try done.
  by apply (put_take_NoDup _ _ _ _ Hnd Hput).
Qed.

(** A pass of the 'ibo' branch that returns: the IAOs were built from the
    occupied columns and orthogonalized against [s], the exponent is the
    last character of the variant read as a decimal digit, and the
    orbitals returned were stored under the occupied indices. *)
Lemma localize_ibo_inv mol s variant i idx st st' u :
  contains "ibo" variant = true →
  localize' mol s variant i idx st = (st', Ok u) →
  ∃ cols a' p,
    i < 2
    ∧ int_last variant = Ok p
    ∧ take (arr (mo_coeff st) i) idx = Ok cols
    ∧ put (arr (mo_coeff st) i) idx
        (loc_mo (lo_ibo mol cols (lo_vec_lowdin (lo_iao mol cols) s) LOC_CONV p))
      = Ok a'
    ∧ mo_coeff st' = overwrite (mo_coeff st) i a'
    ∧ ran st' = ran st ++ [RanIBO i p].
Proof.
  intros Hv H. unfold localize in H.
  destruct (contains_ibo_not_fb_pm variant Hv) as [E1 E2].
  rewrite E1, E2, Hv in H.
  apply bind_Ok_inv in H as (s1 & occ & [-> Hocc]%read_cols_inv & H).
  apply bind_Ok_inv in H as (s1' & occ' & [-> Hocc']%read_cols_inv & H).
  apply bind_Ok_inv in H as (s1'' & p & [-> Hp]%lift_Ok_inv & H).
  apply bind_Ok_inv in H as (s2 & out & (Hout & Hmo & Hr)%run_inv & H).
  injection Hout as ->.
  apply write_cols_Ok_inv in H as (Hran & a & a' & Ha & Hput & Hmo').
  assert (occ' = occ) as -> by congruence.
  symmetry in Hocc. apply rbind_Ok_inv in Hocc as (a0 & [Hi ->]%view_Ok & Hocc).
  rewrite Hmo in Ha, Hmo'. apply view_Ok in Ha as [_ ->].
  exists occ, a', p. split_and!; try done.
  by rewrite Hran, Hr.
Qed.

(** What [int] accepts as the exponent. *)
Lemma int_last_Ok variant p :
  int_last variant = Ok p →
  ∃ cp, last_char variant = Some cp ∧ digit_of cp = Some p.
Proof.
  unfold int_last. destruct variant as [|c variant]; [discriminate |].
  intros H%of_option_Ok.
  destruct (last_char (String c variant)) as [cp|]; [|discriminate].
  by exists cp.
Qed.

(** The two passes of a call without the closed-shell reduction. *)
Lemma loc_orbs_open_inv mol s ref variant st st' u :
  closed_shell ref mol = false →
  loc_orbs' mol s ref variant st = (st', Ok u) →
  ∃ st1, localize' mol s variant 0 (alpha mol) st = (st1, Ok tt)
         ∧ localize' mol s variant 1 (beta mol) st1 = (st', Ok tt).
Proof.
  intros Hc H. unfold loc_orbs in H. simpl in H. unfold loc_spin in H.
  rewrite Hc in H.
  apply bind_Ok_inv in H as (s2 & brk & H1 & H).
  apply bind_Ok_inv in H1 as (s1 & [] & Hl1 & [= <- <-]).
  apply bind_Ok_inv in H as (s4 & brk & H2 & H).
  apply bind_Ok_inv in H2 as (s3 & [] & Hl2 & [= <- <-]).
  injection H as <- _. by exists s1.
Qed.

(** The pass and the copy of a call under the closed-shell reduction. *)
Lemma loc_orbs_closed_inv mol s ref variant st st' u :
  closed_shell ref mol = true →
  loc_orbs' mol s ref variant st = (st', Ok u) →
  ∃ st1 cols b',
    localize' mol s variant 0 (alpha mol) st = (st1, Ok tt)
    ∧ take (arr (mo_coeff st1) 0) (alpha mol) = Ok cols
    ∧ put (arr (mo_coeff st1) 1) (alpha mol) cols = Ok b'
    ∧ mo_coeff st' = overwrite (mo_coeff st1) 1 b'
    ∧ ran st' = ran st1.
Proof.
  intros Hc H. unfold loc_orbs in H. simpl in H. unfold loc_spin in H.
  rewrite Hc in H.
  apply bind_Ok_inv in H as (s3 & brk & H & Hk).
  apply bind_Ok_inv in H as (s1 & [] & Hloc & H).
  apply bind_Ok_inv in H as (s1' & cols & [-> Hcols]%read_cols_inv & H).
  apply bind_Ok_inv in H as (s2 & [] & Hw & [= <- <-]).
  injection Hk as <- _.
  apply write_cols_Ok_inv in Hw as (Hran & x & b' & [_ ->]%view_Ok & Hput & Hmo).
  symmetry in Hcols. apply rbind_Ok_inv in Hcols as (a0 & [_ ->]%view_Ok & Hcols).
  by exists s1, cols, b'.
Qed.

End LocalizerStores.

(** X1: in a call without the closed-shell reduction on two separate
    arrays, with variant 'fb' or 'pm' and occupied indices that do not
    repeat, a call that returns has run the Foster-Boys (Pipek-Mezey)
    localizer once per channel, alpha first, each time on the occupied
    columns of that channel's array with tolerance [LOC_CONV]; afterwards
    the occupied columns of each array are the orbitals the localizer
    returned for it. *)
Theorem loc_orbs_stores_localizer_output
    (lo_Boys lo_PM : Mole → coeffs → Q → loc_result)
    (lo_iao : Mole → coeffs → coeffs) (lo_vec_lowdin : coeffs → matrix → coeffs)
    (lo_ibo : Mole → coeffs → coeffs → Q → nat → loc_result)
    (mol : Mole) (s : matrix) (ref variant : string) (a b : coeffs)
    (log : list loc_call) (st' : lstate) :
  closed_shell ref mol = false →
  variant = "fb" ∨ variant = "pm" →
  NoDup (alpha mol) → NoDup (beta mol) →
  loc_orbs lo_Boys lo_PM lo_iao lo_vec_lowdin lo_ibo mol s ref variant
    (separate a b log) = (st', Ok tt) →
  ∃ ca cb a' b',
    take a (alpha mol) = Ok ca ∧ take b (beta mol) = Ok cb
    ∧ mo_coeff st' = Separate a' b'
    ∧ take a' (alpha mol)
      = Ok (loc_mo ((if (variant =? "fb")%string then lo_Boys else lo_PM)
                      mol ca LOC_CONV))
    ∧ take b' (beta mol)
      = Ok (loc_mo ((if (variant =? "fb")%string then lo_Boys else lo_PM)
                      mol cb LOC_CONV))
    ∧ ran st' = log ++ (if (variant =? "fb")%string
                        then [RanBoys 0; RanBoys 1] else [RanPM 0; RanPM 1]).
Proof.
  intros Hc Hv Hna Hnb H.
  apply loc_orbs_open_inv in H as (st1 & H1 & H2); [|done].
  apply localize_fb_pm_Ok in H1 as (ca & a' & _ & Hca & Ha' & Hmo1 & Hr1); [|done..].
  apply localize_fb_pm_Ok in H2 as (cb & b' & _ & Hcb & Hb' & Hmo2 & Hr2); [|done..].
  simpl in Hca, Hmo1, Hr1. rewrite Hmo1 in Hcb, Hmo2. simpl in Hcb, Hmo2.
  exists ca, cb, a', b'. split_and!; try done.
  rewrite Hr2, Hr1, <- app_assoc. by destruct (variant =? "fb")%string.
Qed.

Lemma loc_orbs_stores_localizer_output_witness :
  ∃ ca cb a' b',
    take c_two (alpha mol_open) = Ok ca ∧ take c_two (beta mol_open) = Ok cb
    ∧ mo_coeff (loc_orbs (flip_loc true) swap_loc id_iao id_lowdin (flip_ibo true)
                  mol_open s_two "unrestricted" "pm" (separate c_two c_two [])).1
      = Separate a' b'
    ∧ take a' (alpha mol_open)
      = Ok (loc_mo ((if ("pm" =? "fb")%string then flip_loc true else swap_loc)
                      mol_open ca LOC_CONV))
    ∧ take b' (beta mol_open)
      = Ok (loc_mo ((if ("pm" =? "fb")%string then flip_loc true else swap_loc)
                      mol_open cb LOC_CONV))
    ∧ ran (loc_orbs (flip_loc true) swap_loc id_iao id_lowdin (flip_ibo true)
             mol_open s_two "unrestricted" "pm" (separate c_two c_two [])).1
      = [] ++ (if ("pm" =? "fb")%string
               then [RanBoys 0; RanBoys 1] else [RanPM 0; RanPM 1]).
Proof.
  apply (loc_orbs_stores_localizer_output (flip_loc true) swap_loc id_iao
           id_lowdin (flip_ibo true) mol_open s_two "unrestricted" "pm"
           c_two c_two []).
  - reflexivity.
  - right. reflexivity.
  - apply (bool_decide_unpack _). vm_compute. reflexivity.
  - apply (bool_decide_unpack _). vm_compute. reflexivity.
  - vm_compute. reflexivity.
Defined.

(** X2: a call with a variant that contains 'ibo' and that returns has
    run the IBO procedure once under the closed-shell reduction (for
    alpha) and twice otherwise (for alpha, then for beta).  The exponent
    of every run is the last character of the variant read as a decimal
    digit, of whatever script ('ibo2' and 'ibo4', any longer name that
    ends in a digit, and a name that ends in a digit that is not ASCII).
    Each run gets the occupied columns of its array as they are at that
    point, IAOs built from those columns and orthogonalized against the
    overlap [s], and the tolerance [LOC_CONV], and the orbitals it returns
    are stored under the occupied indices of the array.  Under the
    closed-shell reduction the columns under [mol.alpha] of the alpha
    array are then stored under [mol.alpha] in the beta array.  This holds
    for two array objects and for one array object in both places. *)
Theorem loc_orbs_ibo_exponent_is_last_digit
    (lo_Boys lo_PM : Mole → coeffs → Q → loc_result)
    (lo_iao : Mole → coeffs → coeffs) (lo_vec_lowdin : coeffs → matrix → coeffs)
    (lo_ibo : Mole → coeffs → coeffs → Q → nat → loc_result)
    (mol : Mole) (s : matrix) (ref variant : string) (st st' : lstate) :
  contains "ibo" variant = true →
  loc_orbs lo_Boys lo_PM lo_iao lo_vec_lowdin lo_ibo mol s ref variant st
  = (st', Ok tt) →
  ∃ cp p ca a1,
    last_char variant = Some cp ∧ digit_of cp = Some p
    ∧ ran st' = ran st ++ (if closed_shell ref mol then [RanIBO 0 p]
                           else [RanIBO 0 p; RanIBO 1 p])
    ∧ take (arr (mo_coeff st) 0) (alpha mol) = Ok ca
    ∧ put (arr (mo_coeff st) 0) (alpha mol)
        (loc_mo (lo_ibo mol ca (lo_vec_lowdin (lo_iao mol ca) s) LOC_CONV p))
      = Ok a1
    ∧ ∃ cb b1,
        mo_coeff st' = overwrite (overwrite (mo_coeff st) 0 a1) 1 b1
        ∧ if closed_shell ref mol then
            take (arr (overwrite (mo_coeff st) 0 a1) 0) (alpha mol) = Ok cb
            ∧ put (arr (overwrite (mo_coeff st) 0 a1) 1) (alpha mol) cb = Ok b1
          else
            take (arr (overwrite (mo_coeff st) 0 a1) 1) (beta mol) = Ok cb
            ∧ put (arr (overwrite (mo_coeff st) 0 a1) 1) (beta mol)
                (loc_mo (lo_ibo mol cb (lo_vec_lowdin (lo_iao mol cb) s)
                           LOC_CONV p))
              = Ok b1.
Proof.
  intros Hv H. destruct (closed_shell ref mol) eqn:Hc.
  - apply loc_orbs_closed_inv in H
      as (st1 & cols & b' & H1 & Hcols & Hput & Hmo & Hr); [|done].
    apply localize_ibo_inv in H1
      as (ca & a1 & p & _ & Hp & Hca & Ha1 & Hmo1 & Hr1); [|done].
    apply int_last_Ok in Hp as (cp & Hcp & Hd).
    rewrite Hmo1 in Hcols, Hput, Hmo.
    exists cp, p, ca, a1. split_and!; try done.
    + by rewrite Hr, Hr1.
    + by exists cols, b'.
  - apply loc_orbs_open_inv in H as (st1 & H1 & H2); [|done].
    apply localize_ibo_inv in H1
      as (ca & a1 & p & _ & Hp & Hca & Ha1 & Hmo1 & Hr1); [|done].
    apply localize_ibo_inv in H2
      as (cb & b1 & p' & _ & Hp' & Hcb & Hb1 & Hmo2 & Hr2); [|done].
    assert (p' = p) as -> by congruence.
    apply int_last_Ok in Hp as (cp & Hcp & Hd).
    rewrite Hmo1 in Hcb, Hb1, Hmo2.
    exists cp, p, ca, a1. split_and!; try done.
    + by rewrite Hr2, Hr1, <- app_assoc.
    + by exists cb, b1.
Qed.

Lemma loc_orbs_ibo_exponent_is_last_digit_witness :
  ∃ cp p ca a1,
    last_char "ibo٣" = Some cp ∧ digit_of cp = Some p
    ∧ ran (loc_orbs (flip_loc true) (flip_loc true) id_iao id_lowdin
             (flip_ibo true) mol_closed s_two "restricted" "ibo٣" st_two).1
      = ran st_two ++ (if closed_shell "restricted" mol_closed then [RanIBO 0 p]
                       else [RanIBO 0 p; RanIBO 1 p])
    ∧ take (arr (mo_coeff st_two) 0) (alpha mol_closed) = Ok ca
    ∧ put (arr (mo_coeff st_two) 0) (alpha mol_closed)
        (loc_mo (flip_ibo true mol_closed ca
                   (id_lowdin (id_iao mol_closed ca) s_two) LOC_CONV p))
      = Ok a1
    ∧ ∃ cb b1,
        mo_coeff (loc_orbs (flip_loc true) (flip_loc true) id_iao id_lowdin
                    (flip_ibo true) mol_closed s_two "restricted" "ibo٣"
                    st_two).1
        = overwrite (overwrite (mo_coeff st_two) 0 a1) 1 b1
        ∧ if closed_shell "restricted" mol_closed then
            take (arr (overwrite (mo_coeff st_two) 0 a1) 0) (alpha mol_closed)
            = Ok cb
            ∧ put (arr (overwrite (mo_coeff st_two) 0 a1) 1) (alpha mol_closed) cb
              = Ok b1
          else
            take (arr (overwrite (mo_coeff st_two) 0 a1) 1) (beta mol_closed)
            = Ok cb
            ∧ put (arr (overwrite (mo_coeff st_two) 0 a1) 1) (beta mol_closed)
                (loc_mo (flip_ibo true mol_closed cb
                           (id_lowdin (id_iao mol_closed cb) s_two) LOC_CONV p))
              = Ok b1.
Proof.
  apply (loc_orbs_ibo_exponent_is_last_digit (flip_loc true) (flip_loc true)
           id_iao id_lowdin (flip_ibo true) mol_closed s_two "restricted"
           "ibo٣" st_two).
  - reflexivity.
  - vm_compute. reflexivity.
Defined.

(** X3: a variant that contains 'ibo' and whose last character is not a
    decimal digit of any script (such as 'ibo' itself) makes [loc_orbs]
    raise [ValueError], from [int(variant[-1])], in the pass of alpha,
    when the occupied alpha indices are within the columns of the alpha
    array; no localizer has run and the arrays are as they were.
    (Occupied alpha indices out of range raise [IndexError] before
    that.) *)
Theorem loc_orbs_ibo_without_exponent_is_ValueError
    (lo_Boys lo_PM : Mole → coeffs → Q → loc_result)
    (lo_iao : Mole → coeffs → coeffs) (lo_vec_lowdin : coeffs → matrix → coeffs)
    (lo_ibo : Mole → coeffs → coeffs → Q → nat → loc_result)
    (mol : Mole) (s : matrix) (ref variant : string) (cp : N) (st : lstate) :
  contains "ibo" variant = true →
  last_char variant = Some cp → digit_of cp = None →
  Forall (fun j => j < length (arr (mo_coeff st) 0)) (alpha mol) →
  loc_orbs lo_Boys lo_PM lo_iao lo_vec_lowdin lo_ibo mol s ref variant st
  = (st, Raise ValueError).
Proof.
  intros Hv Hc Hd Hin.
  destruct (take_in_range _ _ Hin) as [cols Hcols].
  destruct (contains_ibo_not_fb_pm variant Hv) as [E1 E2].
  assert (int_last variant = Raise ValueError) as Hint.
  { unfold int_last. destruct variant; [discriminate |].
    rewrite Hc. simpl. by rewrite Hd. }
  unfold loc_orbs. simpl. unfold loc_spin, localize. rewrite E1, E2, Hv.
  unfold bind, read_cols, lift. simpl. rewrite Hcols, Hint. done.
Qed.

Lemma loc_orbs_ibo_without_exponent_is_ValueError_witness :
  loc_orbs (flip_loc true) (flip_loc true) id_iao id_lowdin (flip_ibo true)
    mol_closed s_two "restricted" "ibo" st_two
  = (st_two, Raise ValueError).
Proof.
  apply (loc_orbs_ibo_without_exponent_is_ValueError (flip_loc true)
           (flip_loc true) id_iao id_lowdin (flip_ibo true) mol_closed s_two
           "restricted" "ibo" 111%N st_two).
  - reflexivity.
  - reflexivity.
  - reflexivity.
  - repeat constructor.
Defined.

(** X4: when a branch is taken (the variant is recognised) or the
    closed-shell reduction applies, an occupied alpha index beyond the
    columns of the alpha array makes [loc_orbs] raise [IndexError] before
    any localizer has run, the arrays being as they were. *)
Theorem loc_orbs_occupied_index_out_of_range
    (lo_Boys lo_PM : Mole → coeffs → Q → loc_result)
    (lo_iao : Mole → coeffs → coeffs) (lo_vec_lowdin : coeffs → matrix → coeffs)
    (lo_ibo : Mole → coeffs → coeffs → Q → nat → loc_result)
    (mol : Mole) (s : matrix) (ref variant : string) (j : nat) (st : lstate) :
  recognised variant = true ∨ closed_shell ref mol = true →
  j ∈ alpha mol → length (arr (mo_coeff st) 0) ≤ j →
  loc_orbs lo_Boys lo_PM lo_iao lo_vec_lowdin lo_ibo mol s ref variant st
  = (st, Raise IndexError).
Proof.
  intros Hrc Hj Hlen.
  pose proof (take_out_of_range _ _ _ Hj Hlen) as Htake.
  unfold loc_orbs. simpl. unfold loc_spin.
  destruct (recognised variant) eqn:Hrec.
  - unfold localize. unfold recognised in Hrec.
    destruct (variant =? "fb")%string; [|destruct (variant =? "pm")%string;
      [|destruct (contains "ibo" variant); [|discriminate]]];
      unfold bind, read_cols; simpl; by rewrite Htake.
  - destruct Hrc as [|Hc]; [discriminate |]. rewrite Hc.
    unfold bind at 1. unfold bind at 1.
    rewrite localize_unknown by done.
    unfold bind, read_cols. simpl. by rewrite Htake.
Qed.

Lemma loc_orbs_occupied_index_out_of_range_witness :
  loc_orbs (flip_loc true) (flip_loc true) id_iao id_lowdin (flip_ibo true)
    mol_open s_two "unrestricted" "fb" (separate [[1; 0]]%Q c_two [])
  = (separate [[1; 0]]%Q c_two [], Raise IndexError).
Proof.
  apply (loc_orbs_occupied_index_out_of_range (flip_loc true) (flip_loc true)
           id_iao id_lowdin (flip_ibo true) mol_open s_two "unrestricted" "fb" 1).
  - left. reflexivity.
  - apply (bool_decide_unpack _). vm_compute. reflexivity.
  - vm_compute. lia.
Defined.

(** X5: with variant 'fb' or 'pm' and without the closed-shell
    reduction, a call that gets one array object in both places and
    returns has localized in that one array twice.  The pass of alpha
    stores its orbitals under [mol.alpha]; the pass of beta reads the
    columns under [mol.beta] of the array as the pass of alpha left it,
    and stores its orbitals under [mol.beta] of that same array, which is
    what both places hold afterwards.  When moreover [mol.beta] equals
    [mol.alpha] and no index repeats, the occupied columns end as the
    localizer applied to its own output. *)
Theorem loc_orbs_shared_array_is_localized_twice
    (lo_Boys lo_PM : Mole → coeffs → Q → loc_result)
    (lo_iao : Mole → coeffs → coeffs) (lo_vec_lowdin : coeffs → matrix → coeffs)
    (lo_ibo : Mole → coeffs → coeffs → Q → nat → loc_result)
    (mol : Mole) (s : matrix) (ref variant : string) (a : coeffs)
    (log : list loc_call) (st' : lstate) :
  closed_shell ref mol = false →
  variant = "fb" ∨ variant = "pm" →
  loc_orbs lo_Boys lo_PM lo_iao lo_vec_lowdin lo_ibo mol s ref variant
    {| mo_coeff := Shared a; ran := log |} = (st', Ok tt) →
  ∃ ca a1 cb a2,
    take a (alpha mol) = Ok ca
    ∧ put a (alpha mol)
        (loc_mo ((if (variant =? "fb")%string then lo_Boys else lo_PM)
                   mol ca LOC_CONV)) = Ok a1
    ∧ take a1 (beta mol) = Ok cb
    ∧ put a1 (beta mol)
        (loc_mo ((if (variant =? "fb")%string then lo_Boys else lo_PM)
                   mol cb LOC_CONV)) = Ok a2
    ∧ mo_coeff st' = Shared a2
    ∧ ran st' = log ++ (if (variant =? "fb")%string
                        then [RanBoys 0; RanBoys 1] else [RanPM 0; RanPM 1])
    ∧ (beta mol = alpha mol → NoDup (alpha mol) →
       take a2 (alpha mol)
       = Ok (loc_mo ((if (variant =? "fb")%string then lo_Boys else lo_PM) mol
                       (loc_mo ((if (variant =? "fb")%string then lo_Boys
                                 else lo_PM) mol ca LOC_CONV))
                       LOC_CONV))).
Proof.
  intros Hc Hv H.
  apply loc_orbs_open_inv in H as (st1 & H1 & H2); [|done].
  apply localize_fb_pm_inv in H1 as (ca & a1 & _ & Hca & Ha1 & Hmo1 & Hr1); [|done].
  apply localize_fb_pm_inv in H2 as (cb & a2 & _ & Hcb & Ha2 & Hmo2 & Hr2); [|done].
  simpl in Hca, Ha1, Hmo1, Hr1. rewrite Hmo1 in Hcb, Ha2, Hmo2.
  simpl in Hcb, Ha2, Hmo2.
  exists ca, a1, cb, a2. split_and!; try done.
  - rewrite Hr2, Hr1, <- app_assoc. by destruct (variant =? "fb")%string.
  - intros Hab Hnd. rewrite Hab in Hcb, Ha2.
    rewrite (put_take_NoDup _ _ _ _ Hnd Ha1) in Hcb. injection Hcb as <-.
    by apply (put_take_NoDup _ _ _ _ Hnd Ha2).
Qed.

Lemma loc_orbs_shared_array_is_localized_twice_witness :
  ∃ ca a1 cb a2,
    take c_two (alpha mol_example) = Ok ca
    ∧ put c_two (alpha mol_example)
        (loc_mo ((if ("pm" =? "fb")%string then flip_loc true else swap_loc)
                   mol_example ca LOC_CONV)) = Ok a1
    ∧ take a1 (beta mol_example) = Ok cb
    ∧ put a1 (beta mol_example)
        (loc_mo ((if ("pm" =? "fb")%string then flip_loc true else swap_loc)
                   mol_example cb LOC_CONV)) = Ok a2
    ∧ mo_coeff (loc_orbs (flip_loc true) swap_loc id_iao id_lowdin (flip_ibo true)
                  mol_example s_two "unrestricted" "pm"
                  {| mo_coeff := Shared c_two; ran := [] |}).1
      = Shared a2
    ∧ ran (loc_orbs (flip_loc true) swap_loc id_iao id_lowdin (flip_ibo true)
             mol_example s_two "unrestricted" "pm"
             {| mo_coeff := Shared c_two; ran := [] |}).1
      = [] ++ (if ("pm" =? "fb")%string
               then [RanBoys 0; RanBoys 1] else [RanPM 0; RanPM 1])
    ∧ (beta mol_example = alpha mol_example → NoDup (alpha mol_example) →
       take a2 (alpha mol_example)
       = Ok (loc_mo ((if ("pm" =? "fb")%string then flip_loc true else swap_loc)
                       mol_example
                       (loc_mo ((if ("pm" =? "fb")%string then flip_loc true
                                 else swap_loc) mol_example ca LOC_CONV))
                       LOC_CONV))).
Proof.
  apply (loc_orbs_shared_array_is_localized_twice (flip_loc true) swap_loc
           id_iao id_lowdin (flip_ibo true) mol_example s_two "unrestricted"
           "pm" c_two []).
  - reflexivity.
  - right. reflexivity.
  - vm_compute. reflexivity.
Defined.

(** X6: under the closed-shell reduction, on two separate arrays and
    with variant 'fb' or 'pm', a call that returns has run the localizer
    once, on the occupied alpha columns of the alpha array with tolerance
    [LOC_CONV], and the orbitals it returned are afterwards the columns
    under [mol.alpha] of the alpha array and of the beta array alike; the
    other columns of the beta array are as they were. *)
Theorem loc_orbs_closed_shell_stores_alpha_orbitals_in_both
    (lo_Boys lo_PM : Mole → coeffs → Q → loc_result)
    (lo_iao : Mole → coeffs → coeffs) (lo_vec_lowdin : coeffs → matrix → coeffs)
    (lo_ibo : Mole → coeffs → coeffs → Q → nat → loc_result)
    (mol : Mole) (s : matrix) (ref variant : string) (a b : coeffs)
    (log : list loc_call) (st' : lstate) :
  closed_shell ref mol = true →
  variant = "fb" ∨ variant = "pm" →
  NoDup (alpha mol) →
  loc_orbs lo_Boys lo_PM lo_iao lo_vec_lowdin lo_ibo mol s ref variant
    (separate a b log) = (st', Ok tt) →
  ∃ ca a' b',
    take a (alpha mol) = Ok ca
    ∧ mo_coeff st' = Separate a' b'
    ∧ take a' (alpha mol)
      = Ok (loc_mo ((if (variant =? "fb")%string then lo_Boys else lo_PM)
                      mol ca LOC_CONV))
    ∧ take b' (alpha mol)
      = Ok (loc_mo ((if (variant =? "fb")%string then lo_Boys else lo_PM)
                      mol ca LOC_CONV))
    ∧ cols_same (alpha mol) b b'
    ∧ ran st' = log ++ [if (variant =? "fb")%string then RanBoys 0 else RanPM 0].
Proof.
  intros Hc Hv Hna H. unfold loc_orbs in H. simpl in H. unfold loc_spin in H.
  rewrite Hc in H.
  apply bind_Ok_inv in H as (s3 & brk & H & Hk).
  apply bind_Ok_inv in H as (s1 & [] & Hloc & H).
  apply bind_Ok_inv in H as (s1' & cols & [-> Hcols]%read_cols_inv & H).
  apply bind_Ok_inv in H as (s2 & [] & Hw & [= <- <-]).
  injection Hk as <-.
  apply localize_fb_pm_Ok in Hloc as (ca & a' & _ & Hca & Ha' & Hmo1 & Hr1); [|done..].
  simpl in Hca, Hmo1, Hr1.
  apply write_cols_Ok_inv in Hw as (Hran & x & b' & Hx & Hput & Hmo).
  rewrite Hmo1 in Hx, Hmo, Hcols. simpl in Hx, Hmo, Hcols.
  injection Hx as <-. rewrite Ha' in Hcols. injection Hcols as ->.
  exists ca, a', b'. split_and!; try done.
  - by apply (put_take_NoDup _ _ _ _ Hna Hput).
  - by apply put_cols_same in Hput.
  - by rewrite Hran, Hr1.
Qed.

Lemma loc_orbs_closed_shell_stores_alpha_orbitals_in_both_witness :
  ∃ ca a' b',
    take c_two (alpha mol_closed) = Ok ca
    ∧ mo_coeff (loc_orbs (flip_loc true) swap_loc id_iao id_lowdin (flip_ibo true)
                  mol_closed s_two "restricted" "fb" (separate c_two c_unit [])).1
      = Separate a' b'
    ∧ take a' (alpha mol_closed)
      = Ok (loc_mo ((if ("fb" =? "fb")%string then flip_loc true else swap_loc)
                      mol_closed ca LOC_CONV))
    ∧ take b' (alpha mol_closed)
      = Ok (loc_mo ((if ("fb" =? "fb")%string then flip_loc true else swap_loc)
                      mol_closed ca LOC_CONV))
    ∧ cols_same (alpha mol_closed) c_unit b'
    ∧ ran (loc_orbs (flip_loc true) swap_loc id_iao id_lowdin (flip_ibo true)
             mol_closed s_two "restricted" "fb" (separate c_two c_unit [])).1
      = [] ++ [if ("fb" =? "fb")%string then RanBoys 0 else RanPM 0].
Proof.
  apply (loc_orbs_closed_shell_stores_alpha_orbitals_in_both (flip_loc true)
           swap_loc id_iao id_lowdin (flip_ibo true) mol_closed s_two
           "restricted" "fb" c_two c_unit []).
  - reflexivity.
  - left. reflexivity.
  - apply (bool_decide_unpack _). vm_compute. reflexivity.
  - vm_compute. reflexivity.
Defined.

(** ** loc_orbs keeps the shapes of the arrays *)

Lemma store_cols_shape (a0 a : coeffs) idx new :
  Forall2 (fun c c' : vector => length c' = length c) a0 a →
  forallb (fun jc : nat * vector =>
             match a0 !! jc.1 with
             | Some old => length jc.2 =? length old
             | None => false
             end) (zip idx new) = true →
  Forall2 (fun c c' : vector => length c' = length c) a0 (store_cols a idx new).
Proof.
  revert a new. induction idx as [|j idx IH]; intros a new Ha Hall; [done |].
  destruct new as [|c new]; [done |]. simpl in *.
  apply andb_true_iff in Hall as [Hj Hall].
  apply IH; [|done].
  destruct (a0 !! j) as [old|] eqn:Eo; [|done]. apply Nat.eqb_eq in Hj.
  apply Forall2_same_length_lookup. split.
  { rewrite length_insert. by eapply Forall2_length. }
  intros k x y Hx Hy. destruct (decide (k = j)) as [->|Hne].
  - rewrite list_lookup_insert_eq in Hy; [by simplify_eq |].
    apply Forall2_length in Ha. rewrite <- Ha. by eapply lookup_lt_Some.
  - rewrite list_lookup_insert_ne in Hy by done.
    by eapply (Forall2_lookup_lr _ _ _ _ _ _ Ha).
Qed.

Lemma same_length_refl (a : coeffs) :
  Forall2 (fun c c' : vector => length c' = length c) a a.
Proof. by apply Forall_Forall2_diag, Forall_true. Qed.

Lemma put_shape a idx new a' :
  put a idx new = Ok a' →
  Forall2 (fun c c' : vector => length c' = length c) a a'.
Proof.
  unfold put. destruct (forallb _ idx); [|discriminate].
  destruct (same_shape a idx new) eqn:E; [|discriminate]. intros [= <-].
  unfold same_shape in E. apply andb_true_iff in E as [_ E].
  apply store_cols_shape; [apply same_length_refl | done].
Qed.

Global Instance shape_rel_refl : Reflexive shape_rel.
Proof. intros st i. apply same_length_refl. Qed.

Global Instance shape_rel_trans : Transitive shape_rel.
Proof.
  intros x y z H1 H2 i. specialize (H1 i). specialize (H2 i).
  apply Forall2_same_length_lookup. split.
  { apply Forall2_length in H1, H2. congruence. }
  intros k c c'' Hc Hc''.
  destruct (Forall2_lookup_l _ _ _ _ _ H1 Hc) as (c' & Hc' & E1).
  pose proof (Forall2_lookup_lr _ _ _ _ _ _ H2 Hc' Hc'') as E2. simpl in *.
  congruence.
Qed.

Lemma sat_shape_write_cols i idx new :
  sat shape_rel (fun _ => True) (write_cols i idx new).
Proof.
  intros s s' r. unfold write_cols.
  destruct (rbind _ _) as [a'|e] eqn:E; intros [= <- <-]; (split; [|done]);
    [|reflexivity].
  apply rbind_Ok_inv in E as (a & [Hi ->]%view_Ok & Hput).
  apply put_shape in Hput. intros k. simpl.
  destruct (mo_coeff s) as [a0 b0|a0]; simpl in *.
  - destruct i as [|[|i]]; [| | lia]; destruct k; simpl;
      first [done | apply same_length_refl].
  - by destruct i, k.
Qed.

Lemma sat_shape_read_cols i idx :
  sat shape_rel (fun _ => True) (read_cols i idx).
Proof. intros st st' r [= <- <-]. by split. Qed.

Lemma sat_shape_run c out : sat shape_rel (fun _ => True) (run c out).
Proof.
  intros st st' r [= <- <-]. split; [|done]. intros k. apply same_length_refl.
Qed.

Section LocalizerShapes.

Variable lo_Boys : Mole → coeffs → Q → loc_result.
Variable lo_PM : Mole → coeffs → Q → loc_result.
Variable lo_iao : Mole → coeffs → coeffs.
Variable lo_vec_lowdin : coeffs → matrix → coeffs.
Variable lo_ibo : Mole → coeffs → coeffs → Q → nat → loc_result.

Lemma sat_shape_localize mol s variant i idx :
  sat shape_rel (fun _ => True)
    (localize lo_Boys lo_PM lo_iao lo_vec_lowdin lo_ibo mol s variant i idx).
Proof.
  unfold localize.
  repeat case_match;
    repeat first
      [ apply sat_shape_read_cols | apply sat_shape_run | apply sat_shape_write_cols
      | by (apply sat_ret; try apply _)
      | by (apply (sat_lift _ (fun _ => True)); try apply _)
      | sat_seq ].
Qed.

Lemma sat_shape_loc_orbs mol s ref variant :
  sat shape_rel (fun _ => True)
    (loc_orbs lo_Boys lo_PM lo_iao lo_vec_lowdin lo_ibo mol s ref variant).
Proof.
  unfold loc_orbs. apply sat_for_each; [apply _ ..|]. intros [i idx] _.
  unfold loc_spin.
  sat_seq; [apply sat_shape_localize |].
  case_match; [|apply sat_ret; try apply _; done].
  sat_seq; [apply sat_shape_read_cols |].
  sat_seq; [apply sat_shape_write_cols |].
  apply sat_ret; try apply _; done.
Qed.

End LocalizerShapes.

(** X7: whatever the variant and the localizers, and whether the call
    returns or raises, [loc_orbs] leaves both coefficient arrays with the
    number of columns and the column lengths they had: it only assigns
    into the arrays it was given. *)
Theorem loc_orbs_keeps_array_shapes
    (lo_Boys lo_PM : Mole → coeffs → Q → loc_result)
    (lo_iao : Mole → coeffs → coeffs) (lo_vec_lowdin : coeffs → matrix → coeffs)
    (lo_ibo : Mole → coeffs → coeffs → Q → nat → loc_result)
    (mol : Mole) (s : matrix) (ref variant : string) (st st' : lstate)
    (r : result unit) (i : nat) :
  loc_orbs lo_Boys lo_PM lo_iao lo_vec_lowdin lo_ibo mol s ref variant st = (st', r) →
  length (arr (mo_coeff st') i) = length (arr (mo_coeff st) i)
  ∧ ∀ j c c', arr (mo_coeff st) i !! j = Some c →
              arr (mo_coeff st') i !! j = Some c' → length c' = length c.
Proof.
  intros H. apply sat_shape_loc_orbs in H as [H _]. specialize (H i). split.
  - symmetry. by eapply Forall2_length.
  - intros j c c' Hc Hc'.
    by apply (Forall2_lookup_lr _ _ _ _ _ _ H Hc Hc').
Qed.

Lemma loc_orbs_keeps_array_shapes_witness :
  length (arr (mo_coeff (loc_orbs (flip_loc true) swap_loc id_iao id_lowdin
                           (flip_ibo true) mol_open s_two "unrestricted" "pm"
                           st_two).1) 0)
  = length (arr (mo_coeff st_two) 0)
  ∧ ∀ j c c', arr (mo_coeff st_two) 0 !! j = Some c →
              arr (mo_coeff (loc_orbs (flip_loc true) swap_loc id_iao id_lowdin
                               (flip_ibo true) mol_open s_two "unrestricted" "pm"
                               st_two).1) 0 !! j = Some c' →
              length c' = length c.
Proof.
  apply (loc_orbs_keeps_array_shapes (flip_loc true) swap_loc id_iao id_lowdin
           (flip_ibo true) mol_open s_two "unrestricted" "pm" st_two _ (Ok tt) 0).
  vm_compute. reflexivity.
Defined.

(** ** loc_orbs: a failure after the first store *)

Lemma put_out_of_range a idx new j :
  j ∈ idx → length a ≤ j → put a idx new = Raise IndexError.
Proof.
  intros Hj Hlen. unfold put.
  assert (forallb (fun j => j <? length a) idx = false) as ->; [|done].
  apply not_true_iff_false. intros Hall. rewrite forallb_forall in Hall.
  specialize (Hall j). rewrite <- list_elem_of_In in Hall.
  apply Hall, Nat.ltb_lt in Hj. lia.
Qed.

(** X8: [loc_orbs] does not undo a store when a later statement fails.
    Under the closed-shell reduction with variant 'fb' or 'pm' and two
    separate arrays, if the alpha array takes the localized orbitals but
    an occupied index lies beyond the columns of the beta array, the copy
    into the beta array raises [IndexError], and the call ends with the
    alpha array localized, the localizer run logged and the beta array as
    it was. *)
Theorem loc_orbs_failed_copy_leaves_alpha_localized
    (lo_Boys lo_PM : Mole → coeffs → Q → loc_result)
    (lo_iao : Mole → coeffs → coeffs) (lo_vec_lowdin : coeffs → matrix → coeffs)
    (lo_ibo : Mole → coeffs → coeffs → Q → nat → loc_result)
    (mol : Mole) (s : matrix) (ref variant : string) (a b ca a' : coeffs)
    (log : list loc_call) (j : nat) :
  closed_shell ref mol = true →
  variant = "fb" ∨ variant = "pm" →
  take a (alpha mol) = Ok ca →
  put a (alpha mol)
    (loc_mo ((if (variant =? "fb")%string then lo_Boys else lo_PM) mol ca LOC_CONV))
  = Ok a' →
  j ∈ alpha mol → length b ≤ j →
  loc_orbs lo_Boys lo_PM lo_iao lo_vec_lowdin lo_ibo mol s ref variant
    (separate a b log)
  = (separate a' b
       (log ++ [if (variant =? "fb")%string then RanBoys 0 else RanPM 0]),
     Raise IndexError).
Proof.
  intros Hc Hv Hca Hput Hj Hlen.
  assert (∃ cols, take a' (alpha mol) = Ok cols) as [cols Hcols].
  { apply put_Ok_inv in Hput as (-> & _ & Hin).
    apply take_in_range. by rewrite store_cols_length. }
  pose proof (put_out_of_range b (alpha mol) cols j Hj Hlen) as Hfail.
  unfold loc_orbs. simpl. unfold loc_spin, localize. rewrite Hc.
  destruct Hv as [-> | ->]; simpl;
    unfold bind, read_cols, run, write_cols, separate; simpl;
    rewrite Hca; simpl in *; rewrite Hput; simpl; rewrite Hcols; simpl;
    by rewrite Hfail.
Qed.

Lemma loc_orbs_failed_copy_leaves_alpha_localized_witness :
  loc_orbs (flip_loc true) swap_loc id_iao id_lowdin (flip_ibo true)
    mol_example s_two "restricted" "pm" (separate c_two [[1; 0]]%Q [])
  = (separate [[- 7 # 25; 24 # 25]; [24 # 25; 7 # 25]]%Q [[1; 0]]%Q
       ([] ++ [if ("pm" =? "fb")%string then RanBoys 0 else RanPM 0]),
     Raise IndexError).
Proof.
  apply (loc_orbs_failed_copy_leaves_alpha_localized (flip_loc true) swap_loc
           id_iao id_lowdin (flip_ibo true) mol_example s_two "restricted" "pm"
           c_two [[1; 0]]%Q c_two [[- 7 # 25; 24 # 25]; [24 # 25; 7 # 25]]%Q [] 1).
  - reflexivity.
  - right. reflexivity.
  - reflexivity.
  - reflexivity.
  - apply (bool_decide_unpack _). vm_compute. reflexivity.
  - simpl. lia.
Defined.

(** ** _population: the weight of an atom, and when the loop fails *)

(** The loop over AOs, when it returns: every label named an atom of the
    array, every AO had a population, and each atom got the populations of
    the AOs labelled with it. *)
Lemma accumulate_Ok pop labels i pops w :
  accumulate pop i labels pops = Ok w →
  length w = length pops
  ∧ Forall (fun k => k.1 < length pops) labels
  ∧ (labels ≠ [] → i + length labels ≤ length pop)
  ∧ ∀ a, (wt w a == wt pops a
                    + sumn (length labels)
                        (fun t => match labels !! t with
                                  | Some k => if k.1 =? a then wt pop (i + t) else 0
                                  | None => 0
                                  end))%Q.
Proof.
  revert i pops. induction labels as [|k labels IH]; intros i pops H; simpl in H.
  - injection H as <-. split_and!; [done | done | done |].
    intros a. simpl. ring.
  - apply rbind_Ok_inv in H as (old & Hold%of_option_Ok & H).
    apply rbind_Ok_inv in H as (x & Hx%of_option_Ok & H).
    apply IH in H as (Hlen & Hall & Hi & Hsum).
    rewrite length_insert in Hlen, Hall.
    pose proof (lookup_lt_Some _ _ _ Hold) as Hk.
    pose proof (lookup_lt_Some _ _ _ Hx) as Hi'.
    split_and!; [done | by constructor | |].
    { intros _. simpl. destruct labels; [simpl; lia |].
      specialize (Hi ltac:(done)). lia. }
    intros a. rewrite Hsum. simpl. rewrite Nat.add_0_r, (wt_lookup _ _ _ Hx).
    rewrite (sumn_ext _
      (fun t => match labels !! t with
                | Some k0 => if k0.1 =? a then wt pop (S i + t) else 0%Q
                | None => 0%Q
                end)
      (fun t => match labels !! t with
                | Some k0 => if k0.1 =? a then wt pop (i + S t) else 0%Q
                | None => 0%Q
                end)).
    2:{ intros t _. by rewrite Nat.add_succ_r. }
    destruct (Nat.eqb_spec k.1 a) as [<-|Hne].
    + unfold wt at 1. rewrite list_lookup_insert_eq by done. simpl.
      rewrite (wt_lookup _ _ _ Hold). ring.
    + unfold wt at 1. rewrite list_lookup_insert_ne by done.
      fold (wt pops a). ring.
Qed.

Lemma accumulate_Ok_or_IndexError pop labels i pops :
  (∃ w, accumulate pop i labels pops = Ok w)
  ∨ accumulate pop i labels pops = Raise IndexError.
Proof.
  revert i pops. induction labels as [|k labels IH]; intros i pops; simpl.
  - left. by eexists.
  - destruct (pops !! k.1); simpl; [|by right].
    destruct (pop !! i); simpl; [|by right]. apply IH.
Qed.

(** X9: when [_population] returns, its vector has one entry per atom, and
    the entry of every atom is the sum of the populations
    [pop[i] = sum_l rdm1[i,l] * ovlp[l,i]] of the AOs whose label names
    that atom; an atom without AOs gets zero. *)
Theorem population_of_atom_sums_its_AOs
    (natm : nat) (labels : list (nat * string)) (ovlp rdm1 : matrix) (w : vector) :
  _population natm labels ovlp rdm1 = Ok w →
  ∃ pop,
    contract_ij_ji_i rdm1 ovlp = Ok pop
    ∧ length w = natm
    ∧ ∀ a, (wt w a == sumn (length labels) (share labels pop a))%Q.
Proof.
  unfold _population. intros H.
  apply rbind_Ok_inv in H as (pop & Hpop & H). exists pop.
  apply accumulate_Ok in H as (Hlen & _ & _ & Hsum).
  unfold zeros in Hlen. rewrite length_replicate in Hlen.
  split_and!; [done | done |]. intros a. rewrite Hsum.
  assert (wt (zeros natm) a = 0%Q) as ->.
  { unfold wt, zeros. destruct (replicate natm 0%Q !! a) as [x|] eqn:E; [|done].
    by apply lookup_replicate in E as [-> _]. }
  rewrite Qplus_0_l. apply sumn_ext. intros t _. unfold share. simpl. reflexivity.
Qed.

Lemma population_of_atom_sums_its_AOs_witness :
  ∃ pop,
    contract_ij_ji_i (make_rdm1 [1; 0]%Q 1%Q) s_two = Ok pop
    ∧ length [1; 0]%Q = 2
    ∧ ∀ a, (wt [1; 0]%Q a == sumn (length two_labels) (share two_labels pop a))%Q.
Proof.
  apply (population_of_atom_sums_its_AOs 2 two_labels s_two
           (make_rdm1 [1; 0]%Q 1%Q)). 
  vm_compute. reflexivity.
Defined.

(** X10: once the contraction has returned the AO populations [pop],
    [_population] raises [IndexError] exactly when an AO label names an
    atom that is not below [natm] or there are more labels than
    populations; otherwise it returns. *)
Theorem population_IndexError_iff
    (natm : nat) (labels : list (nat * string)) (ovlp rdm1 : matrix) (pop : vector) :
  contract_ij_ji_i rdm1 ovlp = Ok pop →
  (_population natm labels ovlp rdm1 = Raise IndexError
   ↔ ¬ (Forall (fun k => k.1 < natm) labels ∧ length labels ≤ length pop))
  ∧ ((∃ w, _population natm labels ovlp rdm1 = Ok w)
     ↔ Forall (fun k => k.1 < natm) labels ∧ length labels ≤ length pop).
Proof.
  intros Hpop. unfold _population. rewrite Hpop. simpl.
  assert ((∃ w, accumulate pop 0 labels (zeros natm) = Ok w)
          ↔ Forall (fun k => k.1 < natm) labels ∧ length labels ≤ length pop) as Hiff.
  { split.
    - intros [w H]. apply accumulate_Ok in H as (_ & Hall & Hlen & _).
      unfold zeros in Hall. rewrite length_replicate in Hall. split; [done |].
      destruct labels; [simpl; lia |]. by apply Hlen.
    - intros [Hall Hlen].
      destruct (accumulate_sum pop labels 0 (zeros natm)) as (w & Hw & _).
      + unfold zeros. by rewrite length_replicate.
      + simpl. lia.
      + by exists w. }
  split; [|done]. rewrite <- Hiff. split.
  - intros H [w Hw]. congruence.
  - intros H. destruct (accumulate_Ok_or_IndexError pop labels 0 (zeros natm))
      as [Hok|Herr]; [by destruct H | done].
Qed.

Lemma population_IndexError_iff_witness :
  (_population 1 two_labels s_two (make_rdm1 [1; 0]%Q 1%Q)
   = Raise IndexError
   ↔ ¬ (Forall (fun k : nat * string => k.1 < 1) two_labels
        ∧ length two_labels ≤ length [1; 0]%Q))
  ∧ ((∃ w, _population 1 two_labels s_two (make_rdm1 [1; 0]%Q 1%Q) = Ok w)
     ↔ Forall (fun k : nat * string => k.1 < 1) two_labels
       ∧ length two_labels ≤ length [1; 0]%Q).
Proof.
  apply (population_IndexError_iff 1 two_labels s_two
           (make_rdm1 [1; 0]%Q 1%Q) [1; 0]%Q).
  vm_compute. reflexivity.
Defined.

(** ** Weights under the identity overlap *)

Lemma sumn_zero n f : (∀ i, i < n → (f i == 0)%Q) → (sumn n f == 0)%Q.
Proof.
  revert f. induction n as [|n IH]; intros f H; simpl; [reflexivity |].
  rewrite (H 0) by lia. rewrite IH; [ring |]. intros i Hi. apply H. lia.
Qed.

Lemma sumn_nonneg n f : (∀ i, i < n → (0 <= f i)%Q) → (0 <= sumn n f)%Q.
Proof.
  revert f. induction n as [|n IH]; intros f H; simpl; [apply Qle_refl |].
  rewrite <- (Qplus_0_l 0). apply Qplus_le_compat; [apply H; lia |].
  apply IH. intros i Hi. apply H. lia.
Qed.

(** A sum that picks one index. *)
Lemma sumn_pick n i (g : nat → Q) :
  i < n → (sumn n (fun k => if k =? i then g k else 0) == g i)%Q.
Proof.
  revert i g. induction n as [|n IH]; intros i g Hi; [lia |]. simpl.
  destruct i as [|i]; simpl.
  - rewrite sumn_zero; [ring |]. intros k _. reflexivity.
  - rewrite (IH i (fun k => g (S k))) by lia. ring.
Qed.

Lemma column_eye n i :
  i < n → column (eye n) i = map (fun k => if k =? i then 1%Q else 0%Q) (seq 0 n).
Proof.
  intros Hi. unfold column, eye. rewrite <- list_fmap_compose.
  apply list_fmap_ext. intros _ k _. simpl.
  rewrite list_lookup_fmap, lookup_seq_lt by done. done.
Qed.

Lemma wt_seq_map (f : nat → Q) n k :
  k < n → wt (map f (seq 0 n)) k = f k.
Proof.
  intros Hk. unfold wt. by rewrite list_lookup_fmap, lookup_seq_lt.
Qed.

(** Against [np.eye], the population of an AO is the occupation times the
    square of the orbital's coefficient on that AO. *)
Lemma contract_rdm1_eye n (orb : vector) occ pop :
  contract_ij_ji_i (make_rdm1 orb occ) (eye n) = Ok pop →
  ∀ i, (wt pop i == occ * (wt orb i * wt orb i))%Q.
Proof.
  unfold contract_ij_ji_i. intros H.
  destruct (forallb _ (make_rdm1 orb occ)) eqn:E1; [|discriminate].
  destruct (forallb _ (eye n)) eqn:E2; [|discriminate].
  injection H as <-. intros i.
  unfold eye in E1 at 1. rewrite length_fmap, length_seq in E1.
  destruct (orb !! i) as [ci|] eqn:Ei.
  2:{ unfold wt. rewrite list_lookup_imap. unfold make_rdm1.
      rewrite list_lookup_fmap, Ei. simpl. ring. }
  pose proof (lookup_lt_Some _ _ _ Ei) as Hi.
  assert (length orb = n) as Hn.
  { rewrite forallb_forall in E1.
    specialize (E1 (map (fun cj => (occ * (ci * cj))%Q) orb)).
    rewrite length_fmap in E1. apply Nat.eqb_eq, E1.
    unfold make_rdm1. apply in_map_iff. exists ci. split; [done |].
    apply list_elem_of_In. by eapply list_elem_of_lookup_2. }
  unfold wt at 1. rewrite list_lookup_imap. unfold make_rdm1 at 1.
  rewrite list_lookup_fmap, Ei. simpl.
  rewrite column_eye by lia.
  rewrite dot_sumn by (by rewrite !length_fmap, length_seq).
  rewrite length_fmap, Hn.
  rewrite (sumn_ext _ _
    (fun k => if k =? i then (occ * (ci * wt orb k))%Q else 0%Q)).
  2:{ intros k Hk. rewrite wt_seq_map by done.
      unfold wt at 1. rewrite list_lookup_fmap.
      destruct (lookup_lt_is_Some_2 orb k ltac:(lia)) as [ck Hck].
      rewrite Hck. simpl. rewrite (wt_lookup _ _ _ Hck).
      destruct (k =? i); ring. }
  rewrite sumn_pick by lia. by rewrite (wt_lookup _ _ _ Ei).
Qed.

Lemma Qsquare_nonneg (x : Q) : (0 <= x * x)%Q.
Proof. unfold Qle. simpl. nia. Qed.

(** Against [np.eye], a weight vector that [get_weights] returns for an
    orbital with a non-negative occupation has no negative entry: the
    entry of an atom is the occupation times the sum of the squared
    coefficients on the AOs of that atom. *)
Lemma get_weights_eye_nonneg natm labels n mo (mocc : vector) j occ w :
  mocc !! j = Some occ → (0 <= occ)%Q →
  get_weights natm labels (eye n) mo mocc j = Ok w →
  ∀ a, (0 <= wt w a)%Q.
Proof.
  intros Hocc Hpos H a. unfold get_weights in H.
  apply rbind_Ok_inv in H as (m & _ & H).
  apply rbind_Ok_inv in H as (orb & _ & H).
  apply rbind_Ok_inv in H as (occ' & Hocc'%of_option_Ok & H).
  assert (occ' = occ) as -> by congruence.
  unfold _population in H. apply rbind_Ok_inv in H as (p & Hp & H).
  pose proof (contract_rdm1_eye _ _ _ _ Hp) as Hval.
  apply accumulate_Ok in H as (_ & _ & _ & Hsum). rewrite (Hsum a).
  assert (wt (zeros natm) a = 0%Q) as ->.
  { unfold wt, zeros. destruct (replicate _ 0%Q !! a) as [x|] eqn:E; [|done].
    by apply lookup_replicate in E as [-> _]. }
  rewrite Qplus_0_l. apply sumn_nonneg. intros t _.
  destruct (_ !! t) as [k|]; [|apply Qle_refl].
  destruct (k.1 =? a); [|apply Qle_refl].
  simpl. rewrite Hval. apply Qmult_le_0_compat; [done | apply Qsquare_nonneg].
Qed.

(** ** assign_rdm1s: what the weights are *)

Section WeightValues.

Variable reference_mol : Mole → Mole.
Variable lo_iao : Mole → coeffs → coeffs.
Variable lo_vec_lowdin : coeffs → matrix → coeffs.
Variable num_threads : nat.
Variable schedule : nat → list nat.
Variable mol : Mole.
Variable s : matrix.
Variable mo_coeff : coeffs * coeffs.
Variable mo_occ : vector * vector.
Variable ref pop : string.
Variable multiproc : bool.
Variable verbose : Z.

Local Abbreviation bound_for' := (bound_for lo_iao lo_vec_lowdin mol s mo_coeff mo_occ pop).
Local Abbreviation value' := (kernel_value reference_mol mol s pop).

(** A pass of the loop of line 103 that returns has stored, for channel
    [i], the values of the kernel for the positions of [idx] in their
    order, computed from the orbitals and occupations bound for the
    channel; with a pool it had at least one process. *)
Lemma weights_spin_values i idx fr fr' b :
  weights_spin reference_mol lo_iao lo_vec_lowdin num_threads schedule
    mol s mo_coeff mo_occ ref pop multiproc (i, idx) fr = (fr', Ok b) →
  ∃ ws,
    weights fr'
    = (if closed_shell ref mol then <[i + 1 := ws]> (<[i := ws]> (weights fr))
       else <[i := ws]> (weights fr))
    ∧ i < length (weights fr)
    ∧ Forall2 (fun j w => value' fr' j = Ok w) (seq 0 (length idx)) ws
    ∧ bound_for' i idx fr'
    ∧ (multiproc = true → 0 < min (length idx) num_threads)
    ∧ ∃ es, trace fr' = trace fr ++ es
            ∧ es ≡ₚ map (Weighed i) (seq 0 (length idx))
            ∧ (multiproc = false → es = map (Weighed i) (seq 0 (length idx))).
Proof.
  unfold weights_spin. intros H.
  apply bind_Ok_inv in H as (fr1 & u & Hmo & H).
  assert (weights fr1 = weights fr ∧ trace fr1 = trace fr
          ∧ (pop = "mulliken" →
             ∃ c, (a <- sel2 mo_coeff i ;; take a idx)%res = Ok c ∧ mo fr1 = Some c)
          ∧ (pop = "iao" →
             ∃ c m, (a <- sel2 mo_coeff i ;; take a idx)%res = Ok c
                    ∧ contract_ki_kl_lj_ij (lo_vec_lowdin (lo_iao mol c) s) s c = Ok m
                    ∧ mo fr1 = Some m)) as (Hw1 & Ht1 & Hmull & Hiao).
  { destruct (String.eqb_spec pop "mulliken") as [->|Hne1].
    - bind_inv Hmo as c Hc. injection Hmo as <- _. simpl.
      split_and!; [done | done | by exists c | discriminate].
    - destruct (String.eqb_spec pop "iao") as [->|Hne2].
      + bind_inv Hmo as c Hc. bind_inv Hmo as c' Hc'. bind_inv Hmo as m Hm.
        injection Hmo as <- _. simpl.
        assert (c' = c) as -> by congruence.
        split_and!; [done | done | discriminate | by exists c, m].
      + injection Hmo as <- _. by split_and!. }
  bind_inv H as o Ho. bind_inv H as u1 Hu1. bind_inv H as u2 Hu2.
  bind_inv H as d Hd. simpl in H.
  apply bind_Ok_inv in H as (fr2 & ws & Hrun & H).
  match type of Hrun with _ ?f = _ => set (frd := f) in * end.
  assert (∃ es, fr2 = logged frd es
                ∧ Forall2 (fun j w => value' frd j = Ok w) (seq 0 (length idx)) ws
                ∧ (multiproc = true → 0 < min (length idx) num_threads)
                ∧ es ≡ₚ map (Weighed i) (seq 0 (length idx))
                ∧ (multiproc = false → es = map (Weighed i) (seq 0 (length idx))))
    as (es & -> & Hws & Hproc & Hes & Hseq).
  { destruct multiproc.
    - apply pool_map_Ok_inv in Hrun as (Hp & es & -> & Hes & Hws).
      exists es. simpl in Hp. rewrite length_seq in Hp. by split_and!.
    - apply smap_kernel_Ok in Hrun as [-> Hws].
      exists (map (Weighed i) (seq 0 (length idx))). by split_and!. }
  bind_inv H as w Hw. bind_inv H as w' Hw'. bind_inv H as u3 Hu3.
  unfold assign_at in Hw'. simpl in Hw'. rewrite Hw1 in Hw'.
  destruct (i <? length (weights fr)) eqn:Ei; [|discriminate].
  injection Hw' as <-. apply Nat.ltb_lt in Ei.
  destruct (closed_shell ref mol).
  - bind_inv H as w2 Hw2'. bind_inv H as wi Hwi. bind_inv H as w3 Hw3.
    bind_inv H as u4 Hu4. injection H as <- <-.
    unfold assign_at in Hw3. simpl in Hwi, Hw3.
    apply of_option_Ok in Hwi.
    rewrite list_lookup_insert_eq in Hwi by done. injection Hwi as <-.
    destruct (i + 1 <? _); [|discriminate]. injection Hw3 as <-.
    exists ws. simpl. split_and!; try done.
    exists es. by rewrite Ht1.
  - injection H as <- <-.
    exists ws. simpl. split_and!; try done.
    exists es. by rewrite Ht1.
Qed.

(** Lines 99-137, when they return: what the two lists of weights hold. *)
Lemma populations_values fr0 fr1 u :
  populations reference_mol lo_iao lo_vec_lowdin num_threads schedule
    mol s mo_coeff mo_occ ref pop multiproc verbose fr0 = (fr1, Ok u) →
  ∃ fa w0 w1,
    weights fr1 = [w0; w1]
    ∧ Forall2 (fun j w => value' fa j = Ok w) (seq 0 (length (alpha mol))) w0
    ∧ bound_for' 0 (alpha mol) fa
    ∧ (if closed_shell ref mol then w1 = w0
       else ∃ fb,
           Forall2 (fun j w => value' fb j = Ok w) (seq 0 (length (beta mol))) w1
           ∧ bound_for' 1 (beta mol) fb)
    ∧ (multiproc = true →
       0 < num_threads ∧ alpha mol ≠ []
       ∧ (closed_shell ref mol = false → beta mol ≠ []))
    ∧ domain fr1 = seq 0 (length (last_channel ref mol))
    ∧ ∃ es, weighed (trace fr1) = weighed (trace fr0) ++ es
            ∧ es ≡ₚ map (pair 0) (seq 0 (length (alpha mol)))
                    ++ (if closed_shell ref mol then []
                        else map (pair 1) (seq 0 (length (beta mol))))
            ∧ (multiproc = false →
               es = map (pair 0) (seq 0 (length (alpha mol)))
                    ++ (if closed_shell ref mol then []
                        else map (pair 1) (seq 0 (length (beta mol))))).
Proof.
  unfold populations. intros H.
  bind_inv H as u0 Hu0. cbn [for_each] in H.
  apply bind_Ok_inv in H as (frB & u1 & Hloop & H).
  apply sat_keeps_verbose in H as [(Hw1 & Ht1 & Hd1) _].
  apply bind_Ok_inv in Hloop as (frA & brk & Hspin & Hloop).
  pose proof Hspin as Hspin'.
  apply weights_spin_Ok in Hspin' as (_ & _ & -> & _ & HdA & _).
  apply weights_spin_values in Hspin
    as (ws & Hw & _ & Hws & Hb & Hp & es & Hes & Hperm & Hseq).
  rewrite Hw1, Hd1, Ht1. clear Hw1 Hd1 Ht1. unfold last_channel.
  assert (∀ i (d : list nat) l, l ≡ₚ map (Weighed i) d → weighed l ≡ₚ map (pair i) d)
    as Hwp.
  { intros i d l Hl. rewrite <- weighed_Weighed. unfold weighed.
    by apply omap_Permutation. }
  assert (∀ n, 0 < min n num_threads → 0 < num_threads ∧ n ≠ 0) as Hmin by lia.
  destruct (closed_shell ref mol) eqn:Ecl.
  - injection Hloop as <- _.
    exists frA, ws, ws. rewrite Hw. simpl. split_and!; try done.
    + intros Hm. destruct (Hmin _ (Hp Hm)) as [? Hne].
      split_and!; [done | by destruct (alpha mol) | done].
    + exists (weighed es). rewrite Hes, weighed_app, !app_nil_r. simpl.
      split_and!; [done | by apply Hwp |].
      intros Hm. by rewrite (Hseq Hm), weighed_Weighed.
  - apply bind_Ok_inv in Hloop as (frC & brk & Hspin & Hloop).
    pose proof Hspin as Hspin'.
    apply weights_spin_Ok in Hspin' as (_ & _ & -> & _ & HdC & _).
    apply weights_spin_values in Hspin
      as (ws' & Hw' & _ & Hws' & Hb' & Hp' & es' & Hes' & Hperm' & Hseq').
    rewrite Ecl in Hloop, Hw'. injection Hloop as <- _.
    exists frA, ws, ws'. rewrite Hw', Hw. simpl. split_and!; try done.
    + by exists frC.
    + intros Hm. destruct (Hmin _ (Hp Hm)) as [? Hne].
      destruct (Hmin _ (Hp' Hm)) as [_ Hne'].
      split_and!; [done | by destruct (alpha mol) | by destruct (beta mol)].
    + exists (weighed es ++ weighed es').
      rewrite Hes', Hes, !weighed_app, <- app_assoc. simpl.
      split_and!; [done | by rewrite (Hwp _ _ _ Hperm), (Hwp _ _ _ Hperm') |].
      intros Hm. by rewrite (Hseq Hm), (Hseq' Hm), !weighed_Weighed.
Qed.

End WeightValues.

(** The weights of a channel under 'mulliken': position [j] holds the
    populations of the orbital that [idx[j]] names. *)
Lemma mulliken_channel_values (reference_mol : Mole → Mole)
    (lo_iao : Mole → coeffs → coeffs) (lo_vec_lowdin : coeffs → matrix → coeffs)
    (mol : Mole) (s : matrix) (mo_coeff : coeffs * coeffs)
    (mo_occ : vector * vector) i idx a o fa ws :
  sel2 mo_coeff i = Ok a → sel2 mo_occ i = Ok o →
  bound_for lo_iao lo_vec_lowdin mol s mo_coeff mo_occ "mulliken" i idx fa →
  Forall2 (fun j w => kernel_value reference_mol mol s "mulliken" fa j = Ok w)
    (seq 0 (length idx)) ws →
  length ws = length idx
  ∧ ∀ j m, idx !! j = Some m →
      ∃ c occ v, a !! m = Some c ∧ o !! m = Some occ ∧ ws !! j = Some v
                 ∧ _population (natm mol) (ao_labels mol) s (make_rdm1 c occ) = Ok v.
Proof.
  intros Ha Ho (Hocc & Hm & _) Hws.
  destruct (Hm eq_refl) as (c & Hc & Hmo).
  rewrite Ha in Hc. rewrite Ho in Hocc. simpl in Hc, Hocc.
  apply take_Ok in Hc, Hocc. split.
  { apply Forall2_length in Hws. by rewrite length_seq in Hws. }
  intros j m Hj.
  pose proof (lookup_lt_Some _ _ _ Hj) as Hlt.
  destruct (Forall2_lookup_l _ _ _ j j Hws) as (w & Hw & Hval).
  { by apply lookup_seq_lt. }
  unfold kernel_value, get_weights in Hval. rewrite Hmo in Hval. simpl in Hval.
  apply rbind_Ok_inv in Hval as (orb & Horb%of_option_Ok & Hval).
  apply rbind_Ok_inv in Hval as (occ & Hoccj%of_option_Ok & Hval).
  exists orb, occ, w. split_and!; [| | done | exact Hval].
  - by apply (Forall2_lookup_lr _ _ _ _ _ _ Hc Hj Horb).
  - by apply (Forall2_lookup_lr _ _ _ _ _ _ Hocc Hj Hoccj).
Qed.

(** A call that returns weights was made with policy 'atoms' or 'eda' and
    returns the weights lists as the loop of line 103 left them. *)
Lemma assign_rdm1s_Weights_inv (reference_mol : Mole → Mole)
    (lo_iao : Mole → coeffs → coeffs) (lo_vec_lowdin : coeffs → matrix → coeffs)
    (num_threads : nat) (schedule : nat → list nat) (mol : Mole) (s : matrix)
    (mo_coeff : coeffs * coeffs) (mo_occ : vector * vector) (ref pop part : string)
    (multiproc : bool) (verbose : Z) (kwargs : gmap string Q) fr0 fr' w :
  assign_rdm1s reference_mol lo_iao lo_vec_lowdin num_threads schedule mol s
    mo_coeff mo_occ ref pop part multiproc verbose kwargs fr0 = (fr', Ok (Weights w)) →
  (part = "atoms" ∨ part = "eda")
  ∧ weights fr' = w
  ∧ populations reference_mol lo_iao lo_vec_lowdin num_threads schedule mol s
      mo_coeff mo_occ ref pop multiproc verbose fr0 = (fr', Ok tt).
Proof.
  unfold assign_rdm1s. intros H.
  apply bind_Ok_inv in H as (fr1 & [] & Hpop & H).
  apply bind_Ok_inv in H as (fr2 & bound & Hb & H).
  destruct ((part =? "atoms")%string || (part =? "eda")%string) eqn:Ep.
  - assert (part = "atoms" ∨ part = "eda") as Hpart.
    { apply orb_true_iff in Ep as [E|E]; apply String.eqb_eq in E; tauto. }
    unfold bonds in Hb.
    assert ((part =? "bonds")%string = false) as Eb.
    { apply String.eqb_neq. by destruct Hpart as [-> | ->]. }
    rewrite Eb in Hb. injection Hb as <- <-.
    bind_inv H as w' Hw'. injection H as <- ->. by split_and!.
  - destruct bound as [[rep cu]|]; simpl in H; discriminate.
Qed.

(** X11: under the 'mulliken' scheme, in both dispatch modes, a call that
    returns weights returns two lists.  The first has one vector per
    occupied alpha orbital, in the order of [mol.alpha]: the vector at
    position [j] is [_population] of the one-orbital density built from
    column [mol.alpha[j]] of [mo_coeff[0]] and the occupation
    [mo_occ[0][mol.alpha[j]]], against the overlap [s].  The second is the
    first list itself under the closed-shell reduction, and otherwise the
    same for beta from [mo_coeff[1]] and [mo_occ[1]]. *)
Theorem assign_rdm1s_mulliken_weights
    (reference_mol : Mole → Mole) (lo_iao : Mole → coeffs → coeffs)
    (lo_vec_lowdin : coeffs → matrix → coeffs) (num_threads : nat)
    (schedule : nat → list nat) (mol : Mole) (s : matrix)
    (mo_coeff : coeffs * coeffs) (mo_occ : vector * vector) (ref part : string)
    (multiproc : bool) (verbose : Z) (kwargs : gmap string Q)
    (fr0 fr' : frame) (w : list (list vector)) :
  assign_rdm1s reference_mol lo_iao lo_vec_lowdin num_threads schedule mol s
    mo_coeff mo_occ ref "mulliken" part multiproc verbose kwargs fr0
    = (fr', Ok (Weights w)) →
  ∃ w0 w1,
    w = [w0; w1]
    ∧ length w0 = length (alpha mol)
    ∧ (∀ j m, alpha mol !! j = Some m →
         ∃ c occ v, mo_coeff.1 !! m = Some c ∧ mo_occ.1 !! m = Some occ
                    ∧ w0 !! j = Some v
                    ∧ _population (natm mol) (ao_labels mol) s (make_rdm1 c occ) = Ok v)
    ∧ if closed_shell ref mol then w1 = w0
      else length w1 = length (beta mol)
           ∧ ∀ j m, beta mol !! j = Some m →
               ∃ c occ v, mo_coeff.2 !! m = Some c ∧ mo_occ.2 !! m = Some occ
                          ∧ w1 !! j = Some v
                          ∧ _population (natm mol) (ao_labels mol) s
                              (make_rdm1 c occ) = Ok v.
Proof.
  intros H. apply assign_rdm1s_Weights_inv in H as (_ & <- & H).
  apply populations_values in H as (fa & w0 & w1 & Hw & Hws & Hb & Hbeta & _).
  exists w0, w1.
  destruct (mulliken_channel_values reference_mol lo_iao lo_vec_lowdin mol s
              mo_coeff mo_occ 0 (alpha mol) mo_coeff.1 mo_occ.1 fa w0)
    as [Hlen Hval]; [done.. |].
  split_and!; [done | done | done |].
  destruct (closed_shell ref mol); [done |].
  destruct Hbeta as (fb & Hws' & Hb').
  by apply (mulliken_channel_values reference_mol lo_iao lo_vec_lowdin mol s
              mo_coeff mo_occ 1 (beta mol) mo_coeff.2 mo_occ.2 fb w1).
Qed.

Lemma assign_rdm1s_mulliken_weights_witness :
  ∃ w0 w1,
    [[[1; 0]; [0; 1]]; [[1; 0]]]%Q = [w0; w1]
    ∧ length w0 = length (alpha mol_open)
    ∧ (∀ j m, alpha mol_open !! j = Some m →
         ∃ c occ v, (c_unit, c_unit).1 !! m = Some c ∧ occ_open.1 !! m = Some occ
                    ∧ w0 !! j = Some v
                    ∧ _population (natm mol_open) (ao_labels mol_open) s_two
                        (make_rdm1 c occ) = Ok v)
    ∧ if closed_shell "unrestricted" mol_open then w1 = w0
      else length w1 = length (beta mol_open)
           ∧ ∀ j m, beta mol_open !! j = Some m →
               ∃ c occ v, (c_unit, c_unit).2 !! m = Some c ∧ occ_open.2 !! m = Some occ
                          ∧ w1 !! j = Some v
                          ∧ _population (natm mol_open) (ao_labels mol_open) s_two
                              (make_rdm1 c occ) = Ok v.
Proof.
  apply (assign_rdm1s_mulliken_weights id_mol id_iao id_lowdin 2 in_order
           mol_open s_two (c_unit, c_unit) occ_open "unrestricted" "atoms"
           true 0 ∅ initial_frame
           (assign_rdm1s id_mol id_iao id_lowdin 2 in_order mol_open s_two
              (c_unit, c_unit) occ_open "unrestricted" "mulliken" "atoms"
              true 0 ∅ initial_frame).1).
  vm_compute. reflexivity.
Defined.

Lemma get_weights_length natm labels ovlp mo (mocc : vector) j w :
  get_weights natm labels ovlp mo mocc j = Ok w → length w = natm.
Proof.
  unfold get_weights, _population. intros H.
  apply rbind_Ok_inv in H as (m & _ & H).
  apply rbind_Ok_inv in H as (orb & _ & H).
  apply rbind_Ok_inv in H as (occ & _ & H).
  apply rbind_Ok_inv in H as (p & _ & H).
  apply accumulate_Ok in H as (Hlen & _).
  unfold zeros in Hlen. by rewrite length_replicate in Hlen.
Qed.

(** X12: a call that returns weights, under any scheme and in both
    dispatch modes, returns two lists of vectors; the first has one vector
    per occupied alpha orbital, the second one per occupied orbital of the
    last channel treated (alpha under the closed-shell reduction, beta
    otherwise), and every vector has one entry per atom of the molecule
    the populations refer to. *)
Theorem assign_rdm1s_weights_shape
    (reference_mol : Mole → Mole) (lo_iao : Mole → coeffs → coeffs)
    (lo_vec_lowdin : coeffs → matrix → coeffs) (num_threads : nat)
    (schedule : nat → list nat) (mol : Mole) (s : matrix)
    (mo_coeff : coeffs * coeffs) (mo_occ : vector * vector) (ref pop part : string)
    (multiproc : bool) (verbose : Z) (kwargs : gmap string Q)
    (fr0 fr' : frame) (w : list (list vector)) :
  assign_rdm1s reference_mol lo_iao lo_vec_lowdin num_threads schedule mol s
    mo_coeff mo_occ ref pop part multiproc verbose kwargs fr0
    = (fr', Ok (Weights w)) →
  ∃ w0 w1,
    w = [w0; w1]
    ∧ length w0 = length (alpha mol)
    ∧ length w1 = length (last_channel ref mol)
    ∧ ∀ v, v ∈ w0 ++ w1 → length v = natm (pmol reference_mol mol pop).
Proof.
  intros H. apply assign_rdm1s_Weights_inv in H as (_ & <- & H).
  apply populations_values in H as (fa & w0 & w1 & Hw & Hws & _ & Hbeta & _).
  exists w0, w1.
  assert (∀ f n (ws : list vector),
            Forall2 (fun j w => kernel_value reference_mol mol s pop f j = Ok w)
              (seq 0 n) ws →
            length ws = n
            ∧ ∀ v, v ∈ ws → length v = natm (pmol reference_mol mol pop)) as Hshape.
  { intros f n ws Hf. split.
    - apply Forall2_length in Hf. by rewrite length_seq in Hf.
    - intros v [k Hk]%list_elem_of_lookup.
      destruct (Forall2_lookup_r _ _ _ _ _ Hf Hk) as (j & _ & Hj).
      by apply get_weights_length in Hj. }
  destruct (Hshape _ _ _ Hws) as [Hl0 Hv0]. unfold last_channel.
  destruct (closed_shell ref mol).
  - subst w1. split_and!; try done.
    intros v [Hv|Hv]%elem_of_app; by apply Hv0.
  - destruct Hbeta as (fb & Hws' & _).
    destruct (Hshape _ _ _ Hws') as [Hl1 Hv1].
    split_and!; try done.
    intros v [Hv|Hv]%elem_of_app; [by apply Hv0 | by apply Hv1].
Qed.

Lemma assign_rdm1s_weights_shape_witness :
  ∃ w0 w1,
    [[[1; 0]; [0; 1]]; [[1; 0]]]%Q = [w0; w1]
    ∧ length w0 = length (alpha mol_open)
    ∧ length w1 = length (last_channel "unrestricted" mol_open)
    ∧ ∀ v, v ∈ w0 ++ w1 → length v = natm (pmol id_mol mol_open "iao").
Proof.
  apply (assign_rdm1s_weights_shape id_mol ao_iao id_lowdin 2 in_order
           mol_open s_two (c_unit, c_unit) occ_open "unrestricted" "iao" "eda"
           false 0 ∅ initial_frame
           (assign_rdm1s id_mol ao_iao id_lowdin 2 in_order mol_open s_two
              (c_unit, c_unit) occ_open "unrestricted" "iao" "eda"
              false 0 ∅ initial_frame).1).
  vm_compute. reflexivity.
Defined.

(** The populations of a one-orbital density sum to the occupation times
    the squared norm of the orbital in the overlap. *)
Lemma population_sum natm labels (s : matrix) (c : vector) occ v :
  _population natm labels s (make_rdm1 c occ) = Ok v →
  length labels = length c → length s = length c →
  Forall (fun row => length row = length c) s →
  (Qsum v == occ * quad s c)%Q.
Proof.
  unfold _population. intros H Hlab HS Hrows.
  apply rbind_Ok_inv in H as (pop & Hpop & H).
  destruct (contract_rdm1_sum s c occ HS Hrows) as (pop' & Hpop' & Hlen & Hsum).
  assert (pop' = pop) as -> by congruence.
  pose proof (accumulate_Ok _ _ _ _ _ H) as (_ & Hall & _ & _).
  destruct (accumulate_sum pop labels 0 (zeros natm) Hall) as (v' & Hv' & _ & Hs).
  { simpl. lia. }
  assert (v' = v) as -> by congruence.
  rewrite Hs, Qsum_zeros, <- Hsum, (Qsum_sumn pop), Hlab, Hlen, Qplus_0_l.
  apply sumn_ext. intros t _. reflexivity.
Qed.

(** X13: under the 'mulliken' scheme the weights a call returns for an
    orbital that is normalized in the overlap sum, over the atoms, to the
    occupation of that orbital, in both channels and both dispatch modes
    (the AO labels, the orbital and the square overlap being of one
    size). *)
Theorem assign_rdm1s_mulliken_weights_sum
    (reference_mol : Mole → Mole) (lo_iao : Mole → coeffs → coeffs)
    (lo_vec_lowdin : coeffs → matrix → coeffs) (num_threads : nat)
    (schedule : nat → list nat) (mol : Mole) (s : matrix)
    (mo_coeff : coeffs * coeffs) (mo_occ : vector * vector) (ref part : string)
    (multiproc : bool) (verbose : Z) (kwargs : gmap string Q)
    (fr0 fr' : frame) (w0 w1 : list vector) :
  assign_rdm1s reference_mol lo_iao lo_vec_lowdin num_threads schedule mol s
    mo_coeff mo_occ ref "mulliken" part multiproc verbose kwargs fr0
    = (fr', Ok (Weights [w0; w1])) →
  sums_to_occupation (ao_labels mol) s mo_coeff.1 mo_occ.1 (alpha mol) w0
  ∧ if closed_shell ref mol
    then sums_to_occupation (ao_labels mol) s mo_coeff.1 mo_occ.1 (alpha mol) w1
    else sums_to_occupation (ao_labels mol) s mo_coeff.2 mo_occ.2 (beta mol) w1.
Proof.
  intros H. apply assign_rdm1s_Weights_inv in H as (_ & Hw' & H).
  apply populations_values in H as (fa & w0' & w1' & Hw & Hws & Hb & Hbeta & _).
  rewrite Hw' in Hw. injection Hw as -> ->.
  assert (∀ i idx a o fa ws,
            sel2 mo_coeff i = Ok a → sel2 mo_occ i = Ok o →
            bound_for lo_iao lo_vec_lowdin mol s mo_coeff mo_occ "mulliken" i idx fa →
            Forall2 (fun j w => kernel_value reference_mol mol s "mulliken" fa j = Ok w)
              (seq 0 (length idx)) ws →
            sums_to_occupation (ao_labels mol) s a o idx ws) as Hchan.
  { intros i idx a o f ws Ha Ho Hbd Hf j m c Hj Hc Hlab HS Hrows Hnorm.
    destruct (mulliken_channel_values _ _ _ _ _ _ _ _ _ _ _ _ _ Ha Ho Hbd Hf)
      as [_ Hval].
    destruct (Hval j m Hj) as (c' & occ & v & Hc' & Hocc & Hv & Hp).
    assert (c' = c) as -> by congruence.
    exists occ, v. split_and!; [done | done |].
    rewrite (population_sum _ _ _ _ _ _ Hp Hlab HS Hrows), Hnorm. ring. }
  split; [by apply (Hchan 0 _ _ _ fa) |].
  destruct (closed_shell ref mol).
  - subst w1'. by apply (Hchan 0 _ _ _ fa).
  - destruct Hbeta as (fb & Hws' & Hb'). by apply (Hchan 1 _ _ _ fb).
Qed.

Lemma assign_rdm1s_mulliken_weights_sum_witness :
  sums_to_occupation (ao_labels mol_open) s_two (c_unit, c_unit).1 occ_open.1
    (alpha mol_open) [[1; 0]; [0; 1]]%Q
  ∧ if closed_shell "unrestricted" mol_open
    then sums_to_occupation (ao_labels mol_open) s_two (c_unit, c_unit).1
           occ_open.1 (alpha mol_open) [[1; 0]]%Q
    else sums_to_occupation (ao_labels mol_open) s_two (c_unit, c_unit).2
           occ_open.2 (beta mol_open) [[1; 0]]%Q.
Proof.
  apply (assign_rdm1s_mulliken_weights_sum id_mol id_iao id_lowdin 2 in_order
           mol_open s_two (c_unit, c_unit) occ_open "unrestricted" "atoms"
           true 0 ∅ initial_frame
           (assign_rdm1s id_mol id_iao id_lowdin 2 in_order mol_open s_two
              (c_unit, c_unit) occ_open "unrestricted" "mulliken" "atoms"
              true 0 ∅ initial_frame).1).
  vm_compute. reflexivity.
Defined.

(** X14: under a scheme other than 'mulliken' (the populations are then
    taken against the identity) and with occupations that are not
    negative, no weight that a call returns is negative. *)
Theorem assign_rdm1s_identity_overlap_weights_nonnegative
    (reference_mol : Mole → Mole) (lo_iao : Mole → coeffs → coeffs)
    (lo_vec_lowdin : coeffs → matrix → coeffs) (num_threads : nat)
    (schedule : nat → list nat) (mol : Mole) (s : matrix)
    (mo_coeff : coeffs * coeffs) (mo_occ : vector * vector) (ref pop part : string)
    (multiproc : bool) (verbose : Z) (kwargs : gmap string Q)
    (fr0 fr' : frame) (w : list (list vector)) :
  pop ≠ "mulliken" →
  Forall (fun x => (0 <= x)%Q) mo_occ.1 →
  Forall (fun x => (0 <= x)%Q) mo_occ.2 →
  assign_rdm1s reference_mol lo_iao lo_vec_lowdin num_threads schedule mol s
    mo_coeff mo_occ ref pop part multiproc verbose kwargs fr0
    = (fr', Ok (Weights w)) →
  ∀ wi v a, wi ∈ w → v ∈ wi → (0 <= wt v a)%Q.
Proof.
  intros Hpop Ho1 Ho2 H.
  apply assign_rdm1s_Weights_inv in H as (_ & <- & H).
  apply populations_values in H as (fa & w0 & w1 & Hw & Hws & Hb & Hbeta & _).
  assert (∀ i o idx f (ws : list vector),
            sel2 mo_occ i = Ok o → Forall (fun x => (0 <= x)%Q) o →
            bound_for lo_iao lo_vec_lowdin mol s mo_coeff mo_occ pop i idx f →
            Forall2 (fun j w => kernel_value reference_mol mol s pop f j = Ok w)
              (seq 0 (length idx)) ws →
            ∀ v a, v ∈ ws → (0 <= wt v a)%Q) as Hchan.
  { intros i o idx f ws Ho Hpos (Hocc & _) Hf v a [k Hk]%list_elem_of_lookup.
    rewrite Ho in Hocc. simpl in Hocc. apply take_Ok in Hocc.
    destruct (Forall2_lookup_r _ _ _ _ _ Hf Hk) as (j & _ & Hj).
    unfold kernel_value, ovlp in Hj.
    apply String.eqb_neq in Hpop. rewrite Hpop in Hj.
    assert (∃ occ, mocc f !! j = Some occ) as [occ Hoccj].
    { unfold get_weights in Hj.
      apply rbind_Ok_inv in Hj as (? & _ & Hj).
      apply rbind_Ok_inv in Hj as (? & _ & Hj).
      apply rbind_Ok_inv in Hj as (occ & ?%of_option_Ok & _). by exists occ. }
    eapply get_weights_eye_nonneg; [exact Hoccj | | exact Hj].
    destruct (Forall2_lookup_r _ _ _ _ _ Hocc Hoccj) as (m & _ & Hm).
    rewrite Forall_forall in Hpos. apply Hpos.
    by eapply list_elem_of_lookup_2. }
  intros wi v a Hwi Hv. rewrite Hw in Hwi.
  assert (wi = w0 ∨ wi = w1) as [-> | ->].
  { apply elem_of_cons in Hwi as [?|Hwi]; [by left |].
    apply elem_of_cons in Hwi as [?|Hwi]; [by right |].
    by apply elem_of_nil in Hwi. }
  - by apply (Hchan 0 _ _ fa w0 eq_refl Ho1 Hb Hws).
  - destruct (closed_shell ref mol).
    + subst w1. by apply (Hchan 0 _ _ fa w0 eq_refl Ho1 Hb Hws).
    + destruct Hbeta as (fb & Hws' & Hb').
      by apply (Hchan 1 _ _ fb w1 eq_refl Ho2 Hb' Hws').
Qed.

Lemma assign_rdm1s_identity_overlap_weights_nonnegative_witness :
  Forall (fun x => (0 <= x)%Q) occ_open.1
  ∧ (∀ wi v a,
      wi ∈ (weights (assign_rdm1s id_mol ao_iao id_lowdin 2 in_order mol_open s_two
                       (c_two, c_two) occ_open "unrestricted" "iao" "atoms"
                       false 0 ∅ initial_frame).1) →
      v ∈ wi → (0 <= wt v a)%Q).
Proof.
  split; [repeat constructor; discriminate |].
  apply (assign_rdm1s_identity_overlap_weights_nonnegative id_mol ao_iao
           id_lowdin 2 in_order mol_open s_two (c_two, c_two) occ_open
           "unrestricted" "iao" "atoms" false 0 ∅ initial_frame
           (assign_rdm1s id_mol ao_iao id_lowdin 2 in_order mol_open s_two
              (c_two, c_two) occ_open "unrestricted" "iao" "atoms"
              false 0 ∅ initial_frame).1).
  - discriminate.
  - repeat constructor; discriminate.
  - repeat constructor; discriminate.
  - vm_compute. reflexivity.
Defined.

(** X15: a call that returns has run the kernel once for every occupied
    alpha orbital and, without the closed-shell reduction, once for every
    occupied beta orbital, and no other time (the bond-wise partitioning and
    the verbose table run none); a pool may finish the runs of a channel
    in any order, the sequential map runs them in the order of the
    channel, alpha before beta. *)
Theorem kernel_runs_once_per_occupied_orbital
    (reference_mol : Mole → Mole) (lo_iao : Mole → coeffs → coeffs)
    (lo_vec_lowdin : coeffs → matrix → coeffs) (num_threads : nat)
    (schedule : nat → list nat) (mol : Mole) (s : matrix)
    (mo_coeff : coeffs * coeffs) (mo_occ : vector * vector) (ref pop part : string)
    (multiproc : bool) (verbose : Z) (kwargs : gmap string Q)
    (fr0 fr' : frame) (res : assigned) :
  assign_rdm1s reference_mol lo_iao lo_vec_lowdin num_threads schedule mol s
    mo_coeff mo_occ ref pop part multiproc verbose kwargs fr0 = (fr', Ok res) →
  ∃ es,
    weighed (trace fr') = weighed (trace fr0) ++ es
    ∧ es ≡ₚ map (pair 0) (seq 0 (length (alpha mol)))
            ++ (if closed_shell ref mol then []
                else map (pair 1) (seq 0 (length (beta mol))))
    ∧ (multiproc = false →
       es = map (pair 0) (seq 0 (length (alpha mol)))
            ++ (if closed_shell ref mol then []
                else map (pair 1) (seq 0 (length (beta mol))))).
Proof.
  unfold assign_rdm1s. intros H.
  apply bind_Ok_inv in H as (fr1 & u & Hpop & H).
  apply populations_values in Hpop as (_ & _ & _ & _ & _ & _ & _ & _ & _ & Hruns).
  apply bind_Ok_inv in H as (fr2 & bound & Hb & H).
  assert (trace fr' = trace fr1) as ->; [|exact Hruns].
  assert (trace fr2 = trace fr1) as <-.
  { unfold bonds in Hb. destruct (part =? "bonds")%string eqn:Ep.
    - apply String.eqb_eq in Ep as ->.
      assert (bonds mol ref "bonds" kwargs fr1 = (fr2, Ok bound)) as Hb'
        by (unfold bonds; exact Hb).
      by apply bonds_Ok in Hb' as (_ & _ & _ & _ & _ & _ & _ & _ & ?).
    - by injection Hb as <- _. }
  destruct ((part =? "atoms")%string || (part =? "eda")%string).
  - bind_inv H as w Hw. by injection H as <- _.
  - destruct bound as [[rep cu]|]; simpl in H; [|discriminate].
    by injection H as <- _.
Qed.

Lemma kernel_runs_once_per_occupied_orbital_witness :
  ∃ es,
    weighed (trace (assign_rdm1s id_mol id_iao id_lowdin 2 in_order mol_open
                      s_two (c_two, c_two) occ_open "unrestricted" "mulliken"
                      "bonds" true 1 kw_thres initial_frame).1)
    = weighed (trace initial_frame) ++ es
    ∧ es ≡ₚ map (pair 0) (seq 0 (length (alpha mol_open)))
            ++ (if closed_shell "unrestricted" mol_open then []
                else map (pair 1) (seq 0 (length (beta mol_open))))
    ∧ (true = false →
       es = map (pair 0) (seq 0 (length (alpha mol_open)))
            ++ (if closed_shell "unrestricted" mol_open then []
                else map (pair 1) (seq 0 (length (beta mol_open))))).
Proof.
  apply (kernel_runs_once_per_occupied_orbital id_mol id_iao id_lowdin 2
           in_order mol_open s_two (c_two, c_two) occ_open "unrestricted"
           "mulliken" "bonds" true 1 kw_thres initial_frame _
           (Bonds [[[0; 1]]; [[0]]] [[(0, 0)]; [(0, 0)]])).
  vm_compute. reflexivity.
Defined.

(** ** assign_rdm1s: the weights under the IAO scheme *)

(** X16: under the 'iao' scheme a call that returns weights has, for each
    channel it treats, built the IAOs from the occupied columns of the
    channel, orthogonalized them against [s], and projected the occupied
    columns on them ([mo = iao^T s c]); the vector at position [j] is
    [_population], for the atoms and AO labels of the reference (minimal
    basis) molecule and against the identity, of the one-orbital density of
    column [j] of the projection with the occupation of orbital
    [mol.alpha[j]] (resp. [mol.beta[j]]). *)
Theorem assign_rdm1s_iao_weights
    (reference_mol : Mole → Mole) (lo_iao : Mole → coeffs → coeffs)
    (lo_vec_lowdin : coeffs → matrix → coeffs) (num_threads : nat)
    (schedule : nat → list nat) (mol : Mole) (s : matrix)
    (mo_coeff : coeffs * coeffs) (mo_occ : vector * vector) (ref part : string)
    (multiproc : bool) (verbose : Z) (kwargs : gmap string Q)
    (fr0 fr' : frame) (w : list (list vector)) :
  assign_rdm1s reference_mol lo_iao lo_vec_lowdin num_threads schedule mol s
    mo_coeff mo_occ ref "iao" part multiproc verbose kwargs fr0
    = (fr', Ok (Weights w)) →
  ∃ w0 w1 ca ma,
    w = [w0; w1]
    ∧ take mo_coeff.1 (alpha mol) = Ok ca
    ∧ contract_ki_kl_lj_ij (lo_vec_lowdin (lo_iao mol ca) s) s ca = Ok ma
    ∧ (∀ j m, alpha mol !! j = Some m →
         ∃ orb occ v, ma !! j = Some orb ∧ mo_occ.1 !! m = Some occ
                      ∧ w0 !! j = Some v
                      ∧ _population (natm (reference_mol mol))
                          (ao_labels (reference_mol mol))
                          (eye (nao_nr (reference_mol mol)))
                          (make_rdm1 orb occ) = Ok v)
    ∧ if closed_shell ref mol then w1 = w0
      else ∃ cb mb,
          take mo_coeff.2 (beta mol) = Ok cb
          ∧ contract_ki_kl_lj_ij (lo_vec_lowdin (lo_iao mol cb) s) s cb = Ok mb
          ∧ ∀ j m, beta mol !! j = Some m →
              ∃ orb occ v, mb !! j = Some orb ∧ mo_occ.2 !! m = Some occ
                           ∧ w1 !! j = Some v
                           ∧ _population (natm (reference_mol mol))
                               (ao_labels (reference_mol mol))
                               (eye (nao_nr (reference_mol mol)))
                               (make_rdm1 orb occ) = Ok v.
Proof.
  intros H. apply assign_rdm1s_Weights_inv in H as (_ & <- & H).
  apply populations_values in H as (fa & w0 & w1 & Hw & Hws & Hb & Hbeta & _).
  assert (∀ i idx a o f (ws : list vector),
            sel2 mo_coeff i = Ok a → sel2 mo_occ i = Ok o →
            bound_for lo_iao lo_vec_lowdin mol s mo_coeff mo_occ "iao" i idx f →
            Forall2 (fun j w => kernel_value reference_mol mol s "iao" f j = Ok w)
              (seq 0 (length idx)) ws →
            ∃ c m,
              take a idx = Ok c
              ∧ contract_ki_kl_lj_ij (lo_vec_lowdin (lo_iao mol c) s) s c = Ok m
              ∧ ∀ j k, idx !! j = Some k →
                  ∃ orb occ v, m !! j = Some orb ∧ o !! k = Some occ
                               ∧ ws !! j = Some v
                               ∧ _population (natm (reference_mol mol))
                                   (ao_labels (reference_mol mol))
                                   (eye (nao_nr (reference_mol mol)))
                                   (make_rdm1 orb occ) = Ok v) as Hchan.
  { intros i idx a o f ws Ha Ho (Hocc & _ & Hm) Hf.
    destruct (Hm eq_refl) as (c & m & Hc & Hcon & Hmo).
    rewrite Ha in Hc. rewrite Ho in Hocc. simpl in Hc, Hocc.
    exists c, m. split_and!; [done | done |].
    apply take_Ok in Hocc. intros j k Hj.
    pose proof (lookup_lt_Some _ _ _ Hj) as Hlt.
    destruct (Forall2_lookup_l _ _ _ j j Hf) as (v & Hv & Hval).
    { by apply lookup_seq_lt. }
    unfold kernel_value, get_weights in Hval. rewrite Hmo in Hval. simpl in Hval.
    apply rbind_Ok_inv in Hval as (orb & Horb%of_option_Ok & Hval).
    apply rbind_Ok_inv in Hval as (occ & Hoccj%of_option_Ok & Hval).
    exists orb, occ, v. split_and!; [done | | done | exact Hval].
    by apply (Forall2_lookup_lr _ _ _ _ _ _ Hocc Hj Hoccj). }
  destruct (Hchan 0 (alpha mol) mo_coeff.1 mo_occ.1 fa w0 eq_refl eq_refl Hb Hws)
    as (ca & ma & Hca & Hma & Hva).
  exists w0, w1, ca, ma. split_and!; [done | done | done | done |].
  destruct (closed_shell ref mol); [done |].
  destruct Hbeta as (fb & Hws' & Hb').
  destruct (Hchan 1 (beta mol) mo_coeff.2 mo_occ.2 fb w1 eq_refl eq_refl Hb' Hws')
    as (cb & mb & Hcb & Hmb & Hvb).
  by exists cb, mb.
Qed.

Lemma assign_rdm1s_iao_weights_witness :
  ∃ w0 w1 ca ma,
    [[[1; 0]; [0; 1]]; [[1; 0]]]%Q = [w0; w1]
    ∧ take (c_unit, c_unit).1 (alpha mol_open) = Ok ca
    ∧ contract_ki_kl_lj_ij (id_lowdin (ao_iao mol_open ca) s_two) s_two ca = Ok ma
    ∧ (∀ j m, alpha mol_open !! j = Some m →
         ∃ orb occ v, ma !! j = Some orb ∧ occ_open.1 !! m = Some occ
                      ∧ w0 !! j = Some v
                      ∧ _population (natm (id_mol mol_open))
                          (ao_labels (id_mol mol_open))
                          (eye (nao_nr (id_mol mol_open)))
                          (make_rdm1 orb occ) = Ok v)
    ∧ if closed_shell "unrestricted" mol_open then w1 = w0
      else ∃ cb mb,
          take (c_unit, c_unit).2 (beta mol_open) = Ok cb
          ∧ contract_ki_kl_lj_ij (id_lowdin (ao_iao mol_open cb) s_two) s_two cb
            = Ok mb
          ∧ ∀ j m, beta mol_open !! j = Some m →
              ∃ orb occ v, mb !! j = Some orb ∧ occ_open.2 !! m = Some occ
                           ∧ w1 !! j = Some v
                           ∧ _population (natm (id_mol mol_open))
                               (ao_labels (id_mol mol_open))
                               (eye (nao_nr (id_mol mol_open)))
                               (make_rdm1 orb occ) = Ok v.
Proof.
  apply (assign_rdm1s_iao_weights id_mol ao_iao id_lowdin 2 in_order
           mol_open s_two (c_unit, c_unit) occ_open "unrestricted" "eda"
           false 0 ∅ initial_frame
           (assign_rdm1s id_mol ao_iao id_lowdin 2 in_order mol_open s_two
              (c_unit, c_unit) occ_open "unrestricted" "iao" "eda"
              false 0 ∅ initial_frame).1).
  vm_compute. reflexivity.
Defined.

(** ** assign_rdm1s: what a call does not depend on *)

(** X17: under the closed-shell reduction a call never reads the beta
    coefficient array [mo_coeff[1]] nor the beta occupations [mo_occ[1]]:
    with any other arrays in their place the call does the same, returning
    the same value or raising the same exception after the same events. *)
Theorem closed_shell_call_ignores_beta_arrays
    (reference_mol : Mole → Mole) (lo_iao : Mole → coeffs → coeffs)
    (lo_vec_lowdin : coeffs → matrix → coeffs) (num_threads : nat)
    (schedule : nat → list nat) (mol : Mole) (s : matrix)
    (ca cb cb' : coeffs) (oa ob ob' : vector) (ref pop part : string)
    (multiproc : bool) (verbose : Z) (kwargs : gmap string Q) (fr0 : frame) :
  closed_shell ref mol = true →
  assign_rdm1s reference_mol lo_iao lo_vec_lowdin num_threads schedule mol s
    (ca, cb) (oa, ob) ref pop part multiproc verbose kwargs fr0
  = assign_rdm1s reference_mol lo_iao lo_vec_lowdin num_threads schedule mol s
      (ca, cb') (oa, ob') ref pop part multiproc verbose kwargs fr0.
Proof.
  intros Hc.
  assert (∀ fr,
    for_each (weights_spin reference_mol lo_iao lo_vec_lowdin num_threads
                schedule mol s (ca, cb) (oa, ob) ref pop multiproc)
      [(0, alpha mol); (1, beta mol)] fr
    = for_each (weights_spin reference_mol lo_iao lo_vec_lowdin num_threads
                  schedule mol s (ca, cb') (oa, ob') ref pop multiproc)
        [(0, alpha mol); (1, beta mol)] fr) as Hloop.
  { intros fr. cbn [for_each]. unfold bind at 1 3.
    change (weights_spin reference_mol lo_iao lo_vec_lowdin num_threads
              schedule mol s (ca, cb') (oa, ob') ref pop multiproc (0, alpha mol) fr)
      with (weights_spin reference_mol lo_iao lo_vec_lowdin num_threads
              schedule mol s (ca, cb) (oa, ob) ref pop multiproc (0, alpha mol) fr).
    destruct (weights_spin _ _ _ _ _ _ _ (ca, cb) _ _ _ _ (0, alpha mol) fr)
      as [fr1 [b|e]] eqn:E; [|done].
    apply weights_spin_Ok in E as (_ & _ & -> & _). by rewrite Hc. }
  unfold assign_rdm1s, populations. cbv zeta.
  unfold bind, set_weights, modify. by rewrite Hloop.
Qed.

Lemma closed_shell_call_ignores_beta_arrays_witness :
  assign_rdm1s id_mol id_iao id_lowdin 2 in_order mol_closed s_two
    (c_two, c_two) ([1; 0]%Q, [1; 0]%Q) "restricted" "mulliken" "bonds" false 1
    kw_thres initial_frame
  = assign_rdm1s id_mol id_iao id_lowdin 2 in_order mol_closed s_two
      (c_two, []) ([1; 0]%Q, []) "restricted" "mulliken" "bonds" false 1
      kw_thres initial_frame.
Proof.
  apply (closed_shell_call_ignores_beta_arrays id_mol id_iao id_lowdin 2
           in_order mol_closed s_two c_two c_two [] [1; 0]%Q [1; 0]%Q []
           "restricted" "mulliken" "bonds" false 1 kw_thres initial_frame).
  reflexivity.
Defined.

(** ** assign_rdm1s: the verbose table *)

Global Instance same_locals_reflexive : Reflexive same_locals.
Proof. intros fr. apply same_locals_refl. Qed.

Global Instance same_locals_transitive : Transitive same_locals.
Proof.
  intros x y z (? & ? & ? & ? & ?) (? & ? & ? & ? & ?).
  split_and!; congruence.
Qed.

Lemma same_locals_sym fr1 fr2 : same_locals fr1 fr2 → same_locals fr2 fr1.
Proof. intros (? & ? & ? & ? & ?). by split_and!. Qed.

Lemma sat_locals_emit e : sat same_locals (fun _ => True) (emit e).
Proof. intros fr fr' r [= <- <-]. split; [|done]. by split_and!. Qed.

(** The table changes no local variable. *)
Lemma sat_locals_print_spin ix :
  sat same_locals (fun _ => True) (print_spin ix).
Proof.
  destruct ix as [i idx]. unfold print_spin.
  sat_seq; [apply (sat_gets _ (fun _ => True)); try apply _; done |].
  sat_seq; [|apply sat_ret; try apply _; done].
  apply sat_for_each; [apply _ .. |]. intros j _. unfold print_row.
  sat_seq; [apply (sat_lift _ (fun _ => True)); try apply _; done |].
  sat_seq; [apply (sat_gets _ (fun _ => True)); try apply _; done |].
  sat_seq; [apply (sat_lift _ (fun _ => True)); try apply _; done |].
  sat_seq; [apply (sat_lift _ (fun _ => True)); try apply _; done |].
  sat_seq; [apply sat_locals_emit |].
  apply sat_ret; try apply _; done.
Qed.

(** What follows the weights and the table: the bond-wise partitioning and
    the choice of the value. *)
Lemma sim_after_populations mol ref part (kwargs : gmap string Q) :
  sim (bound <- bonds mol ref part kwargs ;;
       if (part =? "atoms")%string || (part =? "eda")%string then
         w <- gets weights ;; ret (Weights w)
       else
         match bound with
         | Some (rep_idx, centres_unique) => ret (Bonds rep_idx centres_unique)
         | None => raise (UnboundLocalError "rep_idx")
         end)%st
      (bound <- bonds mol ref part kwargs ;;
       if (part =? "atoms")%string || (part =? "eda")%string then
         w <- gets weights ;; ret (Weights w)
       else
         match bound with
         | Some (rep_idx, centres_unique) => ret (Bonds rep_idx centres_unique)
         | None => raise (UnboundLocalError "rep_idx")
         end)%st.
Proof.
  apply sim_bind; [apply sim_bonds |]. intros bound.
  case_match; [sim_tac |]. destruct bound as [[rep cu]|]; [apply sim_ret |].
  intros ? ? ? ? ?. discriminate.
Qed.

(** X18: the verbose table does not change what a call returns: if a call
    that prints the table returns a value, the call without the table
    returns that value too. *)
Theorem verbose_table_does_not_change_the_value
    (reference_mol : Mole → Mole) (lo_iao : Mole → coeffs → coeffs)
    (lo_vec_lowdin : coeffs → matrix → coeffs) (num_threads : nat)
    (schedule : nat → list nat) (mol : Mole) (s : matrix)
    (mo_coeff : coeffs * coeffs) (mo_occ : vector * vector) (ref pop part : string)
    (multiproc : bool) (verbose quiet : Z) (kwargs : gmap string Q)
    (fr0 fr1 : frame) (res : assigned) :
  (quiet <= 0)%Z →
  assign_rdm1s reference_mol lo_iao lo_vec_lowdin num_threads schedule mol s
    mo_coeff mo_occ ref pop part multiproc verbose kwargs fr0 = (fr1, Ok res) →
  ∃ fr2,
    assign_rdm1s reference_mol lo_iao lo_vec_lowdin num_threads schedule mol s
      mo_coeff mo_occ ref pop part multiproc quiet kwargs fr0 = (fr2, Ok res).
Proof.
  intros Hq H. unfold assign_rdm1s in *.
  apply bind_Ok_inv in H as (frP & u & Hpop & H).
  unfold populations in Hpop. cbv zeta in Hpop.
  apply bind_Ok_inv in Hpop as (frI & u0 & Hinit & Hpop).
  apply bind_Ok_inv in Hpop as (frA & u1 & Hloop & Hpop).
  assert (same_locals frP frA) as Hsame.
  { apply same_locals_sym. destruct (0 <? verbose)%Z.
    - assert (sat same_locals (fun _ => True)
                (for_each print_spin [(0, alpha mol); (1, beta mol)])) as Hsat.
      { apply sat_for_each; [apply _ .. |]. intros ix _. apply sat_locals_print_spin. }
      by apply Hsat in Hpop as [? _].
    - injection Hpop as <- _. apply same_locals_refl. }
  destruct (sim_after_populations mol ref part kwargs _ _ _ _ Hsame H)
    as (fr2 & Hrest & Hfr2).
  exists fr2.
  assert ((0 <? quiet)%Z = false) as Eq by (apply Z.ltb_ge; lia).
  unfold populations. cbv zeta. rewrite Eq.
  rewrite (bind_Ok_run _ _ fr0 frA tt); [exact Hrest |].
  rewrite (bind_Ok_run _ _ _ _ _ Hinit).
  by rewrite (bind_Ok_run _ _ _ _ _ Hloop).
Qed.

Lemma verbose_table_does_not_change_the_value_witness :
  ∃ fr2,
    assign_rdm1s id_mol id_iao id_lowdin 2 in_order mol_closed s_two
      (c_two, c_two) occ_closed "restricted" "mulliken" "bonds" false 0
      kw_thres initial_frame
    = (fr2, Ok (Bonds [[[0]]; [[0]]] [[(0, 0)]; [(0, 0)]])).
Proof.
  apply (verbose_table_does_not_change_the_value id_mol id_iao id_lowdin 2
           in_order mol_closed s_two (c_two, c_two) occ_closed "restricted"
           "mulliken" "bonds" false 2 0 kw_thres initial_frame
           (assign_rdm1s id_mol id_iao id_lowdin 2 in_order mol_closed s_two
              (c_two, c_two) occ_closed "restricted" "mulliken" "bonds" false 2
              kw_thres initial_frame).1).
  - lia.
  - vm_compute. reflexivity.
Defined.

(** The rows of the table for channel [i], from position [k] on: when the
    positions run beyond the occupied orbitals [idx] of the channel, the
    row of the first position beyond them raises [IndexError]. *)
Lemma print_rows_fail i idx n k fr (wi : list vector) :
  weights fr !! i = Some wi → length idx ≤ length wi →
  k ≤ length idx → length idx < k + n →
  ∃ fr', for_each (print_row i idx) (seq k n) fr = (fr', Raise IndexError).
Proof.
  revert k fr. induction n as [|n IH]; intros k fr Hwi Hlen Hk Hn; [lia |].
  cbn [seq for_each].
  destruct (decide (k = length idx)) as [->|Hne].
  - exists fr. unfold bind, print_row, bind, lift, item.
    by rewrite (lookup_ge_None_2 idx (length idx)).
  - destruct (lookup_lt_is_Some_2 idx k ltac:(lia)) as [m Hm].
    destruct (lookup_lt_is_Some_2 wi k ltac:(lia)) as [wij Hwij].
    destruct (IH (S k) (logged fr [Printed i m wij])) as [fr' Hfr']; [done | done | lia.. |].
    exists fr'. rewrite <- Hfr'.
    unfold bind at 1. unfold print_row, bind, lift, item, gets, emit, modify, ret.
    rewrite Hm. simpl. rewrite Hwi. simpl. rewrite Hwij. simpl. done.
Qed.

(** X19: without the closed-shell reduction and with more occupied beta
    than alpha orbitals, a call that would return without the verbose
    table raises [IndexError] with it: the rows of alpha are printed over
    the positions of beta, the last domain left by the weights loop. *)
Theorem verbose_table_fails_when_beta_exceeds_alpha
    (reference_mol : Mole → Mole) (lo_iao : Mole → coeffs → coeffs)
    (lo_vec_lowdin : coeffs → matrix → coeffs) (num_threads : nat)
    (schedule : nat → list nat) (mol : Mole) (s : matrix)
    (mo_coeff : coeffs * coeffs) (mo_occ : vector * vector) (ref pop part : string)
    (multiproc : bool) (verbose quiet : Z) (kwargs : gmap string Q)
    (fr0 : frame) (res : assigned) :
  closed_shell ref mol = false →
  length (alpha mol) < length (beta mol) →
  (quiet <= 0)%Z → (0 < verbose)%Z →
  (assign_rdm1s reference_mol lo_iao lo_vec_lowdin num_threads schedule mol s
     mo_coeff mo_occ ref pop part multiproc quiet kwargs fr0).2 = Ok res →
  (assign_rdm1s reference_mol lo_iao lo_vec_lowdin num_threads schedule mol s
     mo_coeff mo_occ ref pop part multiproc verbose kwargs fr0).2
  = Raise IndexError.
Proof.
  intros Hc Hlt Hq Hv H.
  destruct (assign_rdm1s _ _ _ _ _ _ _ _ _ _ _ _ _ quiet _ fr0) as [fr1 r] eqn:E.
  simpl in H. subst r. unfold assign_rdm1s in E.
  apply bind_Ok_inv in E as (frP & u & Hpop & _).
  pose proof (populations_values _ _ _ _ _ _ _ _ _ _ _ _ _ _ _ _ Hpop)
    as (fa & w0 & w1 & Hw & Hws & _ & _ & _ & Hd & _).
  unfold last_channel in Hd. rewrite Hc in Hd.
  unfold populations in Hpop. cbv zeta in Hpop.
  apply bind_Ok_inv in Hpop as (frI & u0 & Hinit & Hpop).
  apply bind_Ok_inv in Hpop as (frA & u1 & Hloop & Hpop).
  assert ((0 <? quiet)%Z = false) as Eq by (apply Z.ltb_ge; lia).
  rewrite Eq in Hpop. injection Hpop as -> _.
  assert ((0 <? verbose)%Z = true) as Ev by (apply Z.ltb_lt; lia).
  destruct (print_rows_fail 0 (alpha mol) (length (beta mol)) 0 frP w0)
    as [fr' Hfail].
  { by rewrite Hw. }
  { apply Forall2_length in Hws. rewrite length_seq in Hws. lia. }
  { lia. }
  { lia. }
  unfold assign_rdm1s, populations. cbv zeta. rewrite Ev.
  rewrite (bind_Raise_run _ _ fr0 fr' IndexError); [done |].
  rewrite (bind_Ok_run _ _ _ _ _ Hinit).
  rewrite (bind_Ok_run _ _ _ _ _ Hloop).
  cbn [for_each]. apply bind_Raise_run. unfold print_spin.
  rewrite (bind_Ok_run _ _ frP frP (domain frP)) by done.
  rewrite Hd. by apply bind_Raise_run.
Qed.

Lemma verbose_table_fails_when_beta_exceeds_alpha_witness :
  (assign_rdm1s id_mol id_iao id_lowdin 2 in_order mol_more_beta s_two
     (c_two, c_two) occ_more_beta "unrestricted" "mulliken" "atoms" false 1
     ∅ initial_frame).2
  = Raise IndexError.
Proof.
  apply (verbose_table_fails_when_beta_exceeds_alpha id_mol id_iao id_lowdin 2
           in_order mol_more_beta s_two (c_two, c_two) occ_more_beta
           "unrestricted" "mulliken" "atoms" false 1 0 ∅ initial_frame
           (Weights (weights (assign_rdm1s id_mol id_iao id_lowdin 2 in_order
                                mol_more_beta s_two (c_two, c_two) occ_more_beta
                                "unrestricted" "mulliken" "atoms" false 0
                                ∅ initial_frame).1))).
  - reflexivity.
  - simpl. lia.
  - lia.
  - lia.
  - vm_compute. reflexivity.
Defined.

(** ** assign_rdm1s: the centres of the bond-wise partitioning *)

Section BondsCentres.

Variable mol : Mole.
Variable ref : string.

(** Without the closed-shell reduction, the loops of lines 145-156 leave
    the rows of both centres arrays at the positions outside [domain] as
    line 142 initialised them. *)
Lemma bonds_outside_domain (kwargs : gmap string Q) fr fr' bound :
  closed_shell ref mol = false →
  NoDup (domain fr) →
  bonds mol ref "bonds" kwargs fr = (fr', Ok bound) →
  ∀ i j, j ∉ domain fr →
    centre_at fr' i j
    = match [replicate (length (alpha mol)) (0, 0);
             replicate (length (beta mol)) (0, 0)] !! i with
      | Some ci => ci !! j
      | None => None
      end.
Proof.
  intros Ecl Hnd. unfold bonds. rewrite String.eqb_refl. intros H.
  bind_inv H as u Hu. bind_inv H as thres Hthres.
  apply bind_Ok_inv in H as (fr2 & u2 & Hloop & H).
  bind_inv H as c Hc. bind_inv H as cu Hcu. bind_inv H as rep Hrep.
  injection H as <- _.
  set (fr1 := {| trace := trace fr; mo := mo fr; mocc := mocc fr;
                 domain := domain fr; weights := weights fr;
                 centres := [replicate (length (alpha mol)) (0, 0);
                             replicate (length (beta mol)) (0, 0)] |}) in *.
  cbn [for_each] in Hloop.
  apply bind_Ok_inv in Hloop as (frA & brk & Hspin & Hloop).
  unfold centres_spin in Hspin. rewrite Ecl in Hspin.
  bind_inv Hspin as d Hd.
  apply bind_Ok_inv in Hspin as (frL & u3 & HL & Hspin).
  pose proof (sat_centre_loop thres 0 _ _ _ _ HL) as [(_ & HwL & HdL & _) _].
  apply centre_loop_Ok in HL as [Hother0 _]; [|done].
  injection Hspin as <- <-.
  apply bind_Ok_inv in Hloop as (frB & brk & Hspin & Hloop).
  unfold centres_spin in Hspin. rewrite Ecl in Hspin.
  bind_inv Hspin as d' Hd'.
  apply bind_Ok_inv in Hspin as (frM & u4 & HM & Hspin).
  injection Hspin as <- <-. injection Hloop as <- _.
  rewrite HdL in HM.
  apply centre_loop_Ok in HM as [Hother1 _]; [|done].
  intros i j Hj. rewrite Hother1 by (by right). rewrite Hother0 by (by right).
  done.
Qed.

End BondsCentres.

Lemma item_IndexError {A} (l : list A) i e : item l i = Raise e → e = IndexError.
Proof. unfold item. destruct (l !! i); simpl; [discriminate | by intros [= <-]]. Qed.

Lemma assign_at_IndexError {A} (l : list A) i x e :
  assign_at l i x = Raise e → e = IndexError.
Proof. unfold assign_at. case_match; [discriminate | by intros [= <-]]. Qed.

Ltac raises_index :=
  repeat first
    [ apply raises_only_ret | apply raises_only_modify | apply raises_only_gets
    | apply raises_only_lift; intros ?; first
        [ apply item_IndexError | apply assign_at_IndexError ]
    | apply raises_only_bind; [| intros ?; cbv zeta] ].

Lemma raises_index_centre_orb thres i j :
  raises_only (fun e => e = IndexError) (centre_orb thres i j).
Proof.
  unfold centre_orb, set_centres.
  do 5 (apply raises_only_bind; [raises_index | intros ?; cbv zeta]).
  apply raises_only_bind; [case_match; raises_index |]. intros pr.
  raises_index.
Qed.

(** With a threshold among the keyword arguments, the statements of lines
    140-163 raise nothing but [IndexError]. *)
Lemma raises_index_bonds mol ref part (kwargs : gmap string Q) thres :
  kwargs !! "thres" = Some thres →
  raises_only (fun e => e = IndexError) (bonds mol ref part kwargs).
Proof.
  intros Hk. unfold bonds, set_centres. case_match; [|apply raises_only_ret].
  apply raises_only_bind; [raises_index |]. intros _.
  apply raises_only_bind.
  { rewrite Hk. apply raises_only_lift. discriminate. }
  intros thres'. apply raises_only_bind.
  { apply raises_only_for_each. intros [i idx]. unfold centres_spin, set_centres.
    apply raises_only_bind; [raises_index |]. intros d.
    apply raises_only_bind;
      [apply raises_only_for_each; intros j; apply raises_index_centre_orb |].
    intros _. case_match; raises_index. }
  intros _. apply raises_only_bind; [raises_index |]. intros c.
  assert (∀ {A B} (f : A → result B) xs e,
            (∀ x e, f x = Raise e → e = IndexError) →
            rmap f xs = Raise e → e = IndexError) as Hrmap.
  { intros A B f xs e Hf. induction xs as [|x xs IH]; simpl; [discriminate |].
    destruct (f x) eqn:Ex; simpl; [|intros [= <-]; by eapply Hf].
    destruct (rmap f xs); simpl; [discriminate | done]. }
  apply raises_only_bind.
  { apply raises_only_lift. intros e. apply Hrmap. intros i e'.
    intros [HH|(ci & _ & HH)]%rbind_Raise_inv;
      [by eapply item_IndexError | discriminate]. }
  intros cu. apply raises_only_bind; [| intros ?; raises_index].
  apply raises_only_lift. intros e. apply Hrmap. intros i e'.
  intros [HH|(ci & _ & [HH|(ui & _ & HH)]%rbind_Raise_inv)]%rbind_Raise_inv;
    [by eapply item_IndexError | by eapply item_IndexError | discriminate].
Qed.

Section BondsCall.

Variable reference_mol : Mole → Mole.
Variable lo_iao : Mole → coeffs → coeffs.
Variable lo_vec_lowdin : coeffs → matrix → coeffs.
Variable num_threads : nat.
Variable schedule : nat → list nat.
Variable mol : Mole.
Variable s : matrix.
Variable mo_coeff : coeffs * coeffs.
Variable mo_occ : vector * vector.
Variable ref pop : string.
Variable multiproc : bool.
Variable verbose : Z.
Variable kwargs : gmap string Q.

(** A call with policy 'bonds' that returns: its two parts, and the value. *)
Lemma assign_bonds_inv fr0 fr' res :
  assign_rdm1s reference_mol lo_iao lo_vec_lowdin num_threads schedule mol s
    mo_coeff mo_occ ref pop "bonds" multiproc verbose kwargs fr0 = (fr', Ok res) →
  ∃ fr1 c0 c1,
    populations reference_mol lo_iao lo_vec_lowdin num_threads schedule mol s
      mo_coeff mo_occ ref pop multiproc verbose fr0 = (fr1, Ok tt)
    ∧ bonds mol ref "bonds" kwargs fr1
      = (fr', Ok (Some ([map (where_rows c0) (np_unique c0);
                         map (where_rows c1) (np_unique c1)],
                        [np_unique c0; np_unique c1])))
    ∧ res = Bonds [map (where_rows c0) (np_unique c0);
                   map (where_rows c1) (np_unique c1)]
              [np_unique c0; np_unique c1]
    ∧ centres fr' = [c0; c1]
    ∧ length c0 = length (alpha mol)
    ∧ length c1 = length (last_channel ref mol)
    ∧ (closed_shell ref mol = true → c1 = c0)
    ∧ weights fr' = weights fr1
    ∧ domain fr1 = seq 0 (length (last_channel ref mol)).
Proof.
  unfold assign_rdm1s. intros H.
  apply bind_Ok_inv in H as (fr1 & [] & Hpop & H).
  apply bind_Ok_inv in H as (fr2 & bound & Hb & H).
  pose proof (bonds_Ok _ _ _ _ _ _ Hb)
    as (c0 & c1 & -> & Ec & L0 & L1 & Hsame & Hw & _).
  simpl in H. injection H as <- <-.
  pose proof (populations_Ok _ _ _ _ _ _ _ _ _ _ _ _ _ _ _ _ Hpop) as (Hd & _).
  exists fr1, c0, c1. by split_and!.
Qed.

(** The weight vectors a frame holds after lines 99-137 have one entry per
    atom. *)
Lemma populations_vectors fr0 fr1 u i wi j w :
  populations reference_mol lo_iao lo_vec_lowdin num_threads schedule mol s
    mo_coeff mo_occ ref pop multiproc verbose fr0 = (fr1, Ok u) →
  weights fr1 !! i = Some wi → wi !! j = Some w →
  length w = natm (pmol reference_mol mol pop).
Proof.
  intros H Hwi Hw.
  apply populations_values in H as (fa & w0 & w1 & Hws & Hf & _ & Hbeta & _).
  assert (∀ f n (ws : list vector),
            Forall2 (fun j w => kernel_value reference_mol mol s pop f j = Ok w)
              (seq 0 n) ws →
            ∀ k v, ws !! k = Some v → length v = natm (pmol reference_mol mol pop))
    as Hshape.
  { intros f n ws Hfs k v Hk.
    destruct (Forall2_lookup_r _ _ _ _ _ Hfs Hk) as (j' & _ & Hj).
    by apply get_weights_length in Hj. }
  rewrite Hws in Hwi. destruct i as [|[|i]]; simpl in Hwi; [| |done].
  - injection Hwi as <-. by eapply Hshape.
  - injection Hwi as <-. destruct (closed_shell ref mol).
    + subst w1. by eapply Hshape.
    + destruct Hbeta as (fb & Hfb & _). by eapply Hshape.
Qed.

(** The centre pair of every orbital position after a call with policy
    'bonds' that returns. *)
Lemma bonds_centres fr0 fr' res thres :
  kwargs !! "thres" = Some thres →
  assign_rdm1s reference_mol lo_iao lo_vec_lowdin num_threads schedule mol s
    mo_coeff mo_occ ref pop "bonds" multiproc verbose kwargs fr0 = (fr', Ok res) →
  ∀ i j p, i < 2 → centre_at fr' i j = Some p →
    (j < length (last_channel ref mol)
     ∧ ∃ wi w, weights fr' !! i = Some wi ∧ wi !! j = Some w
               ∧ length w = natm (pmol reference_mol mol pop)
               ∧ follows_rule thres w p)
    ∨ (length (last_channel ref mol) ≤ j ∧ p = (0, 0)).
Proof.
  intros Hk H i j p Hi Hp.
  apply assign_bonds_inv in H
    as (fr1 & c0 & c1 & Hpop & Hb & _ & Ec & L0 & L1 & Hsame & Hw & Hd).
  destruct (decide (j < length (last_channel ref mol))) as [Hj|Hj].
  - left. split; [done |].
    assert (NoDup (domain fr1)) as Hnd by (rewrite Hd; apply NoDup_seq).
    assert (j ∈ domain fr1) as Hin by (rewrite Hd; apply elem_of_seq; lia).
    destruct (bonds_rule_Ok mol ref kwargs thres fr1 fr' _ Hk Hnd Hb i j Hi Hin)
      as (wi & w & p' & Hwi & Hwj & Hp' & Hr).
    { assert (p' = p) as -> by congruence.
      pose proof (populations_vectors _ _ _ _ _ _ _ Hpop Hwi Hwj) as Hlen.
      exists wi, w. split_and!; try done.
      rewrite Hw.
      pose proof (populations_Ok _ _ _ _ _ _ _ _ _ _ _ _ _ _ _ _ Hpop)
        as (_ & w0 & w1 & es & Hws & Hcl & _).
      rewrite Hws. rewrite Hws in Hwi.
      destruct (closed_shell ref mol); [|done].
      destruct (Hcl eq_refl) as [-> _].
      destruct i as [|[|i]]; [done | done | lia]. }
  - right. split; [lia |].
    destruct (closed_shell ref mol) eqn:Ecl.
    + exfalso. rewrite (Hsame eq_refl) in Ec. unfold centre_at in Hp.
      rewrite Ec in Hp. unfold last_channel in Hj. rewrite Ecl in Hj.
      assert (c0 !! j = Some p) as Hc0.
      { destruct i as [|[|i]]; [done | done | lia]. }
      apply lookup_lt_Some in Hc0. lia.
    + assert (NoDup (domain fr1)) as Hnd by (rewrite Hd; apply NoDup_seq).
      assert (j ∉ domain fr1) as Hout by (rewrite Hd, elem_of_seq; lia).
      rewrite (bonds_outside_domain mol ref kwargs fr1 fr' _ Ecl Hnd Hb i j Hout)
        in Hp.
      destruct i as [|[|i]]; simpl in Hp; [| | lia];
        by apply lookup_replicate in Hp as [-> _].
Qed.

End BondsCall.

(** X20: the centres array of a call with policy 'bonds' and threshold
    [thres] that returns, entry by entry.  The positions below the size of
    the last channel the weights loop treated (alpha under the closed-shell
    reduction, beta otherwise) hold the pair of the rule for the weights
    of their orbital: the centre of the largest weight twice when that
    weight exceeds the threshold in absolute value, else the centres of
    the two largest weights in ascending order.  Every other entry still
    holds the pair (0, 0) of the initialisation, whatever the weights of
    its orbital. *)
Theorem bonds_centre_of_each_orbital
    (reference_mol : Mole → Mole) (lo_iao : Mole → coeffs → coeffs)
    (lo_vec_lowdin : coeffs → matrix → coeffs) (num_threads : nat)
    (schedule : nat → list nat) (mol : Mole) (s : matrix)
    (mo_coeff : coeffs * coeffs) (mo_occ : vector * vector) (ref pop : string)
    (multiproc : bool) (verbose : Z) (kwargs : gmap string Q) (thres : Q)
    (fr0 fr' : frame) (res : assigned) :
  kwargs !! "thres" = Some thres →
  assign_rdm1s reference_mol lo_iao lo_vec_lowdin num_threads schedule mol s
    mo_coeff mo_occ ref pop "bonds" multiproc verbose kwargs fr0 = (fr', Ok res) →
  ∀ i j p, i < 2 → centre_at fr' i j = Some p →
    (j < length (last_channel ref mol)
     ∧ ∃ wi w, weights fr' !! i = Some wi ∧ wi !! j = Some w
               ∧ follows_rule thres w p)
    ∨ (length (last_channel ref mol) ≤ j ∧ p = (0, 0)).
Proof.
  intros Hk H i j p Hi Hp.
  edestruct bonds_centres as [(Hj & wi & w & Hwi & Hw & _ & Hr)|Hout];
    [exact Hk | exact H | exact Hi | exact Hp | left | by right].
  split; [done |]. by exists wi, w.
Qed.

Lemma bonds_centre_of_each_orbital_witness :
  kw_thres !! "thres" = Some (9 # 10)%Q
  ∧ (∀ i j p, i < 2 →
      centre_at (assign_rdm1s id_mol id_iao id_lowdin 2 in_order mol_open s_two
                   (c_two, c_two) occ_open "unrestricted" "mulliken" "bonds"
                   false 0 kw_thres initial_frame).1 i j = Some p →
      (j < length (last_channel "unrestricted" mol_open)
       ∧ ∃ wi w,
           weights (assign_rdm1s id_mol id_iao id_lowdin 2 in_order mol_open s_two
                      (c_two, c_two) occ_open "unrestricted" "mulliken" "bonds"
                      false 0 kw_thres initial_frame).1 !! i = Some wi
           ∧ wi !! j = Some w ∧ follows_rule (9 # 10) w p)
      ∨ (length (last_channel "unrestricted" mol_open) ≤ j ∧ p = (0, 0))).
Proof.
  split; [reflexivity |].
  apply (bonds_centre_of_each_orbital id_mol id_iao id_lowdin 2 in_order
           mol_open s_two (c_two, c_two) occ_open "unrestricted" "mulliken"
           false 0 kw_thres (9 # 10) initial_frame _
           (Bonds [[[0; 1]]; [[0]]] [[(0, 0)]; [(0, 0)]])).
  - reflexivity.
  - vm_compute. reflexivity.
Defined.

(** X21: without the closed-shell reduction, a call with policy 'bonds'
    that returns hands back every occupied alpha orbital at a position
    from the number of beta orbitals on in the group of the centre pair
    (0, 0): the loop over orbitals runs for both channels over the
    positions of beta. *)
Theorem bonds_puts_alpha_orbitals_beyond_beta_on_atom_zero
    (reference_mol : Mole → Mole) (lo_iao : Mole → coeffs → coeffs)
    (lo_vec_lowdin : coeffs → matrix → coeffs) (num_threads : nat)
    (schedule : nat → list nat) (mol : Mole) (s : matrix)
    (mo_coeff : coeffs * coeffs) (mo_occ : vector * vector) (ref pop : string)
    (multiproc : bool) (verbose : Z) (kwargs : gmap string Q)
    (fr0 fr' : frame) (res : assigned) :
  closed_shell ref mol = false →
  assign_rdm1s reference_mol lo_iao lo_vec_lowdin num_threads schedule mol s
    mo_coeff mo_occ ref pop "bonds" multiproc verbose kwargs fr0 = (fr', Ok res) →
  ∃ rep0 rep1 cu0 cu1,
    res = Bonds [rep0; rep1] [cu0; cu1]
    ∧ ∀ j, length (beta mol) ≤ j → j < length (alpha mol) →
        ∃ k g, cu0 !! k = Some (0, 0) ∧ rep0 !! k = Some g ∧ j ∈ g.
Proof.
  intros Ecl H.
  apply assign_bonds_inv in H
    as (fr1 & c0 & c1 & _ & Hb & -> & Ec & L0 & _ & _ & _ & Hd).
  unfold last_channel in Hd. rewrite Ecl in Hd.
  eexists _, _, _, _. split; [reflexivity |]. intros j Hjb Hja.
  assert (c0 !! j = Some (0, 0)) as Hc0.
  { assert (NoDup (domain fr1)) as Hnd by (rewrite Hd; apply NoDup_seq).
    assert (j ∉ domain fr1) as Hout by (rewrite Hd, elem_of_seq; lia).
    pose proof (bonds_outside_domain mol ref kwargs fr1 fr' _ Ecl Hnd Hb 0 j Hout)
      as Hat.
    unfold centre_at in Hat. rewrite Ec in Hat. simpl in Hat. rewrite Hat.
    by apply lookup_replicate. }
  assert ((0, 0) ∈ np_unique c0) as [k Hk]%list_elem_of_lookup.
  { apply elem_of_np_unique. by eapply list_elem_of_lookup_2. }
  exists k, (where_rows c0 (0, 0)). split_and!; [done | |].
  - by rewrite list_lookup_fmap, Hk.
  - by apply elem_of_where_rows.
Qed.

Lemma bonds_puts_alpha_orbitals_beyond_beta_on_atom_zero_witness :
  ∃ rep0 rep1 cu0 cu1,
    Bonds [[[0; 1]]; [[0]]] [[(0, 0)]; [(0, 0)]] = Bonds [rep0; rep1] [cu0; cu1]
    ∧ ∀ j, length (beta mol_open) ≤ j → j < length (alpha mol_open) →
        ∃ k g, cu0 !! k = Some (0, 0) ∧ rep0 !! k = Some g ∧ j ∈ g.
Proof.
  apply (bonds_puts_alpha_orbitals_beyond_beta_on_atom_zero id_mol id_iao
           id_lowdin 2 in_order mol_open s_two (c_two, c_two) occ_open
           "unrestricted" "mulliken" false 0 kw_thres initial_frame
           (assign_rdm1s id_mol id_iao id_lowdin 2 in_order mol_open s_two
              (c_two, c_two) occ_open "unrestricted" "mulliken" "bonds"
              false 0 kw_thres initial_frame).1).
  - reflexivity.
  - vm_compute. reflexivity.
Defined.

(** X22: without the closed-shell reduction and with more occupied beta
    than alpha orbitals, a call with policy 'bonds' and a threshold raises
    [IndexError] whenever the same call with policy 'atoms' returns: the
    loop over orbitals reads the weights of alpha at the positions of
    beta. *)
Theorem bonds_fails_when_beta_exceeds_alpha
    (reference_mol : Mole → Mole) (lo_iao : Mole → coeffs → coeffs)
    (lo_vec_lowdin : coeffs → matrix → coeffs) (num_threads : nat)
    (schedule : nat → list nat) (mol : Mole) (s : matrix)
    (mo_coeff : coeffs * coeffs) (mo_occ : vector * vector) (ref pop : string)
    (multiproc : bool) (verbose : Z) (kwargs : gmap string Q) (thres : Q)
    (fr0 : frame) (res : assigned) :
  closed_shell ref mol = false →
  length (alpha mol) < length (beta mol) →
  kwargs !! "thres" = Some thres →
  (assign_rdm1s reference_mol lo_iao lo_vec_lowdin num_threads schedule mol s
     mo_coeff mo_occ ref pop "atoms" multiproc verbose kwargs fr0).2 = Ok res →
  (assign_rdm1s reference_mol lo_iao lo_vec_lowdin num_threads schedule mol s
     mo_coeff mo_occ ref pop "bonds" multiproc verbose kwargs fr0).2
  = Raise IndexError.
Proof.
  intros Ecl Hlt Hk H.
  destruct (assign_rdm1s _ _ _ _ _ _ _ _ _ _ _ "atoms" _ _ _ fr0) as [frE r] eqn:E.
  simpl in H. subst r. unfold assign_rdm1s in E.
  apply bind_Ok_inv in E as (fr1 & [] & Hpop & _).
  pose proof (populations_values _ _ _ _ _ _ _ _ _ _ _ _ _ _ _ _ Hpop)
    as (fa & w0 & w1 & Hw & Hws & _ & _ & _ & Hd & _).
  unfold last_channel in Hd. rewrite Ecl in Hd.
  apply Forall2_length in Hws. rewrite length_seq in Hws.
  unfold assign_rdm1s. rewrite (bind_Ok_run _ _ _ _ _ Hpop).
  destruct (bonds mol ref "bonds" kwargs fr1) as [frB [bound|e]] eqn:Eb.
  - exfalso.
    assert (NoDup (domain fr1)) as Hnd by (rewrite Hd; apply NoDup_seq).
    assert (length (alpha mol) ∈ domain fr1) as Hin
      by (rewrite Hd; apply elem_of_seq; lia).
    destruct (bonds_rule_Ok mol ref kwargs thres fr1 frB _ Hk Hnd Eb 0
                (length (alpha mol)) ltac:(lia) Hin)
      as (wi & w & p & Hwi & Hwj & _).
    rewrite Ecl, Hw in Hwi. injection Hwi as <-.
    apply lookup_lt_Some in Hwj. lia.
  - rewrite (bind_Raise_run _ _ _ _ _ Eb). simpl.
    by rewrite (raises_index_bonds mol ref "bonds" kwargs thres Hk _ _ _ Eb).
Qed.

Lemma bonds_fails_when_beta_exceeds_alpha_witness :
  (assign_rdm1s id_mol id_iao id_lowdin 2 in_order mol_more_beta s_two
     (c_two, c_two) occ_more_beta "unrestricted" "mulliken" "bonds" false 0
     kw_thres initial_frame).2
  = Raise IndexError.
Proof.
  apply (bonds_fails_when_beta_exceeds_alpha id_mol id_iao id_lowdin 2
           in_order mol_more_beta s_two (c_two, c_two) occ_more_beta
           "unrestricted" "mulliken" false 0 kw_thres (9 # 10) initial_frame
           (Weights (weights (assign_rdm1s id_mol id_iao id_lowdin 2 in_order
                                mol_more_beta s_two (c_two, c_two) occ_more_beta
                                "unrestricted" "mulliken" "atoms" false 0
                                kw_thres initial_frame).1))).
  - reflexivity.
  - simpl. lia.
  - reflexivity.
  - vm_compute. reflexivity.
Defined.

Lemma bonds_Ok_thres mol ref (kwargs : gmap string Q) fr fr' bound :
  bonds mol ref "bonds" kwargs fr = (fr', Ok bound) →
  ∃ thres, kwargs !! "thres" = Some thres.
Proof.
  unfold bonds. rewrite String.eqb_refl. intros H.
  bind_inv H as u Hu. bind_inv H as thres Hthres.
  apply of_option_Ok in Hthres. by exists thres.
Qed.

Lemma where_from_sorted k c u : StronglySorted lt (where_from k c u).
Proof.
  revert k. induction c as [|p c IH]; intros k; simpl; [constructor |].
  case_bool_decide; [|done].
  constructor; [done |]. apply Forall_forall. intros j Hj.
  apply elem_of_where_from in Hj. lia.
Qed.

(** The pair of the rule names atoms of the weight vector, in ascending
    order. *)
Lemma follows_rule_bounds thres w p :
  follows_rule thres w p → p.1 ≤ p.2 ∧ p.2 < length w.
Proof.
  intros (m0 & m1 & [Hm0 _] & Hsec & ->).
  destruct (bond_rule_cases thres w m0 m1) as [[_ ->]|[Hle ->]]; simpl.
  - lia.
  - destruct (Hsec Hle) as (Hm1 & _). lia.
Qed.

(** X23: a call with policy 'bonds' returns only pairs of atom indices in
    ascending order: in every returned centre pair the first entry is at
    most the second, and the second is below the number of atoms of the
    molecule the populations refer to (given that it has an atom). *)
Theorem bonds_pairs_are_ordered_atom_indices
    (reference_mol : Mole → Mole) (lo_iao : Mole → coeffs → coeffs)
    (lo_vec_lowdin : coeffs → matrix → coeffs) (num_threads : nat)
    (schedule : nat → list nat) (mol : Mole) (s : matrix)
    (mo_coeff : coeffs * coeffs) (mo_occ : vector * vector) (ref pop : string)
    (multiproc : bool) (verbose : Z) (kwargs : gmap string Q)
    (fr0 fr' : frame) (rep : list (list (list nat)))
    (cu : list (list (nat * nat))) :
  0 < natm (pmol reference_mol mol pop) →
  assign_rdm1s reference_mol lo_iao lo_vec_lowdin num_threads schedule mol s
    mo_coeff mo_occ ref pop "bonds" multiproc verbose kwargs fr0
    = (fr', Ok (Bonds rep cu)) →
  ∀ cui p, cui ∈ cu → p ∈ cui →
    p.1 ≤ p.2 ∧ p.2 < natm (pmol reference_mol mol pop).
Proof.
  intros Hnatm H cui p Hcui Hp.
  pose proof H as H'.
  apply assign_bonds_inv in H' as (fr1 & c0 & c1 & _ & Hb & Hres & Ec & _).
  injection Hres as -> ->.
  destruct (bonds_Ok_thres _ _ _ _ _ _ Hb) as [thres Hk].
  assert (∃ i j, i < 2 ∧ centre_at fr' i j = Some p) as (i & j & Hi & Hat).
  { unfold centre_at. rewrite Ec.
    apply elem_of_cons in Hcui as [->|Hcui].
    - rewrite elem_of_np_unique in Hp.
      apply list_elem_of_lookup in Hp as [j Hj].
      exists 0, j. split; [lia | simpl; done].
    - apply elem_of_cons in Hcui as [->|Hcui]; [|by apply elem_of_nil in Hcui].
      rewrite elem_of_np_unique in Hp.
      apply list_elem_of_lookup in Hp as [j Hj].
      exists 1, j. split; [lia | simpl; done]. }
  edestruct bonds_centres as [(_ & wi & w & _ & _ & Hlen & Hr)|[_ ->]];
    [exact Hk | exact H | exact Hi | exact Hat | |].
  - rewrite <- Hlen. by apply (follows_rule_bounds thres).
  - simpl. lia.
Qed.

Lemma bonds_pairs_are_ordered_atom_indices_witness :
  0 < natm (pmol id_mol mol_example "mulliken")
  ∧ (∀ cui p, cui ∈ [[(0, 0); (0, 1)]; [(0, 0); (0, 1)]] → p ∈ cui →
      p.1 ≤ p.2 ∧ p.2 < natm (pmol id_mol mol_example "mulliken")).
Proof.
  split; [simpl; lia |].
  apply (bonds_pairs_are_ordered_atom_indices id_mol id_iao id_lowdin 2
           in_order mol_example s_two (c_bond, c_bond) occ_bond "unrestricted"
           "mulliken" false 0 kw_thres initial_frame
           (assign_rdm1s id_mol id_iao id_lowdin 2 in_order mol_example s_two
              (c_bond, c_bond) occ_bond "unrestricted" "mulliken" "bonds"
              false 0 kw_thres initial_frame).1
           [[[0]; [1]]; [[0]; [1]]]).
  - simpl. lia.
  - vm_compute. reflexivity.
Defined.

(** X24: the value of a call with policy 'bonds' is in a canonical order:
    the distinct centre pairs of each channel ascend strictly in the
    lexicographic order, no returned group is empty, and the orbital
    positions within each group ascend strictly. *)
Theorem bonds_value_is_sorted
    (reference_mol : Mole → Mole) (lo_iao : Mole → coeffs → coeffs)
    (lo_vec_lowdin : coeffs → matrix → coeffs) (num_threads : nat)
    (schedule : nat → list nat) (mol : Mole) (s : matrix)
    (mo_coeff : coeffs * coeffs) (mo_occ : vector * vector) (ref pop : string)
    (multiproc : bool) (verbose : Z) (kwargs : gmap string Q)
    (fr0 fr' : frame) (rep : list (list (list nat)))
    (cu : list (list (nat * nat))) :
  assign_rdm1s reference_mol lo_iao lo_vec_lowdin num_threads schedule mol s
    mo_coeff mo_occ ref pop "bonds" multiproc verbose kwargs fr0
    = (fr', Ok (Bonds rep cu)) →
  (∀ cui, cui ∈ cu → StronglySorted pair_lt cui)
  ∧ (∀ ri g, ri ∈ rep → g ∈ ri → g ≠ [] ∧ StronglySorted lt g).
Proof.
  intros H.
  apply assign_bonds_inv in H as (fr1 & c0 & c1 & _ & _ & Hres & _).
  injection Hres as -> ->.
  assert (∀ c g, g ∈ map (where_rows c) (np_unique c) →
                 g ≠ [] ∧ StronglySorted lt g) as Hgroup.
  { intros c g (u & -> & Hu)%list_elem_of_fmap. split.
    - rewrite elem_of_np_unique in Hu.
      apply list_elem_of_lookup in Hu as [j Hj].
      apply elem_of_where_rows in Hj. intros E. rewrite E in Hj.
      by apply elem_of_nil in Hj.
    - apply where_from_sorted. }
  split.
  - intros cui [->|Hcui]%elem_of_cons; [apply np_unique_sorted |].
    apply elem_of_cons in Hcui as [->|Hcui]; [apply np_unique_sorted |].
    by apply elem_of_nil in Hcui.
  - intros ri g [->|Hri]%elem_of_cons; [apply Hgroup |].
    apply elem_of_cons in Hri as [->|Hri]; [apply Hgroup |].
    by apply elem_of_nil in Hri.
Qed.

Lemma bonds_value_is_sorted_witness :
  (∀ cui, cui ∈ [[(0, 0); (0, 1)]; [(0, 0); (0, 1)]] → StronglySorted pair_lt cui)
  ∧ (∀ ri g, ri ∈ [[[0]; [1]]; [[0]; [1]]] → g ∈ ri →
       g ≠ [] ∧ StronglySorted lt g).
Proof.
  apply (bonds_value_is_sorted id_mol id_iao id_lowdin 2 in_order mol_example
           s_two (c_bond, c_bond) occ_bond "unrestricted" "mulliken" false 0
           kw_thres initial_frame
           (assign_rdm1s id_mol id_iao id_lowdin 2 in_order mol_example s_two
              (c_bond, c_bond) occ_bond "unrestricted" "mulliken" "bonds"
              false 0 kw_thres initial_frame).1).
  vm_compute. reflexivity.
Defined.

(** X25: on a molecule with a single atom a call with policy 'bonds' and
    threshold [thres] returns only if every orbital the loop visits has a
    weight above the threshold in absolute value, and then assigns the pair
    (0, 0): for a weight at or below the threshold the second-largest
    index [max_idx[1]] does not exist and the call raises. *)
Theorem bonds_on_one_atom_needs_weights_above_threshold
    (reference_mol : Mole → Mole) (lo_iao : Mole → coeffs → coeffs)
    (lo_vec_lowdin : coeffs → matrix → coeffs) (num_threads : nat)
    (schedule : nat → list nat) (mol : Mole) (s : matrix)
    (mo_coeff : coeffs * coeffs) (mo_occ : vector * vector) (ref pop : string)
    (multiproc : bool) (verbose : Z) (kwargs : gmap string Q) (thres : Q)
    (fr0 fr' : frame) (res : assigned) :
  natm (pmol reference_mol mol pop) = 1 →
  kwargs !! "thres" = Some thres →
  assign_rdm1s reference_mol lo_iao lo_vec_lowdin num_threads schedule mol s
    mo_coeff mo_occ ref pop "bonds" multiproc verbose kwargs fr0 = (fr', Ok res) →
  ∀ i j, i < 2 → j < length (last_channel ref mol) →
    ∃ wi w, weights fr' !! i = Some wi ∧ wi !! j = Some w
            ∧ (thres < Qabs (wt w 0))%Q
            ∧ centre_at fr' i j = Some (0, 0).
Proof.
  intros Hone Hk H i j Hi Hj.
  destruct (bonds_rule_on_visited_orbitals _ _ _ _ _ _ _ _ _ _ _ _ _ _ _ _ _ _
              Hk H i j Hi Hj) as (wi & w & p & Hwi & Hw & Hat & _).
  edestruct bonds_centres as [(_ & wi' & w' & Hwi' & Hw' & Hlen & Hr)|[Hge _]];
    [exact Hk | exact H | exact Hi | exact Hat | | lia].
  assert (wi' = wi) as -> by congruence. assert (w' = w) as -> by congruence.
  rewrite Hone in Hlen.
  destruct Hr as (m0 & m1 & [Hm0 _] & Hsec & ->).
  assert (m0 = 0) as -> by lia.
  destruct (bond_rule_cases thres w 0 m1) as [[Hgt E]|[Hle _]].
  - exists wi, w. rewrite E in Hat. by split_and!.
  - destruct (Hsec Hle) as (Hm1 & Hne & _). lia.
Qed.

Lemma bonds_on_one_atom_needs_weights_above_threshold_witness :
  natm (pmol id_mol mol_he "mulliken") = 1
  ∧ (∀ i j, i < 2 → j < length (last_channel "restricted" mol_he) →
      ∃ wi w,
        weights (assign_rdm1s id_mol id_iao id_lowdin 2 in_order mol_he s_h
                   (c_h, c_h) ([1], [1])%Q "restricted" "mulliken" "bonds" false 0
                   kw_thres initial_frame).1 !! i = Some wi
        ∧ wi !! j = Some w
        ∧ (9 # 10 < Qabs (wt w 0))%Q
        ∧ centre_at (assign_rdm1s id_mol id_iao id_lowdin 2 in_order mol_he s_h
                       (c_h, c_h) ([1], [1])%Q "restricted" "mulliken" "bonds"
                       false 0 kw_thres initial_frame).1 i j = Some (0, 0)).
Proof.
  split; [reflexivity |].
  apply (bonds_on_one_atom_needs_weights_above_threshold id_mol id_iao
           id_lowdin 2 in_order mol_he s_h (c_h, c_h) ([1], [1])%Q "restricted"
           "mulliken" false 0 kw_thres (9 # 10) initial_frame _
           (Bonds [[[0]]; [[0]]] [[(0, 0)]; [(0, 0)]])).
  - reflexivity.
  - reflexivity.
  - vm_compute. reflexivity.
Defined.

(** ** assign_rdm1s: the two dispatch modes *)

Section DispatchModes.

Variable reference_mol : Mole → Mole.
Variable lo_iao : Mole → coeffs → coeffs.
Variable lo_vec_lowdin : coeffs → matrix → coeffs.
Variable num_threads : nat.
Variable schedule : nat → list nat.
Variable mol : Mole.
Variable s : matrix.
Variable mo_coeff : coeffs * coeffs.
Variable mo_occ : vector * vector.
Variable ref pop part : string.
Variable verbose : Z.
Variable kwargs : gmap string Q.

Local Abbreviation weights_spin'' :=
  (weights_spin reference_mol lo_iao lo_vec_lowdin num_threads schedule
     mol s mo_coeff mo_occ ref pop).
Local Abbreviation assign_rdm1s'' :=
  (assign_rdm1s reference_mol lo_iao lo_vec_lowdin num_threads schedule
     mol s mo_coeff mo_occ ref pop part).

(** A pool that returns holds what the sequential map returns. *)
Lemma sim_pool_smap processes oracle i d :
  sim (pool_map processes oracle (kernel reference_mol mol s pop i) d)
      (smap (kernel reference_mol mol s pop i) d).
Proof.
  intros fr1 fr2 fr1' ws Hfr Hpar.
  apply pool_map_Ok_inv in Hpar as (_ & es & -> & _ & Hws).
  assert (Forall2 (fun j w => kernel_value reference_mol mol s pop fr2 j = Ok w) d ws)
    as Hws2.
  { eapply Forall2_impl; [exact Hws |]. intros j w Hw. simpl in Hw.
    unfold kernel_value in *. destruct Hfr as (<- & <- & _). done. }
  exists (logged fr2 (map (Weighed i) d)). split.
  - by apply smap_kernel_run.
  - by apply same_locals_logged.
Qed.

Lemma sim_weights_spin_back ix :
  sim (weights_spin'' true ix) (weights_spin'' false ix).
Proof.
  destruct ix as [i idx]. unfold weights_spin.
  apply sim_bind; [unfold set_mo; repeat case_match; sim_tac |]. intros _.
  apply sim_bind; [sim_tac |]. intros o.
  apply sim_bind; [unfold set_mocc; sim_tac |]. intros _.
  apply sim_set_domain.
  apply sim_bind; [apply sim_pool_smap |].
  intros ws. unfold set_weights. case_match; sim_tac.
Qed.

(** The loop of line 103 in the two modes, for channels that have an
    occupied orbital where the loop reaches them. *)
Lemma sim_weights_loop :
  0 < num_threads → alpha mol ≠ [] →
  (closed_shell ref mol = false → beta mol ≠ []) →
  sim (for_each (weights_spin'' false) [(0, alpha mol); (1, beta mol)])
      (for_each (weights_spin'' true) [(0, alpha mol); (1, beta mol)]).
Proof.
  intros Hthreads Ha Hb fr1 fr2 fr1' u Hfr H. cbn [for_each] in *.
  apply bind_Ok_inv in H as (frA & brk & Hspin & H).
  destruct (sim_weights_spin reference_mol lo_iao lo_vec_lowdin num_threads
              schedule mol s mo_coeff mo_occ ref pop Hthreads 0 (alpha mol) Ha
              _ _ _ _ Hfr Hspin) as (frA2 & Hspin2 & HfrA).
  apply weights_spin_Ok in Hspin as (_ & _ & -> & _).
  rewrite (bind_Ok_run _ _ _ _ _ Hspin2).
  destruct (closed_shell ref mol) eqn:Ecl.
  - injection H as <- <-. by exists frA2.
  - apply bind_Ok_inv in H as (frB & brk & Hspin & H).
    destruct (sim_weights_spin reference_mol lo_iao lo_vec_lowdin num_threads
                schedule mol s mo_coeff mo_occ ref pop Hthreads 1 (beta mol)
                (Hb eq_refl) _ _ _ _ HfrA Hspin) as (frB2 & Hspin3 & HfrB).
    apply weights_spin_Ok in Hspin as (_ & _ & -> & _).
    rewrite (bind_Ok_run _ _ _ _ _ Hspin3). rewrite Ecl in *.
    injection H as <- <-. by exists frB2.
Qed.

Lemma sim_assign_with (m1 m2 : bool) :
  sim (for_each (weights_spin'' m1) [(0, alpha mol); (1, beta mol)])
      (for_each (weights_spin'' m2) [(0, alpha mol); (1, beta mol)]) →
  sim (assign_rdm1s'' m1 verbose kwargs) (assign_rdm1s'' m2 verbose kwargs).
Proof.
  intros Hloop. unfold assign_rdm1s. apply sim_bind.
  - unfold populations. cbv zeta.
    apply sim_bind; [unfold set_weights; sim_tac |]. intros _.
    apply sim_bind; [exact Hloop |].
    intros _. case_match; [|apply sim_ret].
    apply sim_for_each. intros ix _. apply sim_print_spin.
  - intros _. apply sim_after_populations.
Qed.

End DispatchModes.

(** X26: the two dispatch modes.  A parallel call returns a value exactly
    when the sequential call returns that value, [lib.num_threads()] is at
    least one and every channel the weights loop treats (alpha, and beta
    unless the closed-shell reduction applies) has an occupied orbital;
    the order in which the pool finishes its tasks plays no part.  In
    particular the weights a parallel call returns are those of the
    sequential call, in the same order. *)
Theorem parallel_call_returns_iff
    (reference_mol : Mole → Mole) (lo_iao : Mole → coeffs → coeffs)
    (lo_vec_lowdin : coeffs → matrix → coeffs) (num_threads : nat)
    (schedule : nat → list nat) (mol : Mole) (s : matrix)
    (mo_coeff : coeffs * coeffs) (mo_occ : vector * vector) (ref pop part : string)
    (verbose : Z) (kwargs : gmap string Q) (fr0 : frame) (res : assigned) :
  (∃ fr2,
     assign_rdm1s reference_mol lo_iao lo_vec_lowdin num_threads schedule mol s
       mo_coeff mo_occ ref pop part true verbose kwargs fr0 = (fr2, Ok res))
  ↔ (∃ fr1,
       assign_rdm1s reference_mol lo_iao lo_vec_lowdin num_threads schedule mol s
         mo_coeff mo_occ ref pop part false verbose kwargs fr0 = (fr1, Ok res))
    ∧ 0 < num_threads
    ∧ alpha mol ≠ []
    ∧ (closed_shell ref mol = false → beta mol ≠ []).
Proof.
  split.
  - intros [fr2 H]. split.
    + assert (sim
        (assign_rdm1s reference_mol lo_iao lo_vec_lowdin num_threads schedule
           mol s mo_coeff mo_occ ref pop part true verbose kwargs)
        (assign_rdm1s reference_mol lo_iao lo_vec_lowdin num_threads schedule
           mol s mo_coeff mo_occ ref pop part false verbose kwargs)) as Hsim.
      { apply sim_assign_with. apply sim_for_each. intros ix _.
        apply sim_weights_spin_back. }
      destruct (Hsim fr0 fr0 fr2 res (same_locals_refl fr0) H) as (fr1 & H1 & _).
      by exists fr1.
    + unfold assign_rdm1s in H.
      apply bind_Ok_inv in H as (frP & u & Hpop & _).
      apply populations_values in Hpop as (_ & _ & _ & _ & _ & _ & _ & Hp & _).
      by apply Hp.
  - intros ([fr1 H] & Hthreads & Ha & Hb).
    assert (sim
      (assign_rdm1s reference_mol lo_iao lo_vec_lowdin num_threads schedule
         mol s mo_coeff mo_occ ref pop part false verbose kwargs)
      (assign_rdm1s reference_mol lo_iao lo_vec_lowdin num_threads schedule
         mol s mo_coeff mo_occ ref pop part true verbose kwargs)) as Hsim.
    { apply sim_assign_with. by apply sim_weights_loop. }
    destruct (Hsim fr0 fr0 fr1 res (same_locals_refl fr0) H) as (fr2 & H2 & _).
    by exists fr2.
Qed.

Lemma parallel_call_returns_iff_witness :
  ∃ fr2,
    assign_rdm1s id_mol id_iao id_lowdin 4 out_of_order mol_example s_two
      (c_unit, c_unit) occ_bond "unrestricted" "mulliken" "atoms" true 0 ∅
      initial_frame
    = (fr2, Ok (Weights [[[1; 0]; [0; 2]]; [[1; 0]; [0; 2]]]%Q)).
Proof.
  apply (parallel_call_returns_iff id_mol id_iao id_lowdin 4 out_of_order
           mol_example s_two (c_unit, c_unit) occ_bond "unrestricted"
           "mulliken" "atoms" 0 ∅ initial_frame).
  split_and!.
  - eexists. vm_compute. reflexivity.
  - lia.
  - discriminate.
  - discriminate.
Defined.
